(** * A heap model of the path-compressed CIDR trie of [ranger/trie/trie.go]

    The Go program keeps a pointer graph of [PrefixTrie] nodes with parent
    back-references and two child slots per node.  The nodes live here in an
    arena (a list indexed by handles); every Go method becomes a function in
    a small state monad over that arena whose outcomes distinguish a normal
    return (carrying Go's [(value, error)] pair), a run-time panic, and
    exhaustion of the recursion budget. *)

From Stdlib Require Import ZArith Lia Bool.
From Stdlib Require Strings.Byte.
From stdpp Require Import base option list sorting.

Local Open Scope Z_scope.

(** ** Errors and results *)

Inductive error : Type :=
  | ErrInvalidNetworkNumberInput
  | ErrInvalidBitPosition.

(** Go's [(T, error)] return pair. *)
Inductive result (A : Type) : Type :=
  | ok (a : A)
  | err (e : error).
Arguments ok {A} a.
Arguments err {A} e.

(** Go's [uint] on a 64-bit platform. *)
Definition uint (z : Z) : Z := z mod 2 ^ 64.

(** The conversion [int(u)] of a [uint]. *)
Definition int (u : Z) : Z := if u <? 2 ^ 63 then u else u - 2 ^ 64.

(** ** Package rnet: addresses and networks *)

Module rnet.

Definition NetworkNumber := Z.

(** Modelled from the spec: [rnet.NewNetworkNumber] is not under src/.  An
    [net.IP] is a byte slice; it is a value of the 32-bit address width when
    it has exactly four bytes, read big-endian.  Any other input cannot be
    interpreted and yields the nil number. *)
Definition NewNetworkNumber (ip : list Byte.byte) : option NetworkNumber :=
  match ip with
  | [a; b; c; d] =>
      Some (Z.lor (Z.shiftl (Z.of_N (Byte.to_N a)) 24)
           (Z.lor (Z.shiftl (Z.of_N (Byte.to_N b)) 16)
           (Z.lor (Z.shiftl (Z.of_N (Byte.to_N c)) 8)
                  (Z.of_N (Byte.to_N d)))))
  | _ => None
  end.

(** Modelled from the spec: [rnet.NetworkNumber.Bit] is not under src/.
    Bit [position] of the address, 0 being the least significant; a
    position outside the address is the invalid-bit-position error. *)
Definition Bit (n : NetworkNumber) (position : Z) : result Z :=
  if 31 <? position then err ErrInvalidBitPosition
  else ok (Z.land (Z.shiftr n position) 1).

(** Modelled from the spec: [rnet.Network] is not under src/.  A network is
    an address value with a prefix length. *)
Record Network : Type := mkNetwork {
  Number : NetworkNumber;
  Ones : Z
}.

(** The netmask with [ones] leading one bits (Go's [net.CIDRMask ones 32]). *)
Definition CIDRMask (ones : Z) : Z := Z.shiftl (Z.ones ones) (32 - ones).

(** Modelled from the spec: [rnet.Network.Masked] is not under src/.  Masks
    the address to the given bit length, returning a new network. *)
Definition Masked (n : Network) (ones : Z) : Network :=
  {| Number := Z.land (Number n) (CIDRMask ones); Ones := ones |}.

(** A [net.IPNet] as the caller hands it over: raw address, prefix length. *)
Record IPNet : Type := mkIPNet {
  IP : Z;
  PrefixLen : Z
}.

(** Modelled from the spec: [rnet.NewNetwork] is not under src/.  Builds a
    network from a raw address and prefix length, masking host bits to
    zero. *)
Definition NewNetwork (ipNet : IPNet) : Network :=
  Masked {| Number := IP ipNet; Ones := PrefixLen ipNet |} (PrefixLen ipNet).

(** Modelled from the spec: [rnet.Network.Equal] is not under src/.
    Equality is address-and-length wise. *)
Definition Equal (n n1 : Network) : bool :=
  (Number n =? Number n1) && (Ones n =? Ones n1).

(** Modelled from the spec: [rnet.Network.Contains] is not under src/.  Does
    the network's prefix contain the address. *)
Definition Contains (n : Network) (nn : NetworkNumber) : bool :=
  Z.land nn (CIDRMask (Ones n)) =? Number n.

(** Modelled from the spec: [rnet.NetworkNumber.LeastCommonBitPosition] is
    not under src/.  The divergence position of two addresses is the
    highest-order bit at which they differ, [Z.log2] of their exclusive or.
    The caller in [insert] uses the returned value [lcb] as one more than
    that position ([lcb-1] is compared with a target bit position and
    [32-lcb] becomes a prefix length), so the function returns the least
    position of the common leading bits, and 0 when the addresses are
    equal. *)
Definition NumberLeastCommonBitPosition (n n1 : NetworkNumber) : Z :=
  if n =? n1 then 0 else Z.log2 (Z.lxor n n1) + 1.

(** Modelled from the spec: [rnet.Network.LeastCommonBitPosition] is not
    under src/.  The least position of the leading bits common to both
    networks: that of the two addresses, but never below the end of the
    shorter of the two prefixes, since the bits after a prefix are not part
    of the network (192.168.0.0/24 and 192.168.0.0/25 have equal addresses
    and 24 common bits, so the position is 8).  The spec names no failure of
    this computation, so the error component is always nil. *)
Definition LeastCommonBitPosition (n n1 : Network) : result Z :=
  ok (Z.max (32 - Z.min (Ones n) (Ones n1))
            (NumberLeastCommonBitPosition (Number n) (Number n1))).

End rnet.

Import rnet.

(** ** Trie nodes and the arena *)

Abbreviation ptr := nat.

Record PrefixTrie : Type := mkPrefixTrie {
  parent : option ptr;
  children : list (option ptr);
  numBitsSkipped : Z;
  numBitsHandled : Z;
  network : Network;
  hasEntry : bool
}.

Definition with_parent (t : PrefixTrie) (v : option ptr) : PrefixTrie :=
  mkPrefixTrie v (children t) (numBitsSkipped t) (numBitsHandled t)
               (network t) (hasEntry t).

Definition with_children (t : PrefixTrie) (v : list (option ptr)) : PrefixTrie :=
  mkPrefixTrie (parent t) v (numBitsSkipped t) (numBitsHandled t)
               (network t) (hasEntry t).

Definition with_numBitsSkipped (t : PrefixTrie) (v : Z) : PrefixTrie :=
  mkPrefixTrie (parent t) (children t) v (numBitsHandled t)
               (network t) (hasEntry t).

Definition with_network (t : PrefixTrie) (v : Network) : PrefixTrie :=
  mkPrefixTrie (parent t) (children t) (numBitsSkipped t) (numBitsHandled t)
               v (hasEntry t).

Definition with_hasEntry (t : PrefixTrie) (v : bool) : PrefixTrie :=
  mkPrefixTrie (parent t) (children t) (numBitsSkipped t) (numBitsHandled t)
               (network t) v.

Abbreviation heap := (list PrefixTrie).

(** ** The monad of heap computations *)

Inductive outcome (A : Type) : Type :=
  | Ret (a : A)
  | Panic
  | OutOfFuel.
Arguments Ret {A} a.
Arguments Panic {A}.
Arguments OutOfFuel {A}.

Definition M (A : Type) : Type := heap -> heap * outcome A.

Definition ret {A} (a : A) : M A := fun h => (h, Ret a).

Definition bind {A B} (m : M A) (k : A -> M B) : M B :=
  fun h =>
    match m h with
    | (h', Ret a) => k a h'
    | (h', Panic) => (h', Panic)
    | (h', OutOfFuel) => (h', OutOfFuel)
    end.

Notation "x <- m ;; k" := (bind m (fun x => k))
  (at level 100, m at next level, right associativity).
Notation "m ;;; k" := (bind m (fun _ => k))
  (at level 100, right associativity).

Definition panic {A} : M A := fun h => (h, Panic).
Definition out_of_fuel {A} : M A := fun h => (h, OutOfFuel).

(** Reading through a pointer. *)
Definition load (p : ptr) : M PrefixTrie :=
  fun h => match h !! p with
           | Some t => (h, Ret t)
           | None => (h, Panic)
           end.

(** Dereferencing a possibly nil pointer. *)
Definition deref (o : option ptr) : M ptr :=
  match o with
  | Some p => ret p
  | None => panic
  end.

(** [p.children[bit]], with Go's bounds check. *)
Definition index (p : ptr) (bit : Z) : M (option ptr) :=
  t <- load p ;;
  match children t !! Z.to_nat bit with
  | Some c => ret c
  | None => panic
  end.

Definition store (p : ptr) (t : PrefixTrie) : M unit :=
  fun h => (<[p := t]> h, Ret tt).

(** [p.children[bit] = v]. *)
Definition set_child (p : ptr) (bit : Z) (v : option ptr) : M unit :=
  t <- load p ;;
  if decide (Z.to_nat bit < length (children t))%nat
  then store p (with_children t (<[Z.to_nat bit := v]> (children t)))
  else panic.

(** [p.parent = v]. *)
Definition set_parent (p : ptr) (v : option ptr) : M unit :=
  t <- load p ;; store p (with_parent t v).

(** [p.hasEntry = v]. *)
Definition set_hasEntry (p : ptr) (v : bool) : M unit :=
  t <- load p ;; store p (with_hasEntry t v).

(** [p.numBitsSkipped = v]. *)
Definition set_numBitsSkipped (p : ptr) (v : Z) : M unit :=
  t <- load p ;; store p (with_numBitsSkipped t v).

(** [p.network = v]. *)
Definition set_network (p : ptr) (v : Network) : M unit :=
  t <- load p ;; store p (with_network t v).

Definition alloc (t : PrefixTrie) : M ptr :=
  fun h => (h ++ [t], Ret (length h)).

(** ** The trie operations *)

Definition rootNet : Network := NewNetwork {| IP := 0; PrefixLen := 0 |}.

Definition emptyNode : PrefixTrie :=
  {| parent := None; children := [None; None];
     numBitsSkipped := 0; numBitsHandled := 1;
     network := rootNet; hasEntry := false |}.

Definition NewPrefixTree : M ptr := alloc emptyNode.

Definition newPathPrefixTrie (network0 : Network) (numBitsSkipped0 : Z)
  : M (result ptr) :=
  path <- NewPrefixTree ;;
  set_numBitsSkipped path numBitsSkipped0 ;;;
  set_network path (Masked network0 (int numBitsSkipped0)) ;;;
  ret (ok path).

Definition newEntryTrie (network : Network) : M (result ptr) :=
  r <- newPathPrefixTrie network (uint (Ones network)) ;;
  match r with
  | err e => ret (err e)
  | ok leaf => set_hasEntry leaf true ;;; ret (ok leaf)
  end.

Definition targetBitPosition (t : PrefixTrie) : Z :=
  uint (31 - numBitsSkipped t).

Definition targetBitFromIP (t : PrefixTrie) (n : NetworkNumber) : result Z :=
  Bit n (targetBitPosition t).

Definition childrenCount (t : PrefixTrie) : Z :=
  Z.of_nat (length (filter (fun c : option ptr => is_Some c) (children t))).

Fixpoint insertPrefix (fuel : nat) (p : ptr) (bits : Z) (prefix : ptr)
  : M (option error) :=
  match fuel with
  | O => out_of_fuel
  | S fuel =>
      child <- index p bits ;;
      e <- match child with
           | Some c =>
               pre <- load prefix ;;
               cn <- load c ;;
               match targetBitFromIP pre (Number (network cn)) with
               | err e => ret (Some e)
               | ok prefixBit =>
                   insertPrefix fuel prefix prefixBit c ;;; ret None
               end
           | None => ret None
           end ;;
      match e with
      | Some e => ret (Some e)
      | None =>
          set_child p bits (Some prefix) ;;;
          set_parent prefix (Some p) ;;;
          ret None
      end
  end.

Fixpoint insert (fuel : nat) (p : ptr) (network0 : Network)
  : M (option error) :=
  match fuel with
  | O => out_of_fuel
  | S fuel =>
      t <- load p ;;
      if Equal (network t) network0 then
        set_hasEntry p true ;;; ret None
      else
        match targetBitFromIP t (Number network0) with
        | err e => ret (Some e)
        | ok bit =>
            child <- index p bit ;;
            match child with
            | None =>
                r <- newEntryTrie network0 ;;
                match r with
                | err e => ret (Some e)
                | ok entry => insertPrefix fuel p bit entry
                end
            | Some child =>
                cn <- load child ;;
                match LeastCommonBitPosition network0 (network cn) with
                | err e => ret (Some e)
                | ok lcb =>
                    if targetBitPosition cn <? uint (lcb - 1) then
                      r <- newPathPrefixTrie network0 (uint (32 - lcb)) ;;
                      match r with
                      | err e => ret (Some e)
                      | ok child' =>
                          e <- insertPrefix fuel p bit child' ;;
                          match e with
                          | Some e => ret (Some e)
                          | None => insert fuel child' network0
                          end
                      end
                    else insert fuel child network0
                end
            end
        end
  end.

(** The first non-nil child, as the [for ... break] loop of [remove]. *)
Definition firstChild (t : PrefixTrie) : option ptr :=
  match filter (fun c : option ptr => is_Some c) (children t) with
  | c :: _ => c
  | [] => None
  end.

Fixpoint remove (fuel : nat) (p : ptr) (network0 : Network)
  : M (result (option Network)) :=
  match fuel with
  | O => out_of_fuel
  | S fuel =>
      t <- load p ;;
      if hasEntry t && Equal (network t) network0 then
        if 1 <? childrenCount t then
          set_hasEntry p false ;;; ret (ok (Some network0))
        else
          par <- deref (parent t) ;;
          pt <- load par ;;
          match targetBitFromIP pt (Number network0) with
          | err e => ret (err e)
          | ok parentBits =>
              set_child par parentBits (firstChild t) ;;;
              ret (ok (Some network0))
          end
      else
        match targetBitFromIP t (Number network0) with
        | err e => ret (err e)
        | ok bit =>
            child <- index p bit ;;
            match child with
            | Some child => remove fuel child network0
            | None => ret (ok None)
            end
        end
  end.

Fixpoint contains (fuel : nat) (p : ptr) (number : NetworkNumber)
  : M (result bool) :=
  match fuel with
  | O => out_of_fuel
  | S fuel =>
      t <- load p ;;
      if negb (rnet.Contains (network t) number) then ret (ok false)
      else if hasEntry t then ret (ok true)
      else
        match targetBitFromIP t number with
        | err e => ret (err e)
        | ok bit =>
            child <- index p bit ;;
            match child with
            | Some child => contains fuel child number
            | None => ret (ok false)
            end
        end
  end.

Fixpoint containingNetworks (fuel : nat) (p : ptr) (number : NetworkNumber)
  : M (result (list Network)) :=
  match fuel with
  | O => out_of_fuel
  | S fuel =>
      t <- load p ;;
      if negb (rnet.Contains (network t) number) then ret (ok [])
      else
        let results := if hasEntry t then [network t] else [] in
        match targetBitFromIP t number with
        | err e => ret (err e)
        | ok bit =>
            child <- index p bit ;;
            match child with
            | Some child =>
                r <- containingNetworks fuel child number ;;
                match r with
                | err e => ret (err e)
                | ok ranges => ret (ok (results ++ ranges))
                end
            | None => ret (ok results)
            end
        end
  end.

(** Go's [int] on a 64-bit platform: two's-complement wrap-around. *)
Definition int_wrap (z : Z) : Z := (z + 2 ^ 63) mod 2 ^ 64 - 2 ^ 63.

(** [level]: the number of parent references between the node and a node
    without parent. *)
Fixpoint level (fuel : nat) (p : ptr) : M Z :=
  match fuel with
  | O => out_of_fuel
  | S fuel =>
      t <- load p ;;
      match parent t with
      | None => ret 0
      | Some g => l <- level fuel g ;; ret (int_wrap (l + 1))
      end
  end.

(** The two loops of [walkDepth] over the child slots: the walks of the
    non-nil children, in slot order, one after the other. *)
Fixpoint walkChildren (walk : ptr -> M (list Network))
    (cs : list (option ptr)) : M (list Network) :=
  match cs with
  | [] => ret []
  | None :: cs => walkChildren walk cs
  | Some trie :: cs =>
      l <- walk trie ;;
      ls <- walkChildren walk cs ;;
      ret (l ++ ls)
  end.

(** [walkDepth]: the sequence of networks the channel delivers.  The
    goroutine of a node sends the node's own entry, starts the walks of its
    non-nil children in slot order and then forwards what each of them
    delivers, one child after the other; the goroutines only read the trie,
    so the sequence received from the channel is the depth-first listing
    computed here. *)
Fixpoint walkDepth (fuel : nat) (p : ptr) : M (list Network) :=
  match fuel with
  | O => out_of_fuel
  | S fuel =>
      t <- load p ;;
      subNetworks <- walkChildren (walkDepth fuel) (children t) ;;
      ret ((if hasEntry t then [network t] else []) ++ subNetworks)
  end.

(** ** The public interface *)

Definition Insert (fuel : nat) (p : ptr) (network0 : IPNet) : M (option error) :=
  insert fuel p (NewNetwork network0).

Definition Remove (fuel : nat) (p : ptr) (network0 : IPNet)
  : M (result (option Network)) :=
  remove fuel p (NewNetwork network0).

Definition Contains (fuel : nat) (p : ptr) (ip : list Byte.byte)
  : M (result bool) :=
  match NewNetworkNumber ip with
  | None => ret (err ErrInvalidNetworkNumberInput)
  | Some nn => contains fuel p nn
  end.

Definition ContainingNetworks (fuel : nat) (p : ptr) (ip : list Byte.byte)
  : M (result (list Network)) :=
  match NewNetworkNumber ip with
  | None => ret (err ErrInvalidNetworkNumberInput)
  | Some nn => containingNetworks fuel p nn
  end.

(** ** Predicates on addresses, networks and heaps *)

Definition in_range (a : Z) : Prop := 0 <= a < 2 ^ 32.

(** [agree k a b]: the addresses agree on their [k] leading bits. *)
Definition agree (k a b : Z) : Prop :=
  forall i, 32 - k <= i -> Z.testbit a i = Z.testbit b i.

(** A network is well formed when its prefix length is at most the address
    width and its host bits are zero. *)
Definition wf_network (n : Network) : Prop :=
  0 <= Ones n <= 32 /\ in_range (Number n) /\
  forall i, i < 32 - Ones n -> Z.testbit (Number n) i = false.

Definition valid_ipnet (n : IPNet) : Prop :=
  in_range (IP n) /\ 0 <= PrefixLen n <= 32.

(** [covers p n]: the prefix [p] is a (not necessarily strict) prefix of [n]. *)
Definition covers (p n : Network) : Prop :=
  Ones p <= Ones n /\ agree (Ones p) (Number n) (Number p).

(** [extends c p]: the network [c] is a strict bit-extension of [p]. *)
Definition extends (c p : Network) : Prop :=
  Ones p < Ones c /\ agree (Ones p) (Number c) (Number p).

(** The child slot an address selects under a node of prefix length [k]. *)
Definition slot_of (k : Z) (a : Z) : nat :=
  Z.to_nat (Z.b2z (Z.testbit a (31 - k))).

(** The value computed by [LeastCommonBitPosition]. *)
Definition lcbZ (n m : Network) : Z :=
  Z.max (32 - Z.min (Ones n) (Ones m))
        (NumberLeastCommonBitPosition (Number n) (Number m)).

(** What the recursive [insert] may assume of the node it is called on: the
    node's prefix covers the network, or the node is a full-length host
    entry reached because its target bit position wrapped around. *)
Definition pre (p n : Network) : Prop := Ones p = 32 \/ covers p n.

Definition node_ok (t : PrefixTrie) : Prop :=
  wf_network (network t) /\ numBitsSkipped t = Ones (network t) /\
  length (children t) = 2%nat.

Definition child_ok (h : heap) (net : Network) (b : nat) (c : ptr) : Prop :=
  exists ct, h !! c = Some ct /\ extends (network ct) net /\
             slot_of (Ones net) (Number (network ct)) = b.

Definition parent_ok (h : heap) (net : Network) (g : ptr) : Prop :=
  exists gt, h !! g = Some gt /\ extends net (network gt).

(** The structural invariant of the arena: every node is well formed, every
    occupied child slot holds a strict extension that selects that slot, and
    every parent reference names a node whose prefix the node extends. *)
Record inv (h : heap) : Prop := mkInv {
  inv_node : forall p t, h !! p = Some t -> node_ok t;
  inv_child : forall p t b c, h !! p = Some t ->
      children t !! b = Some (Some c) -> child_ok h (network t) b c;
  inv_parent : forall p t g, h !! p = Some t ->
      parent t = Some g -> parent_ok h (network t) g
}.

(** The root is node 0 and stands for the all-addresses network. *)
Definition rooted (h : heap) : Prop :=
  exists t, h !! 0%nat = Some t /\ network t = rootNet.

(** Nodes keep their network; arenas only grow. *)
Definition stable (h h' : heap) : Prop :=
  forall q t, h !! q = Some t ->
    exists t', h' !! q = Some t' /\ network t' = network t.

(** Nodes of prefix length below [k] are untouched. *)
Definition frame (k : Z) (h h' : heap) : Prop :=
  forall q t, h !! q = Some t -> Ones (network t) < k -> h' !! q = Some t.

(** The heap after [insert] attached a fresh leaf for [n] under [p]. *)
Definition leafNode (n : Network) (p : ptr) : PrefixTrie :=
  mkPrefixTrie (Some p) [None; None] (Ones n) 1 n true.

Definition attach_leaf (h : heap) (p : ptr) (t : PrefixTrie) (n : Network)
  : heap :=
  <[p := with_children t
           (<[slot_of (Ones (network t)) (Number n) := Some (length h)]>
              (children t))]> h ++ [leafNode n p].

(** The heap after [insert] placed a fresh branch node of prefix length [L]
    between [p] and its child [c]. *)
Definition pathNode (n : Network) (L : Z) (p : ptr) (pb : nat) (c : ptr)
  : PrefixTrie :=
  mkPrefixTrie (Some p) (<[pb := Some c]> [None; None]) L 1 (Masked n L) false.

Definition split_heap (h : heap) (p : ptr) (t : PrefixTrie) (c : ptr)
    (ct : PrefixTrie) (n : Network) (L : Z) : heap :=
  <[p := with_children t
           (<[slot_of (Ones (network t)) (Number n) := Some (length h)]>
              (children t))]>
    (<[c := with_parent ct (Some (length h))]> h)
  ++ [pathNode n L p (slot_of L (Number (network ct))) c].

(** One call of [insert] on a node of a well-formed arena, by cases. *)
Inductive insert_view (fuel : nat) (h : heap) (p : ptr) (t : PrefixTrie)
    (n : Network) : heap * outcome (option error) -> Prop :=
  | IV_equal :
      network t = n ->
      insert_view fuel h p t n (<[p := with_hasEntry t true]> h, Ret None)
  | IV_full :
      network t <> n -> Ones (network t) = 32 ->
      insert_view fuel h p t n (h, Ret (Some ErrInvalidBitPosition))
  | IV_leaf_fuel hx :
      extends n (network t) ->
      children t !! slot_of (Ones (network t)) (Number n) = Some None ->
      fuel = 0%nat ->
      insert_view fuel h p t n (hx, OutOfFuel)
  | IV_leaf :
      extends n (network t) ->
      children t !! slot_of (Ones (network t)) (Number n) = Some None ->
      (1 <= fuel)%nat ->
      insert_view fuel h p t n (attach_leaf h p t n, Ret None)
  | IV_descend c ct :
      extends n (network t) ->
      children t !! slot_of (Ones (network t)) (Number n) = Some (Some c) ->
      h !! c = Some ct ->
      extends (network ct) (network t) ->
      pre (network ct) n ->
      insert_view fuel h p t n (insert fuel c n h)
  | IV_split_fuel hx c ct :
      extends n (network t) ->
      children t !! slot_of (Ones (network t)) (Number n) = Some (Some c) ->
      h !! c = Some ct ->
      Ones (network t) < 32 - lcbZ n (network ct) < Ones (network ct) ->
      Ones (network ct) <= 31 ->
      (fuel < 2)%nat ->
      insert_view fuel h p t n (hx, OutOfFuel)
  | IV_split c ct :
      extends n (network t) ->
      children t !! slot_of (Ones (network t)) (Number n) = Some (Some c) ->
      h !! c = Some ct ->
      Ones (network t) < 32 - lcbZ n (network ct) < Ones (network ct) ->
      Ones (network ct) <= 31 ->
      32 - lcbZ n (network ct) <= Ones n ->
      agree (32 - lcbZ n (network ct)) (Number n) (Number (network ct)) ->
      (2 <= fuel)%nat ->
      insert_view fuel h p t n
        (insert fuel (length h) n
           (split_heap h p t c ct n (32 - lcbZ n (network ct)))).

(** One call of [remove] on a node of a well-formed arena, by cases. *)
Inductive remove_view (fuel : nat) (h : heap) (p : ptr) (t : PrefixTrie)
    (n : Network) : heap * outcome (result (option Network)) -> Prop :=
  | RV_flag :
      hasEntry t = true -> network t = n -> 1 < childrenCount t ->
      remove_view fuel h p t n
        (<[p := with_hasEntry t false]> h, Ret (ok (Some n)))
  | RV_root :
      hasEntry t = true -> network t = n -> childrenCount t <= 1 ->
      parent t = None ->
      remove_view fuel h p t n (h, Panic)
  | RV_splice g gt :
      hasEntry t = true -> network t = n -> childrenCount t <= 1 ->
      parent t = Some g -> h !! g = Some gt ->
      extends (network t) (network gt) ->
      remove_view fuel h p t n
        (<[g := with_children gt
                  (<[slot_of (Ones (network gt)) (Number n) := firstChild t]>
                     (children gt))]> h,
         Ret (ok (Some n)))
  | RV_full :
      hasEntry t && Equal (network t) n = false -> Ones (network t) = 32 ->
      remove_view fuel h p t n (h, Ret (err ErrInvalidBitPosition))
  | RV_descend c ct :
      hasEntry t && Equal (network t) n = false ->
      children t !! slot_of (Ones (network t)) (Number n) = Some (Some c) ->
      h !! c = Some ct ->
      extends (network ct) (network t) ->
      remove_view fuel h p t n (remove fuel c n h)
  | RV_none :
      hasEntry t && Equal (network t) n = false ->
      children t !! slot_of (Ones (network t)) (Number n) = Some None ->
      remove_view fuel h p t n (h, Ret (ok None)).

(** The arenas a client can build: a fresh trie, then any sequence of
    [Insert] and [Remove] calls on the root that return. *)
Inductive reachable : heap -> Prop :=
  | reach_new : reachable (fst (NewPrefixTree []))
  | reach_Insert h fuel net h' e :
      reachable h -> valid_ipnet net ->
      Insert fuel 0%nat net h = (h', Ret e) -> reachable h'
  | reach_Remove h fuel net h' r :
      reachable h -> valid_ipnet net ->
      Remove fuel 0%nat net h = (h', Ret r) -> reachable h'.

(** [fuel_le m m']: whatever [m] returns within its recursion budget, [m']
    returns as well. *)
Definition fuel_le {A} (m m' : M A) : Prop :=
  forall h h' r, m h = (h', r) -> r <> OutOfFuel -> m' h = (h', r).

(** [found h a p]: the descent of [contains] for the address [a] from node
    [p] meets a node with an entry. *)
Inductive found (h : heap) (a : Z) : ptr -> Prop :=
  | found_here p t :
      h !! p = Some t -> rnet.Contains (network t) a = true ->
      hasEntry t = true -> found h a p
  | found_below p t c :
      h !! p = Some t -> rnet.Contains (network t) a = true ->
      hasEntry t = false ->
      children t !! slot_of (Ones (network t)) a = Some (Some c) ->
      found h a c -> found h a p.

(** [present h n p]: the descent for the network [n] from node [p] ends in
    a node that stands for [n] and has its entry flag set. *)
Inductive present (h : heap) (n : Network) : ptr -> Prop :=
  | present_here p t :
      h !! p = Some t -> network t = n -> hasEntry t = true ->
      present h n p
  | present_below p t c :
      h !! p = Some t -> extends n (network t) ->
      children t !! slot_of (Ones (network t)) (Number n) = Some (Some c) ->
      present h n c -> present h n p.

(** [grows h h']: every node keeps its network, a set entry flag and its
    occupied child slots. *)
Definition grows (h h' : heap) : Prop :=
  forall q t, h !! q = Some t ->
    exists t', h' !! q = Some t' /\ network t' = network t /\
      (hasEntry t = true -> hasEntry t' = true) /\
      forall b c, children t !! b = Some (Some c) ->
                  children t' !! b = Some (Some c).

(** Every node held in a child slot has a parent reference, and the root has
    none. *)
Definition linked (h : heap) : Prop :=
  (forall p t b c, h !! p = Some t -> children t !! b = Some (Some c) ->
     exists ct, h !! c = Some ct /\ is_Some (parent ct)) /\
  (exists t, h !! 0%nat = Some t /\ network t = rootNet /\ parent t = None).

(** Networks ordered by prefix length. *)
Definition shorter (n m : Network) : Prop := Ones n < Ones m.

(** Whether a node with an entry for the network is in the arena. *)
Definition is_entry (h : heap) (n : Network) : Prop :=
  exists q t, h !! q = Some t /\ network t = n /\ hasEntry t = true.

(** [descendant h p q]: node [q] is reached from node [p] through child
    slots. *)
Inductive descendant (h : heap) : ptr -> ptr -> Prop :=
  | descendant_refl p : descendant h p p
  | descendant_child p t b c q :
      h !! p = Some t -> children t !! b = Some (Some c) ->
      descendant h c q -> descendant h p q.

(** The networks with an entry in the subtree of [p]. *)
Definition live_entry (h : heap) (p : ptr) (n : Network) : Prop :=
  exists q t, descendant h p q /\ h !! q = Some t /\ network t = n /\
              hasEntry t = true.

(** ** Concrete networks and arenas used in the examples *)

Definition ip4 (a b c d : Z) : Z := a * 2 ^ 24 + b * 2 ^ 16 + c * 2 ^ 8 + d.

Definition cidr (a b c d len : Z) : IPNet :=
  {| IP := ip4 a b c d; PrefixLen := len |}.

Definition net (a b c d len : Z) : Network :=
  {| Number := ip4 a b c d; Ones := len |}.

(** The addresses 192.168.0.1, 192.168.1.5, 10.0.0.1 and 1.2.3.4 as byte
    slices. *)
Definition ip_192_168_0_1 : list Byte.byte :=
  [Byte.xc0; Byte.xa8; Byte.x00; Byte.x01].
Definition ip_192_168_1_5 : list Byte.byte :=
  [Byte.xc0; Byte.xa8; Byte.x01; Byte.x05].
Definition ip_10_0_0_1 : list Byte.byte :=
  [Byte.x0a; Byte.x00; Byte.x00; Byte.x01].
Definition ip_1_2_3_4 : list Byte.byte :=
  [Byte.x01; Byte.x02; Byte.x03; Byte.x04].

(** The recursion budget of the examples: the top-level call and one
    recursive call per address bit. *)
Definition depth : nat := S 32.

Definition root : nat := 0%nat.

Definition emptyTrie : list PrefixTrie := fst (NewPrefixTree []).

(** 192.168.0.0/24 and 192.168.0.0/25 inserted. *)
Definition nestedTrie : list PrefixTrie :=
  fst (Insert depth root (cidr 192 168 0 0 25)
         (fst (Insert depth root (cidr 192 168 0 0 24) emptyTrie))).

(** Scenario A: 192.168.0.0/24, 192.168.0.0/25 and 192.168.1.0/24 inserted. *)
Definition scenarioA : list PrefixTrie :=
  fst (Insert depth root (cidr 192 168 1 0 24) nestedTrie).

(** Scenario B: 192.168.0.0/25 removed from scenario A. *)
Definition scenarioB : list PrefixTrie :=
  fst (Remove depth root (cidr 192 168 0 0 25) scenarioA).

(** The outer network 192.168.0.0/24 removed from the nested pair, then the
    inner one. *)
Definition outerRemoved : list PrefixTrie :=
  fst (Remove depth root (cidr 192 168 0 0 24) nestedTrie).
Definition bothRemoved : list PrefixTrie :=
  fst (Remove depth root (cidr 192 168 0 0 25) outerRemoved).

(** The single host 1.2.3.4/32 inserted. *)
Definition hostTrie : list PrefixTrie :=
  fst (Insert depth root (cidr 1 2 3 4 32) emptyTrie).

(** The all-addresses network 0.0.0.0/0 inserted. *)
Definition allTrie : list PrefixTrie :=
  fst (Insert depth root (cidr 0 0 0 0 0) emptyTrie).

(** ** Bit-level facts about addresses *)

Lemma in_range_high a i : in_range a -> 32 <= i -> Z.testbit a i = false.
Proof.
  intros [H0 H1] Hi. destruct (Z.eq_dec a 0) as [->|Hne].
  - apply Z.bits_0.
  - apply Z.bits_above_log2; [lia|].
    assert (Z.log2 a < 32) by (apply Z.log2_lt_pow2; lia). lia.
Qed.

Lemma in_range_intro a :
  0 <= a -> (forall i, 32 <= i -> Z.testbit a i = false) -> in_range a.
Proof.
  intros H0 H. split; [done|].
  destruct (Z.eq_dec a 0) as [->|Hne]; [done|].
  apply Z.log2_lt_pow2; [lia|].
  destruct (Z_lt_le_dec (Z.log2 a) 32) as [|Hge]; [done|].
  specialize (H (Z.log2 a) Hge). rewrite Z.bit_log2 in H by lia. done.
Qed.

Lemma agree_refl k a : agree k a a.
Proof. by intros i _. Qed.

Lemma agree_sym k a b : agree k a b -> agree k b a.
Proof. intros H i Hi. symmetry. by apply H. Qed.

Lemma agree_trans k a b c : agree k a b -> agree k b c -> agree k a c.
Proof. intros H1 H2 i Hi. rewrite H1 by done. by apply H2. Qed.

Lemma agree_mono j k a b : j <= k -> agree k a b -> agree j a b.
Proof. intros Hjk H i Hi. apply H. lia. Qed.

Lemma agree_step k a b :
  agree k a b -> Z.testbit a (31 - k) = Z.testbit b (31 - k) ->
  agree (k + 1) a b.
Proof.
  intros H Hb i Hi. destruct (Z.eq_dec i (31 - k)) as [->|Hne]; [done|].
  apply H. lia.
Qed.

Lemma CIDRMask_spec ones i :
  0 <= ones <= 32 -> 0 <= i ->
  Z.testbit (CIDRMask ones) i = (32 - ones <=? i) && (i <? 32).
Proof.
  intros Ho Hi. unfold CIDRMask.
  rewrite Z.shiftl_spec by done.
  destruct (Z.leb_spec (32 - ones) i) as [Hle|Hlt]; simpl.
  - destruct (Z.ltb_spec i 32).
    + apply Z.ones_spec_low. lia.
    + apply Z.ones_spec_high. lia.
  - apply Z.testbit_neg_r. lia.
Qed.

Lemma land_mask_spec a ones i :
  in_range a -> 0 <= ones <= 32 -> 0 <= i ->
  Z.testbit (Z.land a (CIDRMask ones)) i =
  Z.testbit a i && (32 - ones <=? i).
Proof.
  intros Ha Ho Hi. rewrite Z.land_spec, CIDRMask_spec by done.
  destruct (Z.ltb_spec i 32).
  - by rewrite andb_true_r.
  - rewrite in_range_high by done. done.
Qed.

Lemma land_mask_range a ones :
  in_range a -> 0 <= ones <= 32 -> in_range (Z.land a (CIDRMask ones)).
Proof.
  intros Ha Ho. apply in_range_intro.
  - apply Z.land_nonneg. left. apply Ha.
  - intros i Hi. rewrite land_mask_spec by (done || lia).
    by rewrite in_range_high.
Qed.

Lemma Masked_wf n ones :
  in_range (Number n) -> 0 <= ones <= 32 -> wf_network (Masked n ones).
Proof.
  intros Ha Ho. split; [done|]. split; simpl.
  - by apply land_mask_range.
  - intros i Hi. destruct (Z_lt_le_dec i 0).
    + by apply Z.testbit_neg_r.
    + rewrite land_mask_spec by done.
      destruct (Z.leb_spec (32 - ones) i); [lia|]. apply andb_false_r.
Qed.

Lemma Masked_agree n ones :
  in_range (Number n) -> 0 <= ones <= 32 ->
  agree ones (Number (Masked n ones)) (Number n).
Proof.
  intros Ha Ho i Hi. simpl. rewrite land_mask_spec by (done || lia).
  destruct (Z.leb_spec (32 - ones) i); [|lia]. apply andb_true_r.
Qed.

Lemma wf_network_eq n m :
  wf_network n -> wf_network m -> Ones n = Ones m ->
  agree (Ones n) (Number n) (Number m) -> n = m.
Proof.
  intros (Hn1 & Hn2 & Hn3) (Hm1 & Hm2 & Hm3) Ho Hag.
  destruct n as [a k], m as [b k']; simpl in *. subst k'. f_equal.
  apply Z.bits_inj'. intros i Hi.
  destruct (Z_lt_le_dec i (32 - k)).
  - by rewrite Hn3, Hm3.
  - by apply Hag.
Qed.

Lemma Masked_id n : wf_network n -> Masked n (Ones n) = n.
Proof.
  intros Hn. apply wf_network_eq; [|done|done|].
  - apply Masked_wf; apply Hn.
  - apply Masked_agree; apply Hn.
Qed.

Lemma Equal_true n m : Equal n m = true <-> n = m.
Proof.
  unfold Equal. rewrite andb_true_iff, !Z.eqb_eq. split.
  - destruct n, m; simpl. by intros [-> ->].
  - by intros ->.
Qed.

Lemma Bit_testbit a i :
  0 <= i <= 31 -> Bit a i = ok (Z.b2z (Z.testbit a i)).
Proof.
  intros Hi. unfold Bit. destruct (Z.ltb_spec 31 i); [lia|]. f_equal.
  change 1 with (Z.ones 1). rewrite Z.land_ones by lia.
  change (2 ^ 1) with 2. rewrite <- Z.bit0_mod.
  rewrite Z.shiftr_spec by lia. done.
Qed.

Lemma Bit_high a i : 31 < i -> Bit a i = err ErrInvalidBitPosition.
Proof. intros Hi. unfold Bit. destruct (Z.ltb_spec 31 i); [done|lia]. Qed.

(** The number-level least common bit position. *)
Lemma NumberLCB_range a b :
  in_range a -> in_range b -> 0 <= NumberLeastCommonBitPosition a b <= 32.
Proof.
  intros Ha Hb. unfold NumberLeastCommonBitPosition.
  destruct (Z.eqb_spec a b); [lia|].
  assert (Hx : in_range (Z.lxor a b)).
  { apply in_range_intro.
    - apply Z.lxor_nonneg. unfold in_range in *. lia.
    - intros i Hi. rewrite Z.lxor_spec, !in_range_high by done. done. }
  assert (Z.lxor a b <> 0) by (by rewrite Z.lxor_eq_0_iff).
  pose proof (Z.log2_nonneg (Z.lxor a b)).
  assert (Z.log2 (Z.lxor a b) < 32).
  { apply Z.log2_lt_pow2; unfold in_range in *; lia. }
  lia.
Qed.

Lemma NumberLCB_agree a b :
  in_range a -> in_range b ->
  agree (32 - NumberLeastCommonBitPosition a b) a b.
Proof.
  intros Ha Hb i Hi. unfold NumberLeastCommonBitPosition in Hi.
  destruct (Z.eqb_spec a b) as [->|Hne]; [done|].
  assert (Hx : 0 <= Z.lxor a b).
  { apply Z.lxor_nonneg. unfold in_range in *. lia. }
  assert (Z.testbit (Z.lxor a b) i = false) as Hf.
  { apply Z.bits_above_log2; [done|lia]. }
  rewrite Z.lxor_spec in Hf. by apply xorb_eq.
Qed.

Lemma NumberLCB_differ a b :
  in_range a -> in_range b -> a <> b ->
  Z.testbit a (NumberLeastCommonBitPosition a b - 1) <>
  Z.testbit b (NumberLeastCommonBitPosition a b - 1).
Proof.
  intros Ha Hb Hne. unfold NumberLeastCommonBitPosition.
  destruct (Z.eqb_spec a b); [done|].
  replace (Z.log2 (Z.lxor a b) + 1 - 1) with (Z.log2 (Z.lxor a b)) by lia.
  assert (Hx : 0 < Z.lxor a b).
  { assert (0 <= Z.lxor a b).
    { apply Z.lxor_nonneg. unfold in_range in *. lia. }
    assert (Z.lxor a b <> 0) by (by rewrite Z.lxor_eq_0_iff). lia. }
  pose proof (Z.bit_log2 _ Hx) as Hb1. rewrite Z.lxor_spec in Hb1.
  intros Heq. rewrite Heq, xorb_nilpotent in Hb1. done.
Qed.

Lemma NumberLCB_le a b k :
  in_range a -> in_range b -> 0 <= k <= 32 -> agree k a b ->
  NumberLeastCommonBitPosition a b <= 32 - k.
Proof.
  intros Ha Hb Hk Hag.
  destruct (Z.eq_dec a b) as [->|Hne].
  - unfold NumberLeastCommonBitPosition. rewrite Z.eqb_refl. lia.
  - pose proof (NumberLCB_differ a b Ha Hb Hne) as Hd.
    destruct (Z_le_gt_dec (NumberLeastCommonBitPosition a b) (32 - k)); [done|].
    exfalso. apply Hd, Hag. lia.
Qed.

(** ** Unsigned arithmetic of bit positions *)

Lemma uint_small z : 0 <= z < 2 ^ 64 -> uint z = z.
Proof. intros Hz. unfold uint. by apply Z.mod_small. Qed.

Lemma uint_bound z : 0 <= uint z < 2 ^ 64.
Proof. unfold uint. apply Z.mod_pos_bound. done. Qed.

Lemma targetBitPosition_small t :
  node_ok t -> Ones (network t) <= 31 ->
  targetBitPosition t = 31 - Ones (network t).
Proof.
  intros (Hwf & Hs & _) Hk. unfold targetBitPosition. rewrite Hs.
  destruct Hwf as [Hr _]. apply uint_small. lia.
Qed.

Lemma targetBitPosition_full t :
  node_ok t -> Ones (network t) = 32 -> targetBitPosition t = 2 ^ 64 - 1.
Proof.
  intros (_ & Hs & _) Hk. unfold targetBitPosition. rewrite Hs, Hk. done.
Qed.

Lemma targetBitFromIP_small t a :
  node_ok t -> Ones (network t) <= 31 ->
  targetBitFromIP t a = ok (Z.b2z (Z.testbit a (31 - Ones (network t)))).
Proof.
  intros Hok Hk. unfold targetBitFromIP.
  rewrite targetBitPosition_small by done.
  destruct Hok as ((Hr & _) & _). apply Bit_testbit. lia.
Qed.

Lemma targetBitFromIP_full t a :
  node_ok t -> Ones (network t) = 32 ->
  targetBitFromIP t a = err ErrInvalidBitPosition.
Proof.
  intros Hok Hk. unfold targetBitFromIP.
  rewrite targetBitPosition_full by done. by apply Bit_high.
Qed.

Lemma slot_of_lt k a : (slot_of k a < 2)%nat.
Proof. unfold slot_of. destruct (Z.testbit a (31 - k)); simpl; lia. Qed.

Lemma slot_of_eq k a b :
  slot_of k a = slot_of k b -> Z.testbit a (31 - k) = Z.testbit b (31 - k).
Proof.
  unfold slot_of.
  destruct (Z.testbit a (31 - k)), (Z.testbit b (31 - k)); simpl; done || lia.
Qed.

Lemma slot_of_agree j k a b :
  agree j a b -> k < j -> slot_of k a = slot_of k b.
Proof. intros Hag Hk. unfold slot_of. rewrite (Hag (31 - k)) by lia. done. Qed.

(** ** The least common bit position of two networks *)

Lemma lcbZ_spec n m :
  wf_network n -> wf_network m ->
  0 <= lcbZ n m <= 32 /\ 32 - lcbZ n m <= Ones n /\ 32 - lcbZ n m <= Ones m /\
  agree (32 - lcbZ n m) (Number n) (Number m).
Proof.
  intros (Hn1 & Hn2 & _) (Hm1 & Hm2 & _). unfold lcbZ.
  pose proof (NumberLCB_range _ _ Hn2 Hm2) as Hr.
  pose proof (NumberLCB_agree _ _ Hn2 Hm2) as Ha.
  repeat split; try lia.
  eapply agree_mono; [|exact Ha]. lia.
Qed.

Lemma lcbZ_covers n m :
  wf_network n -> wf_network m -> covers m n -> lcbZ n m = 32 - Ones m.
Proof.
  intros (Hn1 & Hn2 & _) (Hm1 & Hm2 & _) [Hle Hag]. unfold lcbZ.
  pose proof (NumberLCB_le _ _ (Ones m) Hn2 Hm2 Hm1 Hag). lia.
Qed.

Lemma lcbZ_lt n m k :
  wf_network n -> wf_network m -> 0 <= k -> k < Ones n -> k < Ones m ->
  agree (k + 1) (Number n) (Number m) -> lcbZ n m < 32 - k.
Proof.
  intros (Hn1 & Hn2 & _) (Hm1 & Hm2 & _) Hk Hkn Hkm Hag. unfold lcbZ.
  assert (0 <= k + 1 <= 32) as Hk1 by lia.
  pose proof (NumberLCB_le _ _ (k + 1) Hn2 Hm2 Hk1 Hag). lia.
Qed.

Lemma split_cond_true ct lcb :
  node_ok ct -> 0 <= lcb <= 32 -> 32 - lcb <= Ones (network ct) ->
  (targetBitPosition ct <? uint (lcb - 1)) = true ->
  Ones (network ct) <= 31 /\ 32 - lcb < Ones (network ct).
Proof.
  intros Hok Hl Hle Hc. apply Z.ltb_lt in Hc.
  pose proof Hok as ((Hr & _) & _).
  destruct (Z.eq_dec (Ones (network ct)) 32) as [H32|Hne].
  - rewrite targetBitPosition_full in Hc by done.
    pose proof (uint_bound (lcb - 1)). lia.
  - rewrite targetBitPosition_small in Hc by (done || lia).
    rewrite uint_small in Hc by lia. lia.
Qed.

Lemma split_cond_false ct lcb :
  node_ok ct -> 0 <= lcb <= 32 -> 32 - lcb <= Ones (network ct) ->
  (targetBitPosition ct <? uint (lcb - 1)) = false ->
  Ones (network ct) = 32 \/ Ones (network ct) <= 32 - lcb.
Proof.
  intros Hok Hl Hle Hc. apply Z.ltb_ge in Hc.
  pose proof Hok as ((Hr & _) & _).
  destruct (Z.eq_dec (Ones (network ct)) 32) as [H32|Hne]; [by left|right].
  rewrite targetBitPosition_small in Hc by (done || lia).
  rewrite uint_small in Hc by lia. lia.
Qed.

Lemma extends_trans a b c : extends a b -> extends b c -> extends a c.
Proof.
  intros [H1 H2] [H3 H4]. split; [lia|].
  eapply agree_trans; [|exact H4]. eapply agree_mono; [|exact H2]. lia.
Qed.

Lemma extends_covers a b : extends a b -> covers b a.
Proof. intros [H1 H2]. split; [lia|done]. Qed.

(** A covered network that is not the node's own strictly extends it. *)
Lemma covers_extends p n :
  wf_network p -> wf_network n -> covers p n -> p <> n -> extends n p.
Proof.
  intros Hp Hn [Hle Hag] Hne. split; [|done].
  destruct (Z.eq_dec (Ones p) (Ones n)) as [Heq|]; [|lia].
  exfalso. apply Hne. apply wf_network_eq; [done..|]. by apply agree_sym.
Qed.

(** ** Running the primitive heap operations *)

Lemma run_bind {A B} (m : M A) (k : A -> M B) h h1 a :
  m h = (h1, Ret a) -> bind m k h = k a h1.
Proof. intros H. unfold bind. by rewrite H. Qed.

Lemma run_load h p t : h !! p = Some t -> load p h = (h, Ret t).
Proof. intros H. unfold load. by rewrite H. Qed.

Lemma run_index h p t bit c :
  h !! p = Some t -> children t !! Z.to_nat bit = Some c ->
  index p bit h = (h, Ret c).
Proof.
  intros Hp Hc. unfold index. rewrite (run_bind _ _ _ _ _ (run_load _ _ _ Hp)).
  by rewrite Hc.
Qed.

Lemma run_set_child h p t bit v :
  h !! p = Some t -> (Z.to_nat bit < length (children t))%nat ->
  set_child p bit v h =
  (<[p := with_children t (<[Z.to_nat bit := v]> (children t))]> h, Ret tt).
Proof.
  intros Hp Hlt. unfold set_child.
  rewrite (run_bind _ _ _ _ _ (run_load _ _ _ Hp)).
  destruct (decide _); done.
Qed.

Lemma run_set_parent h p t v :
  h !! p = Some t -> set_parent p v h = (<[p := with_parent t v]> h, Ret tt).
Proof.
  intros Hp. unfold set_parent.
  by rewrite (run_bind _ _ _ _ _ (run_load _ _ _ Hp)).
Qed.

Lemma run_set_numBitsSkipped h p t v :
  h !! p = Some t ->
  set_numBitsSkipped p v h = (<[p := with_numBitsSkipped t v]> h, Ret tt).
Proof.
  intros Hp. unfold set_numBitsSkipped.
  by rewrite (run_bind _ _ _ _ _ (run_load _ _ _ Hp)).
Qed.

Lemma run_set_network h p t v :
  h !! p = Some t ->
  set_network p v h = (<[p := with_network t v]> h, Ret tt).
Proof.
  intros Hp. unfold set_network.
  by rewrite (run_bind _ _ _ _ _ (run_load _ _ _ Hp)).
Qed.

Lemma run_set_hasEntry h p t v :
  h !! p = Some t ->
  set_hasEntry p v h = (<[p := with_hasEntry t v]> h, Ret tt).
Proof.
  intros Hp. unfold set_hasEntry.
  by rewrite (run_bind _ _ _ _ _ (run_load _ _ _ Hp)).
Qed.

(** ** Stability of the invariant under the elementary updates *)

Lemma stable_refl h : stable h h.
Proof. intros q t Hq. eauto. Qed.

Lemma stable_trans h1 h2 h3 : stable h1 h2 -> stable h2 h3 -> stable h1 h3.
Proof.
  intros H12 H23 q t Hq. destruct (H12 _ _ Hq) as (t2 & Hq2 & E2).
  destruct (H23 _ _ Hq2) as (t3 & Hq3 & E3). exists t3. split; [done|congruence].
Qed.

Lemma stable_insert h p t t' :
  h !! p = Some t -> network t' = network t -> stable h (<[p := t']> h).
Proof.
  intros Hp E q tq Hq. destruct (decide (p = q)) as [->|Hne].
  - exists t'. rewrite list_lookup_insert_eq by (by eapply lookup_lt_Some).
    split; [done|congruence].
  - exists tq. by rewrite list_lookup_insert_ne.
Qed.

Lemma stable_app h l : stable h (h ++ l).
Proof. intros q t Hq. exists t. split; [by apply lookup_app_l_Some|done]. Qed.

Lemma frame_refl k h : frame k h h.
Proof. by intros q t Hq _. Qed.

Lemma frame_trans k k' h1 h2 h3 :
  k <= k' -> frame k h1 h2 -> frame k' h2 h3 -> frame k h1 h3.
Proof. intros Hk H12 H23 q t Hq Hlt. apply H23; [by apply H12|lia]. Qed.

Lemma frame_insert k h p t t' :
  h !! p = Some t -> k <= Ones (network t) -> frame k h (<[p := t']> h).
Proof.
  intros Hp Hk q tq Hq Hlt. destruct (decide (p = q)) as [->|Hne].
  - assert (tq = t) as -> by congruence. lia.
  - by rewrite list_lookup_insert_ne.
Qed.

Lemma frame_app k h l : frame k h (h ++ l).
Proof. intros q t Hq _. by apply lookup_app_l_Some. Qed.

Lemma child_ok_stable h h' net b c :
  stable h h' -> child_ok h net b c -> child_ok h' net b c.
Proof.
  intros Hst (ct & Hc & He & Hs). destruct (Hst _ _ Hc) as (ct' & Hc' & E).
  exists ct'. by rewrite E.
Qed.

Lemma parent_ok_stable h h' net g :
  stable h h' -> parent_ok h net g -> parent_ok h' net g.
Proof.
  intros Hst (gt & Hg & He). destruct (Hst _ _ Hg) as (gt' & Hg' & E).
  exists gt'. by rewrite E.
Qed.

(** Overwriting a node by one with the same network, whose child slots and
    parent reference are justified in the old arena, keeps the invariant. *)
Lemma inv_store h p t t' :
  inv h -> h !! p = Some t ->
  network t' = network t -> numBitsSkipped t' = numBitsSkipped t ->
  length (children t') = 2%nat ->
  (forall b c, children t' !! b = Some (Some c) -> child_ok h (network t) b c) ->
  (forall g, parent t' = Some g -> parent_ok h (network t) g) ->
  inv (<[p := t']> h).
Proof.
  intros Hinv Hp En Es El Hch Hpa.
  pose proof (stable_insert h p t t' Hp En) as Hst.
  assert (forall q tq, <[p := t']> h !! q = Some tq ->
            (q = p /\ tq = t') \/ (q <> p /\ h !! q = Some tq)) as Hcases.
  { intros q tq Hq. destruct (decide (p = q)) as [->|Hne].
    - left. rewrite list_lookup_insert_eq in Hq by (by eapply lookup_lt_Some).
      split; congruence.
    - right. rewrite list_lookup_insert_ne in Hq by done. done. }
  split.
  - intros q tq Hq. destruct (Hcases _ _ Hq) as [[-> ->]|[_ Hq']].
    + destruct (inv_node _ Hinv _ _ Hp) as (H1 & H2 & H3).
      split; [by rewrite En|]. split; [by rewrite Es, En|done].
    + by eapply inv_node.
  - intros q tq b c Hq Hc. eapply child_ok_stable; [exact Hst|].
    destruct (Hcases _ _ Hq) as [[-> ->]|[_ Hq']].
    + rewrite En. by apply Hch.
    + by eapply inv_child.
  - intros q tq g Hq Hg. eapply parent_ok_stable; [exact Hst|].
    destruct (Hcases _ _ Hq) as [[-> ->]|[_ Hq']].
    + rewrite En. by apply Hpa.
    + by eapply inv_parent.
Qed.

(** Appending a fresh, unattached node keeps the invariant. *)
Lemma inv_snoc h t :
  inv h -> node_ok t ->
  (forall b c, children t !! b = Some (Some c) -> child_ok h (network t) b c) ->
  (forall g, parent t = Some g -> parent_ok h (network t) g) ->
  inv (h ++ [t]).
Proof.
  intros Hinv Hok Hch Hpa.
  pose proof (stable_app h [t]) as Hst.
  assert (forall q tq, (h ++ [t]) !! q = Some tq ->
            tq = t \/ h !! q = Some tq) as Hcases.
  { intros q tq Hq. destruct (decide (q < length h)%nat).
    - right. by rewrite lookup_app_l in Hq.
    - left. rewrite lookup_app_r in Hq by lia.
      destruct (q - length h)%nat; simpl in Hq; [congruence|done]. }
  split.
  - intros q tq Hq. destruct (Hcases _ _ Hq) as [->|Hq']; [done|].
    by eapply inv_node.
  - intros q tq b c Hq Hc. eapply child_ok_stable; [exact Hst|].
    destruct (Hcases _ _ Hq) as [->|Hq']; [by apply Hch|]. by eapply inv_child.
  - intros q tq g Hq Hg. eapply parent_ok_stable; [exact Hst|].
    destruct (Hcases _ _ Hq) as [->|Hq']; [by apply Hpa|]. by eapply inv_parent.
Qed.

(** ** Running [insertPrefix] and the constructors *)

Ltac step H := rewrite (run_bind _ _ _ _ _ H); cbv beta match.
Ltac estep tac := (erewrite run_bind; [ | tac ]); cbv beta match.

Lemma snoc_insert {A} (l : list A) x y : <[length l := x]> (l ++ [y]) = l ++ [x].
Proof.
  rewrite <- (Nat.add_0_r (length l)) at 1. by rewrite insert_app_r.
Qed.

Lemma snoc_lookup {A} (l : list A) x : (l ++ [x]) !! length l = Some x.
Proof. by rewrite list_lookup_middle. Qed.

Lemma run_newPathPrefixTrie n L h :
  0 <= L <= 32 ->
  newPathPrefixTrie n L h =
  (h ++ [mkPrefixTrie None [None; None] L 1 (Masked n L) false],
   Ret (ok (length h))).
Proof.
  intros HL. unfold newPathPrefixTrie.
  estep ltac:(reflexivity).
  estep ltac:(apply run_set_numBitsSkipped, snoc_lookup).
  estep ltac:(apply run_set_network; rewrite snoc_insert; apply snoc_lookup).
  unfold ret. rewrite !snoc_insert.
  replace (int L) with L; [done|].
  unfold int. destruct (Z.ltb_spec L (2 ^ 63)); lia.
Qed.

Lemma run_newEntryTrie n h :
  wf_network n ->
  newEntryTrie n h =
  (h ++ [mkPrefixTrie None [None; None] (Ones n) 1 n true],
   Ret (ok (length h))).
Proof.
  intros Hn. unfold newEntryTrie.
  rewrite uint_small by (destruct Hn; lia).
  step (run_newPathPrefixTrie n (Ones n) h (proj1 Hn)).
  rewrite Masked_id by done.
  estep ltac:(apply run_set_hasEntry, snoc_lookup).
  unfold ret. by rewrite snoc_insert.
Qed.

(** Attaching [prefix] into an empty slot of [p]. *)
Lemma run_insertPrefix_nil fuel h p t bits prefix pt :
  h !! p = Some t -> children t !! Z.to_nat bits = Some None ->
  h !! prefix = Some pt -> p <> prefix ->
  insertPrefix (S fuel) p bits prefix h =
  (<[prefix := with_parent pt (Some p)]>
     (<[p := with_children t (<[Z.to_nat bits := Some prefix]> (children t))]> h),
   Ret None).
Proof.
  intros Hp Hslot Hpre Hne. cbn [insertPrefix].
  step (run_index _ _ _ _ _ Hp Hslot).
  estep ltac:(reflexivity).
  estep ltac:(apply run_set_child; [done|by eapply lookup_lt_Some]).
  estep ltac:(apply run_set_parent; by rewrite list_lookup_insert_ne).
  done.
Qed.

(** Putting the fresh node [prefix] into a slot of [p] that holds [c]: the
    old child moves under [prefix], into the slot its address selects. *)
Lemma run_insertPrefix_some fuel h p t bits prefix pt c ct pb :
  h !! p = Some t -> children t !! Z.to_nat bits = Some (Some c) ->
  h !! prefix = Some pt -> h !! c = Some ct ->
  targetBitFromIP pt (Number (network ct)) = ok pb ->
  children pt !! Z.to_nat pb = Some None ->
  p <> prefix -> p <> c -> prefix <> c ->
  insertPrefix (S (S fuel)) p bits prefix h =
  (<[prefix := with_parent
       (with_children pt (<[Z.to_nat pb := Some c]> (children pt))) (Some p)]>
     (<[p := with_children t (<[Z.to_nat bits := Some prefix]> (children t))]>
       (<[c := with_parent ct (Some prefix)]>
         (<[prefix := with_children pt
                        (<[Z.to_nat pb := Some c]> (children pt))]> h))),
   Ret None).
Proof.
  intros Hp Hslot Hpre Hc Hbit Hpslot Hne1 Hne2 Hne3.
  cbn [insertPrefix].
  step (run_index _ _ _ _ _ Hp Hslot).
  estep ltac:(step (run_load _ _ _ Hpre); step (run_load _ _ _ Hc);
              rewrite Hbit;
              estep ltac:(by apply (run_insertPrefix_nil fuel h prefix pt pb c ct));
              reflexivity).
  estep ltac:(apply run_set_child;
              [by rewrite !list_lookup_insert_ne|by eapply lookup_lt_Some]).
  estep ltac:(apply run_set_parent;
              rewrite !list_lookup_insert_ne by done;
              apply list_lookup_insert_eq; by eapply lookup_lt_Some).
  done.
Qed.

(** ** The two structural updates of [insert] keep the invariant *)

Lemma lookup_two_slots (v : option ptr) pb b c :
  (pb < 2)%nat ->
  <[pb := v]> [None; None] !! b = Some (Some c) -> b = pb /\ v = Some c.
Proof.
  intros Hpb H. destruct pb as [|[|?]]; [| |lia];
    destruct b as [|[|?]]; simpl in H; try done; split; congruence.
Qed.

Lemma lookup_insert_slot (l : list (option ptr)) b v b' c :
  <[b := v]> l !! b' = Some (Some c) ->
  (b' = b /\ v = Some c) \/ l !! b' = Some (Some c).
Proof.
  intros H. destruct (decide (b = b')) as [->|Hne].
  - left. destruct (decide (b' < length l)%nat).
    + rewrite list_lookup_insert_eq in H by done. split; congruence.
    + rewrite list_insert_ge in H by lia.
      apply lookup_lt_Some in H. lia.
  - right. by rewrite list_lookup_insert_ne in H.
Qed.

Lemma attach_leaf_alt h p t n :
  h !! p = Some t ->
  attach_leaf h p t n =
  <[p := with_children t
           (<[slot_of (Ones (network t)) (Number n) := Some (length h)]>
              (children t))]> (h ++ [leafNode n p]).
Proof.
  intros Hp. unfold attach_leaf. rewrite insert_app_l; [done|].
  by eapply lookup_lt_Some.
Qed.

Lemma inv_attach_leaf h p t n :
  inv h -> h !! p = Some t -> wf_network n -> extends n (network t) ->
  inv (attach_leaf h p t n).
Proof.
  intros Hinv Hp Hn Hext. rewrite attach_leaf_alt by done.
  assert (inv (h ++ [leafNode n p])) as Hinv1.
  { apply inv_snoc; [done| | |].
    - split; [done|]. done.
    - intros b c Hc. simpl in Hc. destruct b as [|[|?]]; done.
    - intros g Hg. simpl in Hg. injection Hg as <-. by exists t. }
  eapply inv_store; [exact Hinv1|by apply lookup_app_l_Some|done|done| | |].
  - simpl. rewrite length_insert. by destruct (inv_node _ Hinv _ _ Hp) as (_&_&?).
  - intros b c Hc. simpl in Hc.
    destruct (lookup_insert_slot _ _ _ _ _ Hc) as [[-> Hv]|Hold].
    + injection Hv as <-. exists (leafNode n p).
      split; [apply snoc_lookup|]. done.
    + eapply inv_child; [exact Hinv1|by apply lookup_app_l_Some|done].
  - intros g Hg.
    eapply inv_parent; [exact Hinv1|by apply lookup_app_l_Some|done].
Qed.

Lemma split_heap_alt h p t c ct n L :
  h !! p = Some t -> h !! c = Some ct ->
  split_heap h p t c ct n L =
  <[p := with_children t
           (<[slot_of (Ones (network t)) (Number n) := Some (length h)]>
              (children t))]>
    (<[c := with_parent ct (Some (length h))]>
       (h ++ [pathNode n L p (slot_of L (Number (network ct))) c])).
Proof.
  intros Hp Hc. unfold split_heap.
  rewrite <- !insert_app_l; [done|by eapply lookup_lt_Some|].
  rewrite length_insert. by eapply lookup_lt_Some.
Qed.

Lemma inv_split_heap h p t c ct n L :
  inv h -> h !! p = Some t -> h !! c = Some ct -> wf_network n ->
  extends n (network t) ->
  Ones (network t) < L < Ones (network ct) -> L <= Ones n ->
  agree L (Number n) (Number (network ct)) ->
  inv (split_heap h p t c ct n L).
Proof.
  intros Hinv Hp Hc Hn Hext [HkL HLc] HLn Hag.
  rewrite split_heap_alt by done.
  pose proof (inv_node _ Hinv _ _ Hp) as (Hwt & Hst & Hlt).
  pose proof (inv_node _ Hinv _ _ Hc) as (Hwc & Hsc & Hlc).
  assert (0 <= L <= 32) as HL by (destruct Hwt, Hwc; lia).
  assert (in_range (Number n)) as Hnr by apply Hn.
  pose proof (Masked_agree n L Hnr HL) as Hma.
  assert (p <> c) as Hpc.
  { intros ->. assert (t = ct) as -> by congruence. lia. }
  assert (extends (network ct) (Masked n L)) as Hext_c.
  { split; [simpl; lia|]. simpl Ones.
    eapply agree_trans; [apply agree_sym, Hag|by apply agree_sym]. }
  assert (extends (Masked n L) (network t)) as Hext_P.
  { split; [simpl; lia|].
    eapply agree_trans; [|apply Hext].
    eapply agree_mono; [|exact Hma]. lia. }
  set (P := pathNode n L p (slot_of L (Number (network ct))) c).
  assert (inv (h ++ [P])) as Hinv1.
  { apply inv_snoc; [done| | |].
    - split; [by apply Masked_wf|]. split; [done|].
      simpl. by rewrite length_insert.
    - intros b c' Hc'. simpl in Hc'.
      apply lookup_two_slots in Hc' as [-> Hv]; [|apply slot_of_lt].
      injection Hv as <-. by exists ct.
    - intros g Hg. simpl in Hg. injection Hg as <-. by exists t. }
  assert (inv (<[c := with_parent ct (Some (length h))]> (h ++ [P]))) as Hinv2.
  { eapply inv_store; [exact Hinv1|by apply lookup_app_l_Some|done..| |].
    - intros b c' Hc'.
      eapply inv_child; [exact Hinv1|by apply lookup_app_l_Some|done].
    - intros g Hg. simpl in Hg. injection Hg as <-.
      exists P. split; [apply snoc_lookup|done]. }
  assert (length h <> c) as Hec.
  { apply lookup_lt_Some in Hc. lia. }
  eapply (inv_store _ p t); [exact Hinv2| |done|done| | |].
  - rewrite list_lookup_insert_ne by done. by apply lookup_app_l_Some.
  - simpl. by rewrite length_insert.
  - intros b c' Hc'. simpl in Hc'.
    destruct (lookup_insert_slot _ _ _ _ _ Hc') as [[-> Hv]|Hold].
    + injection Hv as <-. exists P. split.
      * rewrite list_lookup_insert_ne by done. apply snoc_lookup.
      * split; [done|]. simpl. eapply slot_of_agree; [exact Hma|lia].
    + eapply (inv_child _ Hinv2 p t); [|done].
      rewrite list_lookup_insert_ne by done. by apply lookup_app_l_Some.
  - intros g Hg. eapply (inv_parent _ Hinv2 p t); [|done].
    rewrite list_lookup_insert_ne by done. by apply lookup_app_l_Some.
Qed.

Lemma stable_attach_leaf h p t n :
  h !! p = Some t -> stable h (attach_leaf h p t n).
Proof.
  intros Hp. unfold attach_leaf.
  eapply stable_trans; [|apply stable_app]. by eapply stable_insert.
Qed.

Lemma frame_attach_leaf h p t n :
  h !! p = Some t -> frame (Ones (network t)) h (attach_leaf h p t n).
Proof.
  intros Hp. unfold attach_leaf.
  eapply frame_trans; [reflexivity| |apply frame_app].
  eapply frame_insert; [done|lia].
Qed.

Lemma stable_split_heap h p t c ct n L :
  h !! p = Some t -> h !! c = Some ct -> p <> c ->
  stable h (split_heap h p t c ct n L).
Proof.
  intros Hp Hc Hpc. unfold split_heap.
  eapply stable_trans; [|apply stable_app].
  eapply stable_trans;
    [by eapply (stable_insert h c ct (with_parent ct (Some (length h))))|].
  eapply stable_insert; [by rewrite list_lookup_insert_ne|done].
Qed.

Lemma frame_split_heap h p t c ct n L :
  h !! p = Some t -> h !! c = Some ct -> p <> c ->
  Ones (network t) < Ones (network ct) ->
  frame (Ones (network t)) h (split_heap h p t c ct n L).
Proof.
  intros Hp Hc Hpc Hlt. unfold split_heap.
  eapply frame_trans; [reflexivity| |apply frame_app].
  eapply frame_trans;
    [reflexivity
    |eapply (frame_insert _ h c ct (with_parent ct (Some (length h))));
       [done|lia]|].
  eapply frame_insert; [by rewrite list_lookup_insert_ne|lia].
Qed.

(** ** One call of [insert], case by case *)

Lemma run_bind_out_of_fuel {A B} (m : M A) (k : A -> M B) h h1 :
  m h = (h1, OutOfFuel) -> bind m k h = (h1, OutOfFuel).
Proof. intros H. unfold bind. by rewrite H. Qed.

Lemma run_insertPrefix_short h p t bits prefix pt c ct pb :
  h !! p = Some t -> children t !! Z.to_nat bits = Some (Some c) ->
  h !! prefix = Some pt -> h !! c = Some ct ->
  targetBitFromIP pt (Number (network ct)) = ok pb ->
  insertPrefix 1 p bits prefix h = (h, OutOfFuel).
Proof.
  intros Hp Hslot Hpre Hc Hbit. cbn [insertPrefix].
  step (run_index _ _ _ _ _ Hp Hslot).
  apply run_bind_out_of_fuel.
  step (run_load _ _ _ Hpre). step (run_load _ _ _ Hc). rewrite Hbit.
  by apply run_bind_out_of_fuel.
Qed.

Lemma insert_viewP fuel h p t n :
  inv h -> wf_network n -> h !! p = Some t -> pre (network t) n ->
  insert_view fuel h p t n (insert (S fuel) p n h).
Proof.
  intros Hinv Hn Hp Hpre.
  pose proof (inv_node _ Hinv _ _ Hp) as Hok.
  pose proof Hok as (Hwf & Hs & Hlen).
  cbn [insert]. step (run_load _ _ _ Hp).
  destruct (Equal (network t) n) eqn:E.
  { apply Equal_true in E. step (run_set_hasEntry _ _ _ true Hp).
    by apply IV_equal. }
  assert (network t <> n) as Hne.
  { intros Heq. apply Equal_true in Heq. congruence. }
  destruct (Z.eq_dec (Ones (network t)) 32) as [H32|H32].
  { rewrite targetBitFromIP_full by done. by apply IV_full. }
  assert (Ones (network t) <= 31) as H31 by (destruct Hwf; lia).
  rewrite targetBitFromIP_small by done.
  destruct Hpre as [?|Hcov]; [done|].
  pose proof (covers_extends _ _ Hwf Hn Hcov Hne) as Hext.
  destruct (lookup_lt_is_Some_2 (children t)
              (slot_of (Ones (network t)) (Number n))) as [slot Hslot].
  { rewrite Hlen. apply slot_of_lt. }
  step (run_index _ _ _ _ _ Hp Hslot).
  destruct slot as [c|].
  - (* the slot is occupied *)
    destruct (inv_child _ Hinv _ _ _ _ Hp Hslot) as (ct & Hc & Hcext & Hcs).
    step (run_load _ _ _ Hc).
    change (LeastCommonBitPosition n (network ct))
      with (ok (lcbZ n (network ct))). cbv beta match.
    pose proof (inv_node _ Hinv _ _ Hc) as Hcok.
    pose proof Hcok as (Hcwf & Hcsk & Hclen).
    destruct (lcbZ_spec n (network ct) Hn Hcwf) as (Hl1 & Hl2 & Hl3 & Hl4).
    destruct (targetBitPosition ct <? uint (lcbZ n (network ct) - 1)) eqn:Hcond.
    + (* a branch node is put in between *)
      destruct (split_cond_true ct _ Hcok Hl1 Hl3 Hcond) as [Hc31 HLc].
      assert (lcbZ n (network ct) < 32 - Ones (network t)) as HkL.
      { destruct Hwf as [? _], Hext as [? Hagn], Hcext as [? Hagc].
        apply lcbZ_lt; [done|done|lia|lia|lia|].
        apply agree_step.
        - eapply agree_trans; [exact Hagn|by apply agree_sym].
        - apply slot_of_eq. by rewrite Hcs. }
      rewrite uint_small by lia.
      assert (0 <= 32 - lcbZ n (network ct) <= 32) as HLr by lia.
      step (run_newPathPrefixTrie n (32 - lcbZ n (network ct)) h HLr).
      destruct fuel as [|[|fuel]].
      * cbn [insertPrefix]. eapply IV_split_fuel; eauto; lia.
      * erewrite run_bind_out_of_fuel.
        { eapply IV_split_fuel; eauto; lia. }
        eapply (run_insertPrefix_short _ p t _ (length h) _ c ct).
        -- by apply lookup_app_l_Some.
        -- exact Hslot.
        -- apply snoc_lookup.
        -- by apply lookup_app_l_Some.
        -- apply targetBitFromIP_small.
           ++ split; [apply Masked_wf; [apply Hn|lia]|done].
           ++ simpl. lia.
      * assert (p <> c) as Hpc.
        { intros ->. assert (t = ct) as -> by congruence.
          destruct Hcext. lia. }
        pose proof (lookup_lt_Some _ _ _ Hp) as Hplt.
        pose proof (lookup_lt_Some _ _ _ Hc) as Hclt.
        erewrite run_bind.
        2:{ eapply (run_insertPrefix_some fuel _ p t _ (length h) _ c ct).
            - by apply lookup_app_l_Some.
            - exact Hslot.
            - apply snoc_lookup.
            - by apply lookup_app_l_Some.
            - apply targetBitFromIP_small.
              + split; [apply Masked_wf; [apply Hn|lia]|done].
              + simpl. lia.
            - simpl. pose proof (slot_of_lt (32 - lcbZ n (network ct))
                                   (Number (network ct))) as Hlt.
              unfold slot_of in Hlt. simpl in Hlt.
              destruct (Z.to_nat _) as [|[|?]]; [done|done|lia].
            - lia.
            - done.
            - lia. }
        cbv beta match.
        replace (<[length h := _]> _) with
          (split_heap h p t c ct n (32 - lcbZ n (network ct))).
        { eapply IV_split; eauto; lia. }
        rewrite split_heap_alt by done. simpl Ones.
        rewrite (list_insert_insert_ne _ (length h) p) by lia.
        rewrite (list_insert_insert_ne _ (length h) c) by lia.
        rewrite list_insert_insert_eq, snoc_insert. done.
    + (* descend into the child *)
      destruct (split_cond_false ct _ Hcok Hl1 Hl3 Hcond) as [H|H].
      * eapply IV_descend; eauto. by left.
      * eapply IV_descend; eauto. right. split; [lia|].
        eapply agree_mono; [|exact Hl4]. lia.
  - (* the slot is empty: a leaf is attached *)
    step (run_newEntryTrie n h Hn).
    destruct fuel as [|fuel].
    + cbn [insertPrefix]. by eapply IV_leaf_fuel.
    + pose proof (lookup_lt_Some _ _ _ Hp) as Hplt.
      erewrite (run_insertPrefix_nil fuel _ p t _ (length h));
        [|by apply lookup_app_l_Some|exact Hslot|apply snoc_lookup|lia].
      replace (<[length h := _]> _) with (attach_leaf h p t n).
      { eapply IV_leaf; eauto. lia. }
      unfold attach_leaf. rewrite insert_app_l by done.
      rewrite <- (length_insert h p
        (with_children t
           (<[slot_of (Ones (network t)) (Number n) := Some (length h)]>
              (children t)))) at 2.
      by rewrite snoc_insert.
Qed.

(** ** What [insert] guarantees *)

Lemma frame_mono k k' h h' : k <= k' -> frame k' h h' -> frame k h h'.
Proof. intros Hk H q t Hq Hlt. apply H; [done|lia]. Qed.

Lemma split_heap_lookup_new h p t c ct n L :
  split_heap h p t c ct n L !! length h =
  Some (pathNode n L p (slot_of L (Number (network ct))) c).
Proof.
  unfold split_heap. rewrite lookup_app_r by (rewrite !length_insert; lia).
  by rewrite !length_insert, Nat.sub_diag.
Qed.

Lemma split_heap_lookup_p h p t c ct n L :
  h !! p = Some t -> h !! c = Some ct ->
  split_heap h p t c ct n L !! p =
  Some (with_children t
          (<[slot_of (Ones (network t)) (Number n) := Some (length h)]>
             (children t))).
Proof.
  intros Hp Hc. unfold split_heap. apply lookup_app_l_Some.
  apply list_lookup_insert_eq. rewrite length_insert. by eapply lookup_lt_Some.
Qed.

Lemma attach_leaf_lookup_new h p t n :
  attach_leaf h p t n !! length h = Some (leafNode n p).
Proof.
  unfold attach_leaf. rewrite lookup_app_r by (rewrite !length_insert; lia).
  by rewrite !length_insert, Nat.sub_diag.
Qed.

Lemma attach_leaf_lookup_p h p t n :
  h !! p = Some t ->
  attach_leaf h p t n !! p =
  Some (with_children t
          (<[slot_of (Ones (network t)) (Number n) := Some (length h)]>
             (children t))).
Proof.
  intros Hp. unfold attach_leaf. apply lookup_app_l_Some.
  apply list_lookup_insert_eq. by eapply lookup_lt_Some.
Qed.

(** Below the branch node, the inserted network and the old child select
    different slots. *)
Lemma split_slot_free n m :
  wf_network n -> wf_network m ->
  32 - lcbZ n m < Ones n -> 32 - lcbZ n m < Ones m ->
  slot_of (32 - lcbZ n m) (Number n) <> slot_of (32 - lcbZ n m) (Number m).
Proof.
  intros Hn Hm HLn HLm Heq.
  destruct (lcbZ_spec n m Hn Hm) as (Hl1 & _ & _ & Hag).
  assert (lcbZ n m < 32 - (32 - lcbZ n m)); [|lia].
  apply lcbZ_lt; [done|done|lia|done|done|].
  apply agree_step; [done|]. by apply slot_of_eq.
Qed.

Lemma pathNode_slot_free n L p pb c b :
  b <> pb -> (b < 2)%nat ->
  children (pathNode n L p pb c) !! b = Some None.
Proof.
  intros Hne Hb. simpl. rewrite list_lookup_insert_ne by done.
  destruct b as [|[|?]]; [done|done|lia].
Qed.

Lemma covers_Masked n L :
  wf_network n -> 0 <= L <= Ones n -> covers (Masked n L) n.
Proof.
  intros Hn HL. split; [simpl; lia|]. simpl Ones.
  apply agree_sym, Masked_agree; [apply Hn|destruct Hn; lia].
Qed.

(** After a branch node was put in, the rest of the insertion succeeds. *)
Lemma insert_after_split fuel h p t c ct n h' e :
  inv h -> wf_network n -> h !! p = Some t -> h !! c = Some ct ->
  extends n (network t) ->
  Ones (network t) < 32 - lcbZ n (network ct) < Ones (network ct) ->
  32 - lcbZ n (network ct) <= Ones n ->
  agree (32 - lcbZ n (network ct)) (Number n) (Number (network ct)) ->
  insert fuel (length h) n
    (split_heap h p t c ct n (32 - lcbZ n (network ct))) = (h', Ret e) ->
  e = None.
Proof.
  intros Hinv Hn Hp Hc Hext HL HLn Hag Hrun.
  destruct fuel as [|fuel]; [done|].
  pose proof (inv_node _ Hinv _ _ Hp) as (Hwt & _).
  pose proof (inv_node _ Hinv _ _ Hc) as (Hwc & _).
  set (L := 32 - lcbZ n (network ct)) in *.
  assert (0 <= L <= Ones n) as HL' by (destruct Hwt; lia).
  pose proof (inv_split_heap h p t c ct n L Hinv Hp Hc Hn Hext HL HLn Hag)
    as Hinv2.
  pose proof (insert_viewP fuel _ _ _ n Hinv2 Hn
                (split_heap_lookup_new h p t c ct n L)
                (or_intror (covers_Masked n L Hn HL'))) as V.
  rewrite Hrun in V.
  assert (forall c', L < Ones n ->
            children (pathNode n L p (slot_of L (Number (network ct))) c)
              !! slot_of L (Number n) = Some (Some c') -> False)
    as Hfree.
  { intros c' HLlt Hc'.
    rewrite pathNode_slot_free in Hc'; [done| |apply slot_of_lt].
    apply split_slot_free; unfold L in *; try done; lia. }
  inversion V as [Heq|Hne H32|hx Hx1 Hx2 Hx3|Hx1 Hx2 Hx3
                 |c' ct' Hx1 Hx2|hx c' ct' Hx1 Hx2|c' ct' Hx1 Hx2]; subst.
  - done.
  - simpl in H32. destruct Hwc as [? _]. lia.
  - done.
  - destruct Hx1 as [Hx1 _]. by apply Hfree in Hx2.
  - destruct Hx1 as [Hx1 _]. by apply Hfree in Hx2.
Qed.

(** [insert] on a node of a well-formed arena never panics, needs no more
    recursion than the bits that remain, keeps the invariant, touches no
    node above the one it was called on, and leaves the arena as it was
    when it reports an error. *)
Lemma insert_spec fuel :
  forall h p t n h' r,
    inv h -> wf_network n -> h !! p = Some t -> pre (network t) n ->
    insert fuel p n h = (h', r) ->
    r <> Panic /\
    (r = OutOfFuel -> Z.of_nat fuel + Ones (network t) < 33) /\
    (forall e, r = Ret e ->
       inv h' /\ stable h h' /\ frame (Ones (network t)) h h' /\
       (e <> None -> h' = h)).
Proof.
  induction fuel as [|fuel IH]; intros h p t n h' r Hinv Hn Hp Hpre Hrun.
  { injection Hrun as <- <-.
    pose proof (inv_node _ Hinv _ _ Hp) as ((? & _) & _).
    split; [done|]. split; [lia|done]. }
  pose proof (inv_node _ Hinv _ _ Hp) as (Hwt & Hst & Hlt).
  pose proof (insert_viewP fuel h p t n Hinv Hn Hp Hpre) as V.
  rewrite Hrun in V.
  inversion V as [Heq|Hne H32|hx Hx1 Hx2 Hx3|Hx1 Hx2 Hx3
                 |c ct Hx1 Hx2 Hx3 Hx4 Hx5 Hx6
                 |hx c ct Hx1 Hx2 Hx3 Hx4 Hx5 Hx6
                 |c ct Hx1 Hx2 Hx3 Hx4 Hx5 Hx6 Hx7 Hx8 Hx9]; subst.
  - (* the node is the network: the flag is set *)
    split; [done|]. split; [done|]. intros e [= <-].
    split; [|split; [|split]]; [| | |done].
    + eapply inv_store; [done..| |].
      * intros b c Hc. by eapply inv_child.
      * intros g Hg. by eapply inv_parent.
    + by eapply stable_insert.
    + eapply frame_insert; [done|lia].
  - (* a full-length node that is not the network *)
    split; [done|]. split; [done|]. intros e [= <-].
    split; [done|]. split; [apply stable_refl|]. split; [apply frame_refl|done].
  - split; [done|]. split; [|done]. intros _.
    destruct Hx1 as [? _], Hn as [? _]. lia.
  - split; [done|]. split; [done|]. intros e [= <-].
    split; [by apply inv_attach_leaf|].
    split; [by apply stable_attach_leaf|].
    split; [by apply frame_attach_leaf|done].
  - (* descent *)
    destruct (IH h c ct n h' r Hinv Hn Hx3 Hx5 Hx6)
      as (HP & HF & HR).
    split; [done|]. split.
    + intros Hr. specialize (HF Hr). destruct Hx4. lia.
    + intros e He. destruct (HR e He) as (H1 & H2 & H3 & H4).
      split; [done|]. split; [done|]. split; [|done].
      eapply frame_mono; [|exact H3]. destruct Hx4. lia.
  - split; [done|]. split; [|done]. intros _.
    pose proof (inv_node _ Hinv _ _ Hx3) as ((? & _) & _). lia.
  - (* a branch node is put in, then the insertion continues below it *)
    pose proof (inv_node _ Hinv _ _ Hx3) as (Hwc & _).
    set (L := 32 - lcbZ n (network ct)) in *.
    assert (0 <= L <= Ones n) as HL' by (destruct Hwt; lia).
    assert (p <> c) as Hpc.
    { intros ->. assert (t = ct) as -> by congruence. lia. }
    pose proof (inv_split_heap h p t c ct n L Hinv Hp Hx3 Hn Hx1 Hx4 Hx6 Hx7)
      as Hinv2.
    destruct (IH _ _ _ n h' r Hinv2 Hn
                (split_heap_lookup_new h p t c ct n L)
                (or_intror (covers_Masked n L Hn HL')) Hx9)
      as (HP & HF & HR).
    split; [done|]. split.
    + intros Hr. specialize (HF Hr). simpl in HF. clearbody L. lia.
    + intros e He. destruct (HR e He) as (H1 & H2 & H3 & H4).
      split; [done|]. split; [|split].
      * eapply stable_trans; [|exact H2]. by apply stable_split_heap.
      * eapply (frame_trans _ L); [| |exact H3].
        -- clearbody L. lia.
        -- apply frame_split_heap; [done|done|done|]. clearbody L. lia.
      * intros Hne. exfalso. apply Hne. subst r.
        by eapply (insert_after_split fuel h p t c ct n h' e).
Qed.

(** ** One call of [remove], case by case *)

Lemma run_bind_panic {A B} (m : M A) (k : A -> M B) h h1 :
  m h = (h1, Panic) -> bind m k h = (h1, Panic).
Proof. intros H. unfold bind. by rewrite H. Qed.

Lemma firstChild_Some t q :
  firstChild t = Some q -> exists b, children t !! b = Some (Some q).
Proof.
  unfold firstChild. intros H.
  destruct (filter _ (children t)) as [|c l] eqn:Hf; [done|]. subst c.
  apply list_elem_of_lookup_1.
  assert (Some q ∈ filter (fun c : option ptr => is_Some c) (children t))
    as Hin by (rewrite Hf; left).
  by apply list_elem_of_filter in Hin as [_ ?].
Qed.

Lemma remove_viewP fuel h p t n :
  inv h -> h !! p = Some t ->
  remove_view fuel h p t n (remove (S fuel) p n h).
Proof.
  intros Hinv Hp.
  pose proof (inv_node _ Hinv _ _ Hp) as Hok.
  pose proof Hok as (Hwf & Hs & Hlen).
  cbn [remove]. step (run_load _ _ _ Hp).
  destruct (hasEntry t && Equal (network t) n) eqn:E.
  - apply andb_true_iff in E as [He Hq]. apply Equal_true in Hq.
    destruct (1 <? childrenCount t) eqn:Hcnt.
    + step (run_set_hasEntry _ _ _ false Hp).
      apply RV_flag; [done|done|by apply Z.ltb_lt].
    + apply Z.ltb_ge in Hcnt. destruct (parent t) as [g|] eqn:Hg.
      * destruct (inv_parent _ Hinv _ _ _ Hp Hg) as (gt & Hgt & Hext).
        pose proof (inv_node _ Hinv _ _ Hgt) as Hgok.
        pose proof Hgok as (Hgwf & Hgs & Hglen).
        estep ltac:(reflexivity). step (run_load _ _ _ Hgt).
        rewrite targetBitFromIP_small;
          [|done|destruct Hext, Hwf as [? _]; lia].
        estep ltac:(apply run_set_child;
                    [done|rewrite Hglen; apply slot_of_lt]).
        by eapply RV_splice.
      * erewrite run_bind_panic; [|reflexivity]. by apply RV_root.
  - destruct (Z.eq_dec (Ones (network t)) 32) as [H32|H32].
    { rewrite targetBitFromIP_full by done. by apply RV_full. }
    rewrite targetBitFromIP_small by (done || destruct Hwf; lia).
    destruct (lookup_lt_is_Some_2 (children t)
                (slot_of (Ones (network t)) (Number n))) as [slot Hslot].
    { rewrite Hlen. apply slot_of_lt. }
    step (run_index _ _ _ _ _ Hp Hslot).
    destruct slot as [c|].
    + destruct (inv_child _ Hinv _ _ _ _ Hp Hslot) as (ct & Hc & Hcext & _).
      by eapply RV_descend.
    + by apply RV_none.
Qed.

(** [remove] on a node of a well-formed arena needs no more recursion than
    the bits that remain and keeps the invariant whenever it returns. *)
Lemma remove_spec fuel :
  forall h p t n h' r,
    inv h -> h !! p = Some t -> remove fuel p n h = (h', r) ->
    (r = OutOfFuel -> Z.of_nat fuel + Ones (network t) < 33) /\
    (forall x, r = Ret x -> inv h' /\ stable h h' /\ length h' = length h).
Proof.
  induction fuel as [|fuel IH]; intros h p t n h' r Hinv Hp Hrun.
  { injection Hrun as <- <-.
    pose proof (inv_node _ Hinv _ _ Hp) as ((? & _) & _).
    split; [lia|done]. }
  pose proof (inv_node _ Hinv _ _ Hp) as (Hwt & Hst & Hlt).
  pose proof (remove_viewP fuel h p t n Hinv Hp) as V.
  rewrite Hrun in V.
  inversion V as [Hx1 Hx2 Hx3|Hx1 Hx2 Hx3 Hx4|g gt Hx1 Hx2 Hx3 Hx4 Hx5 Hx6
                 |Hx1 Hx2|c ct Hx1 Hx2 Hx3 Hx4 Hx5|Hx1 Hx2]; subst.
  - split; [done|]. intros x _. split; [|split].
    + eapply inv_store; [done..| |].
      * intros b c Hc. by eapply inv_child.
      * intros g Hg. by eapply inv_parent.
    + by eapply stable_insert.
    + apply length_insert.
  - split; done.
  - (* the node is spliced out of its parent's slot *)
    split; [done|]. intros x _.
    pose proof (inv_node _ Hinv _ _ Hx5) as (Hwg & Hsg & Hlg).
    split; [|split].
    + eapply inv_store; [done..| | |].
      * simpl. by rewrite length_insert.
      * intros b c Hc. simpl in Hc.
        destruct (lookup_insert_slot _ _ _ _ _ Hc) as [[-> Hv]|Hold].
        -- destruct (firstChild_Some _ _ Hv) as (b' & Hb').
           destruct (inv_child _ Hinv _ _ _ _ Hp Hb') as (qt & Hq & Hqe & _).
           exists qt. split; [done|]. split.
           ++ by eapply extends_trans.
           ++ destruct Hqe as [_ Hag], Hx6 as [Hlt' _].
              by eapply slot_of_agree.
        -- by eapply inv_child.
      * intros g' Hg'. by eapply inv_parent.
    + by eapply stable_insert.
    + apply length_insert.
  - split; [done|]. intros x _.
    split; [done|]. split; [apply stable_refl|done].
  - destruct (IH h c ct n h' r Hinv Hx3 Hx5) as [HF HR].
    split; [|done]. intros Hr. specialize (HF Hr). destruct Hx4. lia.
  - split; [done|]. intros x _.
    split; [done|]. split; [apply stable_refl|done].
Qed.

(** ** The queries read only, and descend one node per bit at most *)

Lemma contains_spec fuel :
  forall h p t a,
    inv h -> h !! p = Some t ->
    fst (contains fuel p a h) = h /\
    snd (contains fuel p a h) <> Panic /\
    (snd (contains fuel p a h) = OutOfFuel ->
     Z.of_nat fuel + Ones (network t) < 33).
Proof.
  induction fuel as [|fuel IH]; intros h p t a Hinv Hp;
    pose proof (inv_node _ Hinv _ _ Hp) as Hok;
    pose proof Hok as (Hwf & Hs & Hlen).
  { simpl. destruct Hwf as [? _]. split; [done|]. split; [done|lia]. }
  cbn [contains]. step (run_load _ _ _ Hp).
  destruct (negb _); [done|]. destruct (hasEntry t); [done|].
  destruct (Z.eq_dec (Ones (network t)) 32) as [H32|H32].
  { by rewrite targetBitFromIP_full. }
  rewrite targetBitFromIP_small by (done || destruct Hwf; lia).
  destruct (lookup_lt_is_Some_2 (children t)
              (slot_of (Ones (network t)) a)) as [slot Hslot].
  { rewrite Hlen. apply slot_of_lt. }
  step (run_index _ _ _ _ _ Hp Hslot).
  destruct slot as [c|]; [|done].
  destruct (inv_child _ Hinv _ _ _ _ Hp Hslot) as (ct & Hc & [Hlt _] & _).
  destruct (IH h c ct a Hinv Hc) as (H1 & H2 & H3).
  split; [done|]. split; [done|]. intros Ho. specialize (H3 Ho). lia.
Qed.

Lemma containingNetworks_spec fuel :
  forall h p t a,
    inv h -> h !! p = Some t ->
    fst (containingNetworks fuel p a h) = h /\
    snd (containingNetworks fuel p a h) <> Panic /\
    (snd (containingNetworks fuel p a h) = OutOfFuel ->
     Z.of_nat fuel + Ones (network t) < 33).
Proof.
  induction fuel as [|fuel IH]; intros h p t a Hinv Hp;
    pose proof (inv_node _ Hinv _ _ Hp) as Hok;
    pose proof Hok as (Hwf & Hs & Hlen).
  { simpl. destruct Hwf as [? _]. split; [done|]. split; [done|lia]. }
  cbn [containingNetworks]. step (run_load _ _ _ Hp).
  destruct (negb _); [done|].
  destruct (Z.eq_dec (Ones (network t)) 32) as [H32|H32].
  { by rewrite targetBitFromIP_full. }
  rewrite targetBitFromIP_small by (done || destruct Hwf; lia).
  destruct (lookup_lt_is_Some_2 (children t)
              (slot_of (Ones (network t)) a)) as [slot Hslot].
  { rewrite Hlen. apply slot_of_lt. }
  step (run_index _ _ _ _ _ Hp Hslot).
  destruct slot as [c|]; [|done].
  destruct (inv_child _ Hinv _ _ _ _ Hp Hslot) as (ct & Hc & [Hlt _] & _).
  destruct (IH h c ct a Hinv Hc) as (H1 & H2 & H3).
  unfold bind.
  destruct (containingNetworks fuel c a h) as [h1 [[ranges|e]| |]];
    simpl in *; subst.
  - done.
  - done.
  - done.
  - split; [done|]. split; [done|]. intros _. specialize (H3 eq_refl). lia.
Qed.

(** ** More fuel never changes a result *)

Lemma fuel_le_refl {A} (m : M A) : fuel_le m m.
Proof. by intros h h' r H _. Qed.

Lemma fuel_le_out_of_fuel {A} (m : M A) : fuel_le out_of_fuel m.
Proof. intros h h' r [= <- <-] Hr. done. Qed.

Lemma fuel_le_bind {A B} (m m' : M A) (k k' : A -> M B) :
  fuel_le m m' -> (forall a, fuel_le (k a) (k' a)) ->
  fuel_le (bind m k) (bind m' k').
Proof.
  intros Hm Hk h h' r Hrun Hr. unfold bind in *.
  destruct (m h) as [h1 [a| |]] eqn:E.
  - rewrite (Hm _ _ _ E) by done. by apply Hk.
  - rewrite (Hm _ _ _ E) by done. done.
  - injection Hrun as <- <-. done.
Qed.

Lemma insertPrefix_fuel_S fuel :
  forall p bits prefix,
    fuel_le (insertPrefix fuel p bits prefix)
            (insertPrefix (S fuel) p bits prefix).
Proof.
  induction fuel as [|fuel IH]; intros p bits prefix.
  { apply fuel_le_out_of_fuel. }
  cbn [insertPrefix]. apply fuel_le_bind; [apply fuel_le_refl|].
  intros child. apply fuel_le_bind; [|intros; apply fuel_le_refl].
  destruct child as [c|]; [|apply fuel_le_refl].
  apply fuel_le_bind; [apply fuel_le_refl|]. intros pre0.
  apply fuel_le_bind; [apply fuel_le_refl|]. intros cn.
  destruct (targetBitFromIP _ _); [|apply fuel_le_refl].
  apply fuel_le_bind; [apply IH|intros; apply fuel_le_refl].
Qed.

Lemma insert_fuel_S fuel :
  forall p n, fuel_le (insert fuel p n) (insert (S fuel) p n).
Proof.
  induction fuel as [|fuel IH]; intros p n.
  { apply fuel_le_out_of_fuel. }
  cbn [insert]. apply fuel_le_bind; [apply fuel_le_refl|]. intros t.
  destruct (Equal _ _); [apply fuel_le_refl|].
  destruct (targetBitFromIP _ _); [|apply fuel_le_refl].
  apply fuel_le_bind; [apply fuel_le_refl|]. intros child.
  destruct child as [c|].
  - apply fuel_le_bind; [apply fuel_le_refl|]. intros cn.
    destruct (LeastCommonBitPosition _ _); [|apply fuel_le_refl].
    destruct (_ <? _); [|apply IH].
    apply fuel_le_bind; [apply fuel_le_refl|]. intros r.
    destruct r; [|apply fuel_le_refl].
    apply fuel_le_bind; [apply insertPrefix_fuel_S|]. intros e.
    destruct e; [apply fuel_le_refl|apply IH].
  - apply fuel_le_bind; [apply fuel_le_refl|]. intros r.
    destruct r; [|apply fuel_le_refl]. apply insertPrefix_fuel_S.
Qed.

Lemma remove_fuel_S fuel :
  forall p n, fuel_le (remove fuel p n) (remove (S fuel) p n).
Proof.
  induction fuel as [|fuel IH]; intros p n.
  { apply fuel_le_out_of_fuel. }
  cbn [remove]. apply fuel_le_bind; [apply fuel_le_refl|]. intros t.
  destruct (_ && _); [apply fuel_le_refl|].
  destruct (targetBitFromIP _ _); [|apply fuel_le_refl].
  apply fuel_le_bind; [apply fuel_le_refl|]. intros child.
  destruct child as [c|]; [apply IH|apply fuel_le_refl].
Qed.

Lemma fuel_le_steps {A} (f : nat -> M A) :
  (forall k, fuel_le (f k) (f (S k))) ->
  forall k k', (k <= k')%nat -> fuel_le (f k) (f k').
Proof.
  intros HS k k' Hle. induction Hle as [|k' _ IH]; [apply fuel_le_refl|].
  intros h h' r Hrun Hr. apply HS; [|done]. by apply IH.
Qed.

Lemma insert_fuel_mono k k' p n h h' r :
  (k <= k')%nat -> insert k p n h = (h', r) -> r <> OutOfFuel ->
  insert k' p n h = (h', r).
Proof.
  intros Hle. apply (fuel_le_steps (fun k => insert k p n)); [|done].
  intros ?. apply insert_fuel_S.
Qed.

Lemma remove_fuel_mono k k' p n h h' r :
  (k <= k')%nat -> remove k p n h = (h', r) -> r <> OutOfFuel ->
  remove k' p n h = (h', r).
Proof.
  intros Hle. apply (fuel_le_steps (fun k => remove k p n)); [|done].
  intros ?. apply remove_fuel_S.
Qed.

(** ** Reachable arenas satisfy the invariant *)

Lemma NewNetwork_wf net : valid_ipnet net -> wf_network (NewNetwork net).
Proof. intros [Hr Hl]. unfold NewNetwork. by apply Masked_wf. Qed.

Lemma rootNet_eq : rootNet = {| Number := 0; Ones := 0 |}.
Proof. done. Qed.

Lemma covers_rootNet n : wf_network n -> covers rootNet n.
Proof.
  intros (Hl & Hr & _). rewrite rootNet_eq. split; [simpl; lia|].
  intros i Hi. simpl in *. rewrite Z.bits_0. apply in_range_high; [done|lia].
Qed.

Lemma inv_new : inv (fst (NewPrefixTree [])).
Proof.
  assert (node_ok emptyNode) as Hok.
  { split; [|done]. split; [done|]. split; [done|].
    intros i _. apply Z.bits_0. }
  split.
  - intros [|p] t Ht; [|done]. by injection Ht as <-.
  - intros [|p] t b c Ht Hc; [|done]. injection Ht as <-.
    by destruct b as [|[|?]].
  - intros [|p] t g Ht Hg; [|done]. by injection Ht as <-.
Qed.

Lemma rooted_stable h h' : stable h h' -> rooted h -> rooted h'.
Proof.
  intros Hst (t & Ht & E). destruct (Hst _ _ Ht) as (t' & Ht' & E').
  exists t'. split; [done|congruence].
Qed.

Lemma reachable_inv h : reachable h -> inv h /\ rooted h.
Proof.
  induction 1 as [|h fuel net h' e _ [Hinv Hroot] Hnet Hrun
                  |h fuel net h' r _ [Hinv Hroot] Hnet Hrun].
  - split; [apply inv_new|]. by exists emptyNode.
  - destruct Hroot as (t & Ht & E).
    destruct (insert_spec fuel h 0%nat t (NewNetwork net) h' (Ret e))
      as (_ & _ & HR); [done|by apply NewNetwork_wf|done| |done|].
    { right. rewrite E. by apply covers_rootNet, NewNetwork_wf. }
    destruct (HR e eq_refl) as (H1 & H2 & _).
    split; [done|]. eapply rooted_stable; [exact H2|]. by exists t.
  - destruct Hroot as (t & Ht & E).
    destruct (remove_spec fuel h 0%nat t (NewNetwork net) h' (Ret r))
      as (_ & HR); [done..|].
    destruct (HR r eq_refl) as (H1 & H2 & _).
    split; [done|]. eapply rooted_stable; [exact H2|]. by exists t.
Qed.

(** ** Inserting again *)

Lemma insert_at_equal fuel h p t n :
  h !! p = Some t -> network t = n ->
  insert (S fuel) p n h = (<[p := with_hasEntry t true]> h, Ret None).
Proof.
  intros Hp E. cbn [insert]. step (run_load _ _ _ Hp).
  rewrite (proj2 (Equal_true _ _) E).
  by step (run_set_hasEntry _ _ _ true Hp).
Qed.

(** When the slot the network selects holds a node that covers the network
    (or a full-length node), [insert] goes on in that node. *)
Lemma insert_descend_covered fuel h p t n x xt :
  inv h -> wf_network n -> h !! p = Some t -> extends n (network t) ->
  children t !! slot_of (Ones (network t)) (Number n) = Some (Some x) ->
  h !! x = Some xt -> pre (network xt) n ->
  insert (S fuel) p n h = insert fuel x n h.
Proof.
  intros Hinv Hn Hp Hext Hslot Hx Hpre.
  pose proof (inv_node _ Hinv _ _ Hp) as (Hwt & _).
  pose proof (inv_node _ Hinv _ _ Hx) as (Hwx & _).
  pose proof (insert_viewP fuel h p t n Hinv Hn Hp
                (or_intror (extends_covers _ _ Hext))) as V.
  assert (forall c ct, children t !! slot_of (Ones (network t)) (Number n)
                       = Some (Some c) -> h !! c = Some ct ->
            32 - lcbZ n (network ct) < Ones (network ct) ->
            Ones (network ct) <= 31 -> False) as Hnosplit.
  { intros c ct Hc Hct HL H31. rewrite Hslot in Hc. injection Hc as <-.
    assert (ct = xt) as -> by congruence.
    destruct Hpre as [?|Hcov]; [lia|].
    rewrite (lcbZ_covers n (network xt)) in HL by done. lia. }
  inversion V as [Heq|Hne H32|hx Hx1 Hx2 Hx3|Hx1 Hx2 Hx3
                 |c ct Hx1 Hx2 Hx3 Hx4 Hx5 Hx6
                 |hx c ct Hx1 Hx2 Hx3 Hx4 Hx5 Hx6
                 |c ct Hx1 Hx2 Hx3 Hx4 Hx5 Hx6 Hx7 Hx8 Hx9].
  - destruct Hext as [Hlt _]. rewrite Heq in Hlt. lia.
  - destruct Hext as [Hlt _], Hn as [? _]. lia.
  - congruence.
  - congruence.
  - rewrite Hslot in Hx2. injection Hx2 as <-. done.
  - exfalso. eapply (Hnosplit c ct); [done|done|lia|done].
  - exfalso. eapply (Hnosplit c ct); [done|done|lia|done].
Qed.

Lemma covers_refl n : covers n n.
Proof. split; [lia|apply agree_refl]. Qed.

(** A successful [insert] is a fixed point: running it again from the state
    it produced changes nothing. *)
Lemma insert_idem fuel :
  forall h p t n h',
    inv h -> wf_network n -> h !! p = Some t -> pre (network t) n ->
    insert fuel p n h = (h', Ret None) ->
    forall fuel', 33 <= Z.of_nat fuel' + Ones (network t) ->
      insert fuel' p n h' = (h', Ret None).
Proof.
  induction fuel as [|fuel IH];
    intros h p t n h' Hinv Hn Hp Hpre Hrun fuel' Hfuel; [done|].
  pose proof (inv_node _ Hinv _ _ Hp) as (Hwt & Hst & Hlt).
  pose proof (lookup_lt_Some _ _ _ Hp) as Hplt.
  pose proof (insert_viewP fuel h p t n Hinv Hn Hp Hpre) as V.
  rewrite Hrun in V.
  inversion V as [Heq|Hne H32|hx Hx1 Hx2 Hx3|Hx1 Hx2 Hx3
                 |c ct Hx1 Hx2 Hx3 Hx4 Hx5 Hx6
                 |hx c ct Hx1 Hx2 Hx3 Hx4 Hx5 Hx6
                 |c ct Hx1 Hx2 Hx3 Hx4 Hx5 Hx6 Hx7 Hx8 Hx9]; subst.
  - (* the flag was set: it is set again *)
    destruct fuel' as [|f]; [destruct Hwt; lia|].
    rewrite (insert_at_equal f _ p (with_hasEntry t true) (network t));
      [|by apply list_lookup_insert_eq|done].
    f_equal. apply list_insert_id. by apply list_lookup_insert_eq.
  - (* a leaf was attached: the second run finds it *)
    assert (Ones (network t) <= 31) by (destruct Hx1, Hn; lia).
    destruct fuel' as [|[|f]]; [lia|lia|].
    rewrite (insert_descend_covered (S f) _ p
               (with_children t
                  (<[slot_of (Ones (network t)) (Number n) := Some (length h)]>
                     (children t))) n (length h) (leafNode n p)).
    + rewrite (insert_at_equal f _ (length h) (leafNode n p) n);
        [|apply attach_leaf_lookup_new|done].
      f_equal. apply list_insert_id, attach_leaf_lookup_new.
    + by apply inv_attach_leaf.
    + done.
    + by apply attach_leaf_lookup_p.
    + done.
    + simpl. apply list_lookup_insert_eq. rewrite Hlt. apply slot_of_lt.
    + apply attach_leaf_lookup_new.
    + right. apply covers_refl.
  - (* descent: the child is still in its slot *)
    destruct (insert_spec fuel h c ct n h' (Ret None) Hinv Hn Hx3 Hx5 Hx6)
      as (_ & _ & HR).
    destruct (HR None eq_refl) as (Hinv' & Hstab & Hframe & _).
    destruct (Hstab _ _ Hx3) as (ct' & Hc' & Ec).
    assert (h' !! p = Some t) as Hp'.
    { apply Hframe; [done|]. by destruct Hx4. }
    destruct fuel' as [|f]; [destruct Hwt; lia|].
    rewrite (insert_descend_covered f h' p t n c ct');
      [|done|done|done|done|done|done|by rewrite Ec].
    rewrite Hx6.
    eapply IH; [exact Hinv|done|exact Hx3|done|done|]. destruct Hx4. lia.
  - (* the branch node is still in the slot *)
    pose proof (inv_node _ Hinv _ _ Hx3) as (Hwc & _).
    set (L := 32 - lcbZ n (network ct)) in *.
    assert (0 <= L <= Ones n) as HL' by (destruct Hwt; clearbody L; lia).
    pose proof (inv_split_heap h p t c ct n L Hinv Hp Hx3 Hn Hx1 Hx4 Hx6 Hx7)
      as Hinv2.
    pose proof (split_heap_lookup_new h p t c ct n L) as HP.
    pose proof (or_intror (covers_Masked n L Hn HL') :
                  pre (network (pathNode n L p
                         (slot_of L (Number (network ct))) c)) n) as HpreP.
    destruct (insert_spec fuel _ _ _ n h' (Ret None) Hinv2 Hn HP HpreP Hx9)
      as (_ & _ & HR).
    destruct (HR None eq_refl) as (Hinv' & Hstab & Hframe & _).
    destruct (Hstab _ _ HP) as (P' & HP' & EP).
    pose proof (split_heap_lookup_p h p t c ct n L Hp Hx3) as Hp2.
    assert (h' !! p = Some (with_children t
              (<[slot_of (Ones (network t)) (Number n) := Some (length h)]>
                 (children t)))) as Hp'.
    { apply Hframe; [done|]. simpl. clearbody L. lia. }
    destruct fuel' as [|f]; [destruct Hwt; lia|].
    rewrite (insert_descend_covered f h' p
               (with_children t
                  (<[slot_of (Ones (network t)) (Number n) := Some (length h)]>
                     (children t))) n (length h) P');
      [|done|done|exact Hp'|done| |done|by rewrite EP].
    + rewrite Hx9. eapply IH; [exact Hinv2|done|exact HP|done|done|].
      simpl. clearbody L. lia.
    + simpl. apply list_lookup_insert_eq. rewrite Hlt. apply slot_of_lt.
Qed.

(** ** The branch node of [insert] *)

Lemma split_heap_lookup_c h p t c ct n L :
  h !! c = Some ct -> p <> c ->
  split_heap h p t c ct n L !! c = Some (with_parent ct (Some (length h))).
Proof.
  intros Hc Hpc. unfold split_heap. apply lookup_app_l_Some.
  rewrite list_lookup_insert_ne by done.
  apply list_lookup_insert_eq. by eapply lookup_lt_Some.
Qed.

(** The path-compression split of [insert].  When the chosen slot holds a
    child that still has a target bit (prefix length at most 31) and the
    least common bit position lies above that target bit, the insertion
    succeeds and creates one branch node, at the next free handle: its
    prefix length is [32 - lcb], its network the inserted one masked to that
    length, it takes the child's place in the parent's slot, and the old
    child hangs below it in the slot its own address selects, with its parent
    reference updated.  At most one further node, the leaf of the inserted
    network, is created. *)
Lemma insert_branch_node fuel h p t n c ct h' r :
  inv h -> wf_network n -> h !! p = Some t -> pre (network t) n ->
  network t <> n ->
  children t !! slot_of (Ones (network t)) (Number n) = Some (Some c) ->
  h !! c = Some ct ->
  Ones (network ct) <= 31 ->
  31 - Ones (network ct) < lcbZ n (network ct) - 1 ->
  (2 <= fuel)%nat ->
  insert (S fuel) p n h = (h', r) ->
  r = Ret None /\
  (exists t', h' !! p = Some t' /\
     children t' !! slot_of (Ones (network t)) (Number n)
       = Some (Some (length h))) /\
  (exists P, h' !! length h = Some P /\
     numBitsSkipped P = 32 - lcbZ n (network ct) /\
     network P = Masked n (32 - lcbZ n (network ct)) /\
     parent P = Some p /\
     children P !! slot_of (32 - lcbZ n (network ct)) (Number (network ct))
       = Some (Some c)) /\
  (exists ct', h' !! c = Some ct' /\ parent ct' = Some (length h) /\
     network ct' = network ct) /\
  (length h' <= length h + 2)%nat.
Proof.
  intros Hinv Hn Hp Hpre Hne Hslot Hc Hc31 Hdiv Hfuel Hrun.
  pose proof (inv_node _ Hinv _ _ Hp) as (Hwt & Hst & Hlt).
  pose proof (inv_node _ Hinv _ _ Hc) as (Hwc & _).
  pose proof (lookup_lt_Some _ _ _ Hp) as Hplt.
  pose proof (lookup_lt_Some _ _ _ Hc) as Hclt.
  pose proof (insert_viewP fuel h p t n Hinv Hn Hp Hpre) as V.
  rewrite Hrun in V.
  inversion V as [Heq|Hne' H32|hx Hx1 Hx2 Hx3|Hx1 Hx2 Hx3
                 |c' ct' Hx1 Hx2 Hx3 Hx4 Hx5 Hx6
                 |hx c' ct' Hx1 Hx2 Hx3 Hx4 Hx5 Hx6
                 |c' ct' Hx1 Hx2 Hx3 Hx4 Hx5 Hx6 Hx7 Hx8 Hx9]; subst;
    try congruence.
  - (* the slot would have to be free of a split *)
    exfalso. destruct (inv_child _ Hinv _ _ _ _ Hp Hslot) as (? & ? & [? _] & _).
    assert (x = ct) as -> by congruence. lia.
  - exfalso. rewrite Hslot in Hx2. injection Hx2 as <-.
    assert (ct' = ct) as -> by congruence.
    destruct Hx5 as [?|Hcov]; [lia|].
    rewrite (lcbZ_covers n (network ct)) in Hdiv by done. lia.
  - lia.
  - rewrite Hslot in Hx2. injection Hx2 as <-.
    assert (ct' = ct) as -> by congruence.
    set (L := 32 - lcbZ n (network ct)) in *.
    assert (0 <= L <= Ones n) as HL' by (destruct Hwt; clearbody L; lia).
    assert (p <> c) as Hpc.
    { intros ->. assert (t = ct) as -> by congruence. clearbody L. lia. }
    pose proof (inv_split_heap h p t c ct n L Hinv Hp Hc Hn Hx1 Hx4 Hx6 Hx7)
      as Hinv2.
    pose proof (split_heap_lookup_new h p t c ct n L) as HP.
    pose proof (split_heap_lookup_p h p t c ct n L Hp Hc) as Hp2.
    pose proof (split_heap_lookup_c h p t c ct n L Hc Hpc) as Hc2.
    assert (length (split_heap h p t c ct n L) = S (length h)) as Hlen2.
    { unfold split_heap. rewrite length_app, !length_insert. simpl. lia. }
    set (h2 := split_heap h p t c ct n L) in *.
    set (P := pathNode n L p (slot_of L (Number (network ct))) c) in *.
    assert (children P !! slot_of L (Number (network ct)) = Some (Some c))
      as HPc.
    { simpl. apply list_lookup_insert_eq. simpl. apply slot_of_lt. }
    assert (forall c', L < Ones n ->
              children P !! slot_of L (Number n) = Some (Some c') -> False)
      as Hfree.
    { intros c' HLlt Hc'. unfold P in Hc'.
      rewrite pathNode_slot_free in Hc'; [done| |apply slot_of_lt].
      apply split_slot_free; unfold L in *; try done; lia. }
    destruct fuel as [|f]; [lia|].
    pose proof (insert_viewP f h2 (length h) P n Hinv2 Hn HP
                  (or_intror (covers_Masked n L Hn HL'))) as V2.
    rewrite Hx9 in V2.
    inversion V2 as [Heq|Hne' H32|hx Hy1 Hy2 Hy3|Hy1 Hy2 Hy3
                    |c' ct' Hy1 Hy2 Hy3 Hy4 Hy5 Hy6
                    |hx c' ct' Hy1 Hy2 Hy3 Hy4 Hy5 Hy6
                    |c' ct' Hy1 Hy2 Hy3 Hy4 Hy5 Hy6 Hy7 Hy8 Hy9];
      try subst h'; try subst r.
    + (* the branch node is the inserted network itself *)
      split; [done|]. split; [|split; [|split]].
      * eexists. split; [rewrite list_lookup_insert_ne by lia; exact Hp2|].
        simpl. apply list_lookup_insert_eq. rewrite Hlt. apply slot_of_lt.
      * exists (with_hasEntry P true).
        split; [apply list_lookup_insert_eq; lia|done].
      * eexists. split; [rewrite list_lookup_insert_ne by lia; exact Hc2|].
        done.
      * rewrite length_insert. lia.
    + simpl in H32. clearbody L. lia.
    + lia.
    + (* a leaf for the inserted network is attached in the other slot *)
      split; [done|]. split; [|split; [|split]].
      * eexists. split.
        { unfold attach_leaf. apply lookup_app_l_Some.
          rewrite list_lookup_insert_ne by lia. exact Hp2. }
        simpl. apply list_lookup_insert_eq. rewrite Hlt. apply slot_of_lt.
      * eexists. split; [by apply attach_leaf_lookup_p|].
        simpl. split; [done|]. split; [done|]. split; [done|].
        rewrite list_lookup_insert_ne; [exact HPc|].
        intros Heq. destruct Hy1 as [HLlt _]. simpl in HLlt.
        eapply (Hfree c HLlt). by rewrite Heq.
      * eexists. split.
        { unfold attach_leaf. apply lookup_app_l_Some.
        rewrite list_lookup_insert_ne by lia. exact Hc2. }
        done.
      * unfold attach_leaf. rewrite length_app, length_insert. simpl. lia.
    + exfalso. destruct Hy1 as [HLlt _]. by eapply Hfree.
    + exfalso. destruct Hy1 as [HLlt _]. by eapply Hfree.
    + exfalso. destruct Hy1 as [HLlt _]. by eapply Hfree.
Qed.

(** ** The example arenas are reachable *)

Lemma valid_cidr a b c d len :
  0 <= a < 256 -> 0 <= b < 256 -> 0 <= c < 256 -> 0 <= d < 256 ->
  0 <= len <= 32 -> valid_ipnet (cidr a b c d len).
Proof.
  intros Ha Hb Hc Hd Hl. split; [|done]. unfold in_range, cidr, ip4. simpl. lia.
Qed.

Lemma reachable_emptyTrie : reachable emptyTrie.
Proof. apply reach_new. Qed.

Lemma reachable_nestedTrie : reachable nestedTrie.
Proof.
  eapply (reach_Insert _ depth (cidr 192 168 0 0 25) _ None).
  - eapply (reach_Insert _ depth (cidr 192 168 0 0 24) _ None).
    + apply reachable_emptyTrie.
    + apply valid_cidr; lia.
    + by vm_compute.
  - apply valid_cidr; lia.
  - by vm_compute.
Qed.

Lemma reachable_scenarioA : reachable scenarioA.
Proof.
  eapply (reach_Insert _ depth (cidr 192 168 1 0 24) _ None).
  - apply reachable_nestedTrie.
  - apply valid_cidr; lia.
  - by vm_compute.
Qed.

Lemma reachable_hostTrie : reachable hostTrie.
Proof.
  eapply (reach_Insert _ depth (cidr 1 2 3 4 32) _ None).
  - apply reachable_emptyTrie.
  - apply valid_cidr; lia.
  - by vm_compute.
Qed.

(** ** The properties of the specification *)

(** C1.  The claim is that [Contains] answers true exactly for the addresses
    of networks inserted and not later removed.  Here 192.168.0.0/24 and
    192.168.0.0/25 are inserted and then both removed, each [Remove]
    returning the removed network; the set of networks is empty, yet
    [Contains 192.168.0.1] still answers true.  (Splicing the outer node out
    left the inner node's parent reference pointing at the discarded node, so
    the second removal unlinked nothing from the live trie.) *)
Theorem C1_Contains_after_all_removed :
  snd (Insert depth root (cidr 192 168 0 0 24) emptyTrie) = Ret None /\
  snd (Insert depth root (cidr 192 168 0 0 25)
         (fst (Insert depth root (cidr 192 168 0 0 24) emptyTrie))) = Ret None /\
  snd (Remove depth root (cidr 192 168 0 0 24) nestedTrie)
    = Ret (ok (Some (net 192 168 0 0 24))) /\
  snd (Remove depth root (cidr 192 168 0 0 25) outerRemoved)
    = Ret (ok (Some (net 192 168 0 0 25))) /\
  snd (Contains depth root ip_192_168_0_1 bothRemoved) = Ret (ok true).
Proof. by vm_compute. Qed.

(** C2.  The claim is that [ContainingNetworks] returns exactly the inserted
    networks that contain the address.  With the single host network
    1.2.3.4/32 inserted, [ContainingNetworks 1.2.3.4] returns the
    invalid-bit-position error instead of that network: the host node's
    target bit position [31 - 32] wraps around.  And after the two removals
    of C1 the query still lists 192.168.0.0/25. *)
Theorem C2_ContainingNetworks_host_and_removed :
  snd (Insert depth root (cidr 1 2 3 4 32) emptyTrie) = Ret None /\
  snd (Contains depth root ip_1_2_3_4 hostTrie) = Ret (ok true) /\
  snd (ContainingNetworks depth root ip_1_2_3_4 hostTrie)
    = Ret (err ErrInvalidBitPosition) /\
  snd (ContainingNetworks depth root ip_192_168_0_1 bothRemoved)
    = Ret (ok [net 192 168 0 0 25]).
Proof. by vm_compute. Qed.

(** C3.  Scenario A: after inserting 192.168.0.0/24, 192.168.0.0/25 and
    192.168.1.0/24 into an empty trie, 192.168.0.1 is contained, its
    containing networks are the /24 then the /25, 192.168.1.5 is contained
    and 10.0.0.1 is not.  Scenario B: removing 192.168.0.0/25 then returns
    that network, and the containing networks of 192.168.0.1 are the /24
    alone. *)
Theorem C3_scenarios_A_and_B :
  snd (Insert depth root (cidr 192 168 0 0 24) emptyTrie) = Ret None /\
  snd (Insert depth root (cidr 192 168 0 0 25)
         (fst (Insert depth root (cidr 192 168 0 0 24) emptyTrie))) = Ret None /\
  snd (Insert depth root (cidr 192 168 1 0 24) nestedTrie) = Ret None /\
  snd (Contains depth root ip_192_168_0_1 scenarioA) = Ret (ok true) /\
  snd (ContainingNetworks depth root ip_192_168_0_1 scenarioA)
    = Ret (ok [net 192 168 0 0 24; net 192 168 0 0 25]) /\
  snd (Contains depth root ip_192_168_1_5 scenarioA) = Ret (ok true) /\
  snd (Contains depth root ip_10_0_0_1 scenarioA) = Ret (ok false) /\
  snd (Remove depth root (cidr 192 168 0 0 25) scenarioA)
    = Ret (ok (Some (net 192 168 0 0 25))) /\
  snd (ContainingNetworks depth root ip_192_168_0_1 scenarioB)
    = Ret (ok [net 192 168 0 0 24]).
Proof. by vm_compute. Qed.

(** C4.  The claim is that removing a network that is not in the set
    returns "not found", not an error.  With only 1.2.3.4/32 inserted,
    removing 1.2.3.5/32 returns the invalid-bit-position error (the arena is
    left as it was).  And after the two removals of C1, removing
    192.168.0.0/25 once more returns that network again instead of "not
    found". *)
Theorem C4_Remove_absent_network :
  Remove depth root (cidr 1 2 3 5 32) hostTrie
    = (hostTrie, Ret (err ErrInvalidBitPosition)) /\
  snd (Remove depth root (cidr 192 168 0 0 25) bothRemoved)
    = Ret (ok (Some (net 192 168 0 0 25))).
Proof. by vm_compute. Qed.

Lemma reachable_root h :
  reachable h ->
  inv h /\ exists t, h !! root = Some t /\ network t = rootNet /\
                     Ones (network t) = 0.
Proof.
  intros Hr. destruct (reachable_inv h Hr) as [Hinv (t & Ht & E)].
  split; [done|]. exists t. split; [done|]. split; [done|]. by rewrite E.
Qed.

Lemma Insert_complete h net0 fuel h' r :
  reachable h -> valid_ipnet net0 -> (depth <= fuel)%nat ->
  Insert fuel root net0 h = (h', r) -> exists e, r = Ret e.
Proof.
  intros Hr Hnet Hfuel Hrun.
  destruct (reachable_root h Hr) as [Hinv (t & Ht & E & E0)].
  destruct (insert_spec fuel h root t (NewNetwork net0) h' r)
    as (HP & HF & _); [done|by apply NewNetwork_wf|done| |done|].
  { right. rewrite E. by apply covers_rootNet, NewNetwork_wf. }
  destruct r as [e| |]; [by exists e|done|].
  specialize (HF eq_refl). unfold depth in Hfuel. lia.
Qed.

(** C5.  [Insert] is idempotent.  On every reachable arena, inserting the
    same network a second time returns what the first insertion returned and
    leaves the arena exactly as the first insertion left it; hence every
    later [Contains], [ContainingNetworks] and [Remove] answers the same
    after two insertions as after one.  In particular, re-inserting a network
    whose insertion succeeded returns no error. *)
Theorem C5_Insert_idempotent h net0 f1 f2 h1 r1 h2 r2 :
  reachable h -> valid_ipnet net0 ->
  (depth <= f1)%nat -> (depth <= f2)%nat ->
  Insert f1 root net0 h = (h1, r1) ->
  Insert f2 root net0 h1 = (h2, r2) ->
  (exists e, r1 = Ret e) /\ h2 = h1 /\ r2 = r1 /\
  (forall f ip, Contains f root ip h2 = Contains f root ip h1) /\
  (forall f ip,
     ContainingNetworks f root ip h2 = ContainingNetworks f root ip h1) /\
  (forall f n, Remove f root n h2 = Remove f root n h1).
Proof.
  intros Hr Hnet Hf1 Hf2 Hrun1 Hrun2.
  destruct (Insert_complete h net0 f1 h1 r1 Hr Hnet Hf1 Hrun1) as [e ->].
  assert (reachable h1) as Hr1 by (by eapply reach_Insert).
  destruct (Insert_complete h1 net0 f2 h2 r2 Hr1 Hnet Hf2 Hrun2) as [e2 ->].
  destruct (reachable_root h Hr) as [Hinv (t & Ht & E & E0)].
  pose proof (NewNetwork_wf net0 Hnet) as Hwf.
  assert (pre (network t) (NewNetwork net0)) as Hpre.
  { right. rewrite E. by apply covers_rootNet. }
  assert (h2 = h1 /\ e2 = e) as [-> ->].
  { destruct e as [e|].
    - (* the first insertion failed: the arena is the one it started from *)
      destruct (insert_spec f1 h root t _ h1 _ Hinv Hwf Ht Hpre Hrun1)
        as (_ & _ & HR).
      destruct (HR _ eq_refl) as (_ & _ & _ & Hsame).
      rewrite Hsame in * by done.
      destruct (Nat.le_ge_cases f1 f2) as [Hle|Hle].
      + pose proof (insert_fuel_mono f1 f2 _ _ _ _ _ Hle Hrun1) as Hm.
        unfold Insert in Hrun2. rewrite Hm in Hrun2 by done.
        by injection Hrun2 as <- <-.
      + pose proof (insert_fuel_mono f2 f1 _ _ _ _ _ Hle Hrun2) as Hm.
        unfold Insert in Hrun1. rewrite Hm in Hrun1 by done.
        by injection Hrun1 as <- <-.
    - (* the first insertion succeeded: the second finds everything in place *)
      pose proof (insert_idem f1 h root t _ h1 Hinv Hwf Ht Hpre Hrun1 f2) as Hi.
      unfold Insert in Hrun2. rewrite Hi in Hrun2.
      + by injection Hrun2 as <- <-.
      + unfold depth in Hf2. lia. }
  split; [by exists e|]. done.
Qed.

Lemma C5_Insert_idempotent_witness :
  let once := Insert depth root (cidr 192 168 1 0 24) nestedTrie in
  let twice := Insert depth root (cidr 192 168 1 0 24) (fst once) in
  (exists e, snd once = Ret e) /\ fst twice = fst once /\
  snd twice = snd once /\
  (forall f ip, Contains f root ip (fst twice) = Contains f root ip (fst once)) /\
  (forall f ip, ContainingNetworks f root ip (fst twice)
                = ContainingNetworks f root ip (fst once)) /\
  (forall f n, Remove f root n (fst twice) = Remove f root n (fst once)).
Proof.
  cbv zeta.
  apply (C5_Insert_idempotent nestedTrie (cidr 192 168 1 0 24) depth depth).
  - apply reachable_nestedTrie.
  - apply valid_cidr; lia.
  - lia.
  - lia.
  - apply surjective_pairing.
  - apply surjective_pairing.
Defined.

(** C6.  [Insert] is atomic on failure: on every reachable arena, when
    [Insert] returns an error the arena is exactly the one before the call;
    no node was attached (or even allocated) and no flag was changed. *)
Theorem C6_Insert_atomic_on_error h net0 fuel h' e :
  reachable h -> valid_ipnet net0 ->
  Insert fuel root net0 h = (h', Ret (Some e)) -> h' = h.
Proof.
  intros Hr Hnet Hrun.
  destruct (reachable_root h Hr) as [Hinv (t & Ht & E & E0)].
  destruct (insert_spec fuel h root t (NewNetwork net0) h' (Ret (Some e)))
    as (_ & _ & HR); [done|by apply NewNetwork_wf|done| |done|].
  { right. rewrite E. by apply covers_rootNet, NewNetwork_wf. }
  destruct (HR _ eq_refl) as (_ & _ & _ & Hsame). by apply Hsame.
Qed.

Lemma C6_Insert_atomic_on_error_witness :
  fst (Insert depth root (cidr 1 2 3 5 32) hostTrie) = hostTrie.
Proof.
  apply (C6_Insert_atomic_on_error hostTrie (cidr 1 2 3 5 32) depth _
           ErrInvalidBitPosition).
  - apply reachable_hostTrie.
  - apply valid_cidr; lia.
  - vm_compute. reflexivity.
Defined.

(** C7.  The claim is that a branch node is put in whenever the inserted
    network diverges from the child in the chosen slot above the child's own
    target bit position.  With the host 1.2.3.4/32 in slot 0 of the root,
    the network 1.2.3.5/32 selects the same slot and diverges from the child
    at bit 0, which lies above the position [31 - 32] of a full-length
    child; but that position wraps around to the largest [uint], the
    comparison fails, no branch node is inserted and [Insert] returns the
    invalid-bit-position error with the arena unchanged. *)
Theorem C7_no_branch_between_hosts :
  (children <$> hostTrie !! root) = Some [Some 1%nat; None] /\
  (network <$> hostTrie !! 1%nat) = Some (net 1 2 3 4 32) /\
  slot_of 0 (ip4 1 2 3 5) = 0%nat /\
  LeastCommonBitPosition (NewNetwork (cidr 1 2 3 5 32)) (net 1 2 3 4 32)
    = ok 1 /\
  (targetBitPosition <$> hostTrie !! 1%nat) = Some (2 ^ 64 - 1) /\
  Insert depth root (cidr 1 2 3 5 32) hostTrie
    = (hostTrie, Ret (Some ErrInvalidBitPosition)).
Proof. by vm_compute. Qed.

(** C8.  On every reachable arena no node has consumed more than 32 bits,
    and a recursion budget of the top-level call plus 32 nested calls is
    enough for [Insert], [Remove], [Contains] and [ContainingNetworks]:
    none of them runs out of it. *)
Theorem C8_depth_bounded h :
  reachable h ->
  (forall p t, h !! p = Some t -> 0 <= numBitsSkipped t <= 32) /\
  (forall fuel net0, (depth <= fuel)%nat -> valid_ipnet net0 ->
     snd (Insert fuel root net0 h) <> OutOfFuel /\
     snd (Remove fuel root net0 h) <> OutOfFuel) /\
  (forall fuel ip, (depth <= fuel)%nat ->
     snd (Contains fuel root ip h) <> OutOfFuel /\
     snd (ContainingNetworks fuel root ip h) <> OutOfFuel).
Proof.
  intros Hr. destruct (reachable_root h Hr) as [Hinv (t & Ht & E & E0)].
  split; [|split].
  - intros p tp Hp. destruct (inv_node _ Hinv _ _ Hp) as ((Hl & _) & Hs & _).
    by rewrite Hs.
  - intros fuel net0 Hfuel Hnet. unfold depth in Hfuel. split.
    + destruct (Insert fuel root net0 h) as [h' r] eqn:Hrun.
      destruct (Insert_complete h net0 fuel h' r Hr Hnet Hfuel Hrun) as [e ->].
      done.
    + destruct (Remove fuel root net0 h) as [h' r] eqn:Hrun.
      destruct (remove_spec fuel h root t (NewNetwork net0) h' r Hinv Ht Hrun)
        as [HF _].
      simpl. intros ->. specialize (HF eq_refl). lia.
  - intros fuel ip Hfuel. unfold depth in Hfuel.
    unfold Contains, ContainingNetworks.
    destruct (NewNetworkNumber ip) as [nn|]; [|done]. split.
    + destruct (contains_spec fuel h root t nn Hinv Ht) as (_ & _ & HF).
      intros Ho. specialize (HF Ho). lia.
    + destruct (containingNetworks_spec fuel h root t nn Hinv Ht)
        as (_ & _ & HF).
      intros Ho. specialize (HF Ho). lia.
Qed.

Lemma C8_depth_bounded_witness :
  (forall p t, scenarioA !! p = Some t -> 0 <= numBitsSkipped t <= 32) /\
  (forall fuel net0, (depth <= fuel)%nat -> valid_ipnet net0 ->
     snd (Insert fuel root net0 scenarioA) <> OutOfFuel /\
     snd (Remove fuel root net0 scenarioA) <> OutOfFuel) /\
  (forall fuel ip, (depth <= fuel)%nat ->
     snd (Contains fuel root ip scenarioA) <> OutOfFuel /\
     snd (ContainingNetworks fuel root ip scenarioA) <> OutOfFuel).
Proof. apply (C8_depth_bounded scenarioA). apply reachable_scenarioA. Defined.

(** C9.  The claim is that after every completed [Insert] or [Remove] each
    child's parent reference names the node whose slot holds it.  After
    192.168.0.0/24 and 192.168.0.0/25 are inserted and the /24 is removed,
    slot 1 of the root (node 0) holds node 2, the /25, but the parent
    reference of node 2 still names node 1, the node that was spliced out. *)
Theorem C9_stale_parent_after_Remove :
  snd (Remove depth root (cidr 192 168 0 0 24) nestedTrie)
    = Ret (ok (Some (net 192 168 0 0 24))) /\
  (children <$> outerRemoved !! root) = Some [None; Some 2%nat] /\
  (network <$> outerRemoved !! 2%nat) = Some (net 192 168 0 0 25) /\
  (parent <$> outerRemoved !! 2%nat) = Some (Some 1%nat).
Proof. by vm_compute. Qed.

(** C10.  The claim is that [Remove] of the all-addresses network completes
    when the root has its entry flag set and at most one child.  After
    0.0.0.0/0 is inserted into an empty trie the root has the flag and no
    child, and removing 0.0.0.0/0 dereferences the root's nil parent: the
    call panics. *)
Theorem C10_Remove_root_panics :
  snd (Insert depth root (cidr 0 0 0 0 0) emptyTrie) = Ret None /\
  (hasEntry <$> allTrie !! root) = Some true /\
  (childrenCount <$> allTrie !! root) = Some 0 /\
  (parent <$> allTrie !! root) = Some None /\
  snd (Remove depth root (cidr 0 0 0 0 0) allTrie) = Panic.
Proof. by vm_compute. Qed.

(** ** Addresses inside networks *)

Ltac step_in H X := rewrite (run_bind _ _ _ _ _ X) in H; cbv beta match in H.

Lemma Contains_agree n a :
  wf_network n -> in_range a ->
  rnet.Contains n a = true <-> agree (Ones n) a (Number n).
Proof.
  intros (Hl & Hr & Hlow) Ha. unfold rnet.Contains. rewrite Z.eqb_eq. split.
  - intros E i Hi. rewrite <- E.
    destruct (Z_lt_le_dec i 0) as [Hneg|Hpos].
    { by rewrite !Z.testbit_neg_r. }
    rewrite land_mask_spec by done.
    destruct (Z.leb_spec (32 - Ones n) i); [|lia]. by rewrite andb_true_r.
  - intros Hag. apply Z.bits_inj'. intros i Hi.
    rewrite land_mask_spec by done.
    destruct (Z.leb_spec (32 - Ones n) i).
    + rewrite andb_true_r. by apply Hag.
    + rewrite andb_false_r. symmetry. by apply Hlow.
Qed.

Lemma byte_range b : 0 <= Z.of_N (Byte.to_N b) < 256.
Proof. pose proof (Byte.to_N_bounded b). lia. Qed.

Lemma NewNetworkNumber_range ip a :
  NewNetworkNumber ip = Some a -> in_range a.
Proof.
  destruct ip as [|b0 [|b1 [|b2 [|b3 [|? ?]]]]]; try done.
  intros [= <-].
  pose proof (byte_range b0). pose proof (byte_range b1).
  pose proof (byte_range b2). pose proof (byte_range b3).
  rewrite !Z.shiftl_mul_pow2 by lia.
  assert (forall x y k, 0 <= k -> 0 <= x -> 0 <= y < 2 ^ k ->
            Z.lor (x * 2 ^ k) y = x * 2 ^ k + y) as Hlor.
  { intros x y k Hk Hx Hy. rewrite <- Z.shiftl_mul_pow2 by done.
    assert (Z.land (Z.shiftl x k) y = 0) as Hdisj.
    { apply Z.bits_inj'. intros i Hi. rewrite Z.land_spec, Z.bits_0.
      destruct (Z_lt_le_dec i k).
      - by rewrite Z.shiftl_spec_low.
      - destruct (Z.eq_dec y 0) as [->|Hy0];
          [by rewrite Z.bits_0, andb_false_r|].
        rewrite (Z.bits_above_log2 y i); [apply andb_false_r|lia|].
        assert (Z.log2 y < k) by (apply Z.log2_lt_pow2; lia). lia. }
    by rewrite <- Z.lxor_lor, <- Z.add_nocarry_lxor. }
  rewrite (Hlor _ _ 8) by lia.
  rewrite (Hlor _ _ 16) by lia.
  rewrite (Hlor _ _ 24) by lia.
  unfold in_range. lia.
Qed.

(** ** The descent of [contains] *)

Lemma found_contains h a p :
  inv h -> found h a p ->
  forall fuel t, h !! p = Some t -> 33 <= Z.of_nat fuel + Ones (network t) ->
    contains fuel p a h = (h, Ret (ok true)).
Proof.
  intros Hinv. induction 1 as [p t Hp Hc He|p t c Hp Hc He Hslot _ IH];
    intros fuel t' Hp' Hfuel;
    assert (t' = t) as -> by congruence;
    pose proof (inv_node _ Hinv _ _ Hp) as Hok;
    pose proof Hok as ((Hl & _) & _);
    (destruct fuel as [|fuel]; [lia|]);
    cbn [contains]; step (run_load _ _ _ Hp); rewrite Hc, He; cbn [negb];
    cbv beta match.
  - done.
  - destruct (inv_child _ Hinv _ _ _ _ Hp Hslot) as (ct & Hct & [Hlt _] & _).
    pose proof (inv_node _ Hinv _ _ Hct) as ((Hlc & _) & _).
    rewrite targetBitFromIP_small by (done || lia). cbv beta match.
    step (run_index _ _ _ _ _ Hp Hslot).
    apply (IH fuel ct Hct). lia.
Qed.

Lemma contains_found fuel :
  forall h a p t h',
    inv h -> h !! p = Some t ->
    contains fuel p a h = (h', Ret (ok true)) -> found h a p.
Proof.
  induction fuel as [|fuel IH]; intros h a p t h' Hinv Hp Hrun; [done|].
  pose proof (inv_node _ Hinv _ _ Hp) as Hok.
  pose proof Hok as ((Hl & _) & _ & Hlen).
  cbn [contains] in Hrun. step_in Hrun (run_load _ _ _ Hp).
  destruct (rnet.Contains (network t) a) eqn:Hc; simpl in Hrun; [|done].
  destruct (hasEntry t) eqn:He; [by eapply found_here|].
  destruct (Z.eq_dec (Ones (network t)) 32) as [H32|H32].
  { by rewrite targetBitFromIP_full in Hrun. }
  rewrite targetBitFromIP_small in Hrun by (done || lia).
  destruct (lookup_lt_is_Some_2 (children t)
              (slot_of (Ones (network t)) a)) as [slot Hslot].
  { rewrite Hlen. apply slot_of_lt. }
  step_in Hrun (run_index _ _ _ _ _ Hp Hslot).
  destruct slot as [c|]; [|done].
  destruct (inv_child _ Hinv _ _ _ _ Hp Hslot) as (ct & Hct & _).
  eapply found_below; [done..|]. by eapply IH.
Qed.

(** ** What [insert] keeps and adds for [contains] *)

Lemma grows_refl h : grows h h.
Proof. intros q t Hq. exists t. done. Qed.

Lemma grows_set_entry h p t :
  h !! p = Some t -> grows h (<[p := with_hasEntry t true]> h).
Proof.
  intros Hp q tq Hq. destruct (decide (p = q)) as [->|Hne].
  - assert (tq = t) as -> by congruence. exists (with_hasEntry t true).
    split; [apply list_lookup_insert_eq; by eapply lookup_lt_Some|done].
  - exists tq. by rewrite list_lookup_insert_ne.
Qed.

Lemma grows_attach_leaf h p t n :
  h !! p = Some t ->
  children t !! slot_of (Ones (network t)) (Number n) = Some None ->
  grows h (attach_leaf h p t n).
Proof.
  intros Hp Hslot q tq Hq. unfold attach_leaf.
  destruct (decide (p = q)) as [->|Hne].
  - assert (tq = t) as -> by congruence. eexists. split.
    { apply lookup_app_l_Some, list_lookup_insert_eq. by eapply lookup_lt_Some. }
    split; [done|]. split; [done|]. intros b c Hc. simpl.
    rewrite list_lookup_insert_ne; [done|]. intros <-. congruence.
  - exists tq. split; [|done].
    apply lookup_app_l_Some. by rewrite list_lookup_insert_ne.
Qed.

Lemma found_grows h h' a p : grows h h' -> found h a p -> found h' a p.
Proof.
  intros Hg. induction 1 as [p t Hp Hc He|p t c Hp Hc He Hslot _ IH];
    destruct (Hg _ _ Hp) as (t' & Hp' & En & Hflag & Hch).
  - eapply found_here; [done|by rewrite En|by apply Hflag].
  - destruct (hasEntry t') eqn:He'.
    + eapply found_here; [done|by rewrite En|done].
    + eapply found_below; [done|by rewrite En|done| |done].
      rewrite En. by apply Hch.
Qed.

(** The nodes of an arena after a branch node was put in. *)
Lemma split_heap_lookup_old h p t c ct n L q tq :
  h !! p = Some t -> h !! c = Some ct -> p <> c -> h !! q = Some tq ->
  exists tq', split_heap h p t c ct n L !! q = Some tq' /\
    network tq' = network tq /\ hasEntry tq' = hasEntry tq /\
    (q <> p -> children tq' = children tq).
Proof.
  intros Hp Hc Hpc Hq.
  destruct (decide (q = p)) as [->|Hqp].
  { assert (tq = t) as -> by congruence. eexists.
    split; [by apply split_heap_lookup_p|done]. }
  destruct (decide (q = c)) as [->|Hqc].
  { assert (tq = ct) as -> by congruence. eexists.
    split; [by apply split_heap_lookup_c|done]. }
  exists tq. split; [|done]. unfold split_heap.
  apply lookup_app_l_Some. by rewrite !list_lookup_insert_ne.
Qed.

Lemma found_split_heap h p t c ct n L a q :
  inv h -> wf_network n -> in_range a ->
  h !! p = Some t -> h !! c = Some ct ->
  children t !! slot_of (Ones (network t)) (Number n) = Some (Some c) ->
  Ones (network t) < L < Ones (network ct) ->
  agree L (Number n) (Number (network ct)) ->
  found h a q -> found (split_heap h p t c ct n L) a q.
Proof.
  intros Hinv Hn Ha Hp Hc Hslot HL Hag.
  pose proof (inv_node _ Hinv _ _ Hp) as (Hwt & _ & Hlt).
  pose proof (inv_node _ Hinv _ _ Hc) as (Hwc & _).
  assert (0 <= L <= 32) as HLr by (destruct Hwt, Hwc; lia).
  assert (p <> c) as Hpc.
  { intros ->. assert (t = ct) as -> by congruence. lia. }
  induction 1 as [q tq Hq Hcq He|q tq x Hq Hcq He Hsx Hsub IH];
    destruct (split_heap_lookup_old h p t c ct n L q tq Hp Hc Hpc Hq)
      as (tq' & Hq' & En & Ee & Hch).
  - eapply found_here; [done|by rewrite En|by rewrite Ee].
  - destruct (decide (q = p)) as [->|Hqp].
    + assert (tq = t) as -> by congruence.
      rewrite split_heap_lookup_p in Hq' by done. injection Hq' as <-.
      destruct (decide (slot_of (Ones (network t)) a
                        = slot_of (Ones (network t)) (Number n))) as [Es|Es].
      * (* the address goes through the slot that now holds the branch node *)
        assert (x = c) as -> by congruence.
        assert (agree (Ones (network ct)) a (Number (network ct))) as Hac.
        { inversion Hsub as [? t0 H0 H1 _|? t0 ? H0 H1 _ _ _];
            assert (t0 = ct) as -> by congruence;
            by apply Contains_agree in H1. }
        eapply found_below; [by apply split_heap_lookup_p|done|done| |].
        { simpl. rewrite Es. apply list_lookup_insert_eq.
          rewrite Hlt. apply slot_of_lt. }
        eapply found_below; [apply split_heap_lookup_new| |done| |done].
        -- apply Contains_agree; [by apply Masked_wf; [apply Hn|]|done|].
           simpl Ones.
           eapply agree_trans; [eapply agree_mono; [|exact Hac]; lia|].
           eapply agree_trans; [apply agree_sym, Hag|].
           apply agree_sym, Masked_agree; [apply Hn|done].
        -- simpl. rewrite (slot_of_agree (Ones (network ct)) L a
                             (Number (network ct))) by (done || lia).
           apply list_lookup_insert_eq. simpl. apply slot_of_lt.
      * eapply found_below; [by apply split_heap_lookup_p|done|done| |done].
        simpl. by rewrite list_lookup_insert_ne.
    + eapply found_below; [done|by rewrite En|by rewrite Ee| |done].
      rewrite En, Hch by done. done.
Qed.

(** [insert] never hides an entry from [contains]. *)
Lemma insert_found fuel :
  forall h p t n h' e a,
    inv h -> wf_network n -> h !! p = Some t -> pre (network t) n ->
    in_range a ->
    insert fuel p n h = (h', Ret e) ->
    forall q, found h a q -> found h' a q.
Proof.
  induction fuel as [|fuel IH];
    intros h p t n h' e a Hinv Hn Hp Hpre Ha Hrun q Hf; [done|].
  pose proof (inv_node _ Hinv _ _ Hp) as (Hwt & Hst & Hlt).
  pose proof (insert_viewP fuel h p t n Hinv Hn Hp Hpre) as V.
  rewrite Hrun in V.
  inversion V as [Heq|Hne H32|hx Hx1 Hx2 Hx3|Hx1 Hx2 Hx3
                 |c ct Hx1 Hx2 Hx3 Hx4 Hx5 Hx6
                 |hx c ct Hx1 Hx2 Hx3 Hx4 Hx5 Hx6
                 |c ct Hx1 Hx2 Hx3 Hx4 Hx5 Hx6 Hx7 Hx8 Hx9]; subst.
  - eapply found_grows; [by apply grows_set_entry|done].
  - done.
  - eapply found_grows; [by apply grows_attach_leaf|done].
  - by eapply (IH h c ct n h' e a).
  - pose proof (inv_node _ Hinv _ _ Hx3) as (Hwc & _).
    set (L := 32 - lcbZ n (network ct)) in *.
    assert (0 <= L <= Ones n) as HL' by (destruct Hwt; clearbody L; lia).
    eapply (IH (split_heap h p t c ct n L) (length h) _ n h' e a).
    + by apply inv_split_heap.
    + done.
    + apply split_heap_lookup_new.
    + right. by apply covers_Masked.
    + done.
    + done.
    + by apply found_split_heap.
Qed.

(** A successful [insert] leaves the network on its own descent path. *)
Lemma insert_present fuel :
  forall h p t n h',
    inv h -> wf_network n -> h !! p = Some t -> pre (network t) n ->
    insert fuel p n h = (h', Ret None) -> present h' n p.
Proof.
  induction fuel as [|fuel IH];
    intros h p t n h' Hinv Hn Hp Hpre Hrun; [done|].
  pose proof (inv_node _ Hinv _ _ Hp) as (Hwt & Hst & Hlt).
  pose proof (lookup_lt_Some _ _ _ Hp) as Hplt.
  pose proof (insert_viewP fuel h p t n Hinv Hn Hp Hpre) as V.
  rewrite Hrun in V.
  inversion V as [Heq|Hne H32|hx Hx1 Hx2 Hx3|Hx1 Hx2 Hx3
                 |c ct Hx1 Hx2 Hx3 Hx4 Hx5 Hx6
                 |hx c ct Hx1 Hx2 Hx3 Hx4 Hx5 Hx6
                 |c ct Hx1 Hx2 Hx3 Hx4 Hx5 Hx6 Hx7 Hx8 Hx9]; subst.
  - eapply present_here; [by apply list_lookup_insert_eq|done|done].
  - eapply present_below; [by apply attach_leaf_lookup_p|done| |].
    + simpl. apply list_lookup_insert_eq. rewrite Hlt. apply slot_of_lt.
    + eapply present_here; [apply attach_leaf_lookup_new|done|done].
  - destruct (insert_spec fuel h c ct n h' (Ret None) Hinv Hn Hx3 Hx5 Hx6)
      as (_ & _ & HR).
    destruct (HR None eq_refl) as (_ & _ & Hframe & _).
    eapply present_below; [|done|done|by eapply IH].
    apply Hframe; [done|]. by destruct Hx4.
  - pose proof (inv_node _ Hinv _ _ Hx3) as (Hwc & _).
    set (L := 32 - lcbZ n (network ct)) in *.
    assert (0 <= L <= Ones n) as HL' by (destruct Hwt; clearbody L; lia).
    pose proof (inv_split_heap h p t c ct n L Hinv Hp Hx3 Hn Hx1 Hx4 Hx6 Hx7)
      as Hinv2.
    pose proof (split_heap_lookup_new h p t c ct n L) as HP.
    pose proof (or_intror (covers_Masked n L Hn HL') :
                  pre (network (pathNode n L p
                         (slot_of L (Number (network ct))) c)) n) as HpreP.
    destruct (insert_spec fuel _ _ _ n h' (Ret None) Hinv2 Hn HP HpreP Hx9)
      as (_ & _ & HR).
    destruct (HR None eq_refl) as (_ & _ & Hframe & _).
    eapply present_below; [| | |by eapply (IH _ _ _ n h' Hinv2 Hn HP HpreP)].
    + apply Hframe; [by apply split_heap_lookup_p|]. simpl. clearbody L. lia.
    + done.
    + simpl. apply list_lookup_insert_eq. rewrite Hlt. apply slot_of_lt.
Qed.

Lemma present_found h n a p :
  inv h -> wf_network n -> in_range a -> agree (Ones n) a (Number n) ->
  present h n p -> found h a p.
Proof.
  intros Hinv Hn Ha Hag.
  induction 1 as [p t Hp En He|p t c Hp Hext Hslot _ IH].
  - eapply found_here; [done| |done]. rewrite En. by apply Contains_agree.
  - pose proof (inv_node _ Hinv _ _ Hp) as (Hwt & _).
    destruct Hext as [Hlt Hnt].
    assert (rnet.Contains (network t) a = true) as Hc.
    { apply Contains_agree; [done..|].
      eapply agree_trans; [eapply agree_mono; [|exact Hag]; lia|done]. }
    destruct (hasEntry t) eqn:He; [by eapply found_here|].
    eapply found_below; [done..| |done].
    by rewrite (slot_of_agree (Ones n) _ a (Number n)).
Qed.

(** ** What [containingNetworks] returns *)

Lemma containingNetworks_sorted fuel :
  forall h p t a h' l,
    inv h -> h !! p = Some t ->
    containingNetworks fuel p a h = (h', Ret (ok l)) ->
    Forall (fun m => Ones (network t) <= Ones m /\
                     rnet.Contains m a = true /\ is_entry h m) l /\
    StronglySorted shorter l.
Proof.
  induction fuel as [|fuel IH]; intros h p t a h' l Hinv Hp Hrun; [done|].
  pose proof (inv_node _ Hinv _ _ Hp) as Hok.
  pose proof Hok as ((Hl & _) & _ & Hlen).
  cbn [containingNetworks] in Hrun. step_in Hrun (run_load _ _ _ Hp).
  destruct (rnet.Contains (network t) a) eqn:Hc; simpl in Hrun.
  2:{ injection Hrun as <- <-. split; constructor. }
  destruct (Z.eq_dec (Ones (network t)) 32) as [H32|H32].
  { by rewrite targetBitFromIP_full in Hrun. }
  rewrite targetBitFromIP_small in Hrun by (done || lia).
  destruct (lookup_lt_is_Some_2 (children t)
              (slot_of (Ones (network t)) a)) as [slot Hslot].
  { rewrite Hlen. apply slot_of_lt. }
  step_in Hrun (run_index _ _ _ _ _ Hp Hslot).
  assert (Forall (fun m => Ones (network t) <= Ones m /\
                           rnet.Contains m a = true /\ is_entry h m)
            (if hasEntry t then [network t] else []) /\
          StronglySorted shorter (if hasEntry t then [network t] else []))
    as [Hown Hsown].
  { destruct (hasEntry t) eqn:He; [|split; constructor].
    split; [|repeat constructor].
    constructor; [|constructor]. split; [lia|]. split; [done|].
    by exists p, t. }
  destruct slot as [c|].
  2:{ by injection Hrun as <- <-. }
  destruct (inv_child _ Hinv _ _ _ _ Hp Hslot) as (ct & Hct & [Hlt _] & _).
  unfold bind in Hrun.
  destruct (containingNetworks fuel c a h) as [h1 [[ranges|e]| |]] eqn:Hrec;
    try done.
  injection Hrun as <- <-.
  destruct (IH h c ct a h1 ranges Hinv Hct Hrec) as [Hr Hsr].
  split.
  - apply Forall_app. split; [done|].
    eapply Forall_impl; [exact Hr|]. intros m (H1 & H2 & H3).
    split; [lia|done].
  - destruct (hasEntry t); [|done]. simpl.
    apply StronglySorted_cons. split; [|done].
    eapply Forall_impl; [exact Hr|]. intros m (H1 & _). unfold shorter. lia.
Qed.

Lemma run_load_panic (h : heap) p : h !! p = None -> load p h = (h, Panic).
Proof. intros H. unfold load. by rewrite H. Qed.

Lemma run_index_panic (h : heap) p t bit :
  h !! p = Some t -> children t !! Z.to_nat bit = None ->
  index p bit h = (h, Panic).
Proof.
  intros Hp Hc. unfold index. step (run_load _ _ _ Hp). by rewrite Hc.
Qed.

(** [contains] answers whether [containingNetworks] finds anything. *)
Lemma containingNetworks_contains fuel :
  forall (h : heap) p a h' l,
    containingNetworks fuel p a h = (h', Ret (ok l)) ->
    contains fuel p a h =
      (h, Ret (ok (match l with [] => false | _ => true end))).
Proof.
  induction fuel as [|fuel IH]; intros h p a h' l Hrun; [done|].
  cbn [containingNetworks contains] in *.
  destruct (h !! p) as [t|] eqn:Hp.
  2:{ by rewrite (run_bind_panic _ _ _ _ (run_load_panic _ _ Hp)) in Hrun. }
  step_in Hrun (run_load _ _ _ Hp). step (run_load _ _ _ Hp).
  destruct (rnet.Contains (network t) a); cbn [negb] in *; cbv beta match in *.
  2:{ by injection Hrun as <- <-. }
  destruct (targetBitFromIP t a) as [bit|e] eqn:Hbit; [|done].
  destruct (children t !! Z.to_nat bit) as [slot|] eqn:Hslot.
  2:{ by rewrite (run_bind_panic _ _ _ _ (run_index_panic _ _ _ _ Hp Hslot))
        in Hrun. }
  step_in Hrun (run_index _ _ _ _ _ Hp Hslot).
  destruct slot as [c|].
  - unfold bind in Hrun.
    destruct (containingNetworks fuel c a h) as [h1 [[ranges|e]| |]] eqn:Hrec;
      try done.
    injection Hrun as <- <-. destruct (hasEntry t); [done|].
    step (run_index _ _ _ _ _ Hp Hslot). by apply (IH h c a h1).
  - injection Hrun as <- <-. destruct (hasEntry t); [done|].
    by step (run_index _ _ _ _ _ Hp Hslot).
Qed.

(** ** What [remove] changes *)

Lemma remove_atomic fuel :
  forall h p t n h' x,
    inv h -> h !! p = Some t -> remove fuel p n h = (h', Ret x) ->
    length h' = length h /\
    match x with
    | ok (Some m) => m = n
    | _ => h' = h
    end.
Proof.
  induction fuel as [|fuel IH]; intros h p t n h' x Hinv Hp Hrun; [done|].
  pose proof (remove_viewP fuel h p t n Hinv Hp) as V.
  rewrite Hrun in V.
  inversion V as [Hx1 Hx2 Hx3|Hx1 Hx2 Hx3 Hx4|g gt Hx1 Hx2 Hx3 Hx4 Hx5 Hx6
                 |Hx1 Hx2|c ct Hx1 Hx2 Hx3 Hx4 Hx5|Hx1 Hx2]; subst.
  - split; [apply length_insert|done].
  - split; [apply length_insert|done].
  - done.
  - by eapply IH.
  - done.
Qed.

(** ** Parent references of the nodes in child slots *)

Lemma linked_update h h' :
  linked h ->
  (forall q t, h !! q = Some t ->
     exists t', h' !! q = Some t' /\ network t' = network t /\
       (is_Some (parent t) -> is_Some (parent t')) /\
       (q = 0%nat -> parent t' = parent t)) ->
  (forall q t' b c, h' !! q = Some t' -> children t' !! b = Some (Some c) ->
     (exists t, h !! q = Some t /\ children t !! b = Some (Some c)) \/
     (exists ct, h' !! c = Some ct /\ is_Some (parent ct))) ->
  linked h'.
Proof.
  intros [Hch (t0 & H0 & E0 & P0)] Hold Hnew. split.
  - intros q t' b c Hq Hc.
    destruct (Hnew _ _ _ _ Hq Hc) as [(t & Ht & Htc)|?]; [|done].
    destruct (Hch _ _ _ _ Ht Htc) as (ct & Hct & Hpar).
    destruct (Hold _ _ Hct) as (ct' & Hct' & _ & Hkeep & _).
    exists ct'. split; [done|by apply Hkeep].
  - destruct (Hold _ _ H0) as (t0' & H0' & En & _ & Hp0).
    exists t0'. split; [done|]. split; [congruence|].
    rewrite Hp0 by done. done.
Qed.

Lemma linked_store_same h p t t' :
  linked h -> h !! p = Some t ->
  network t' = network t -> parent t' = parent t ->
  (forall b c, children t' !! b = Some (Some c) ->
     children t !! b = Some (Some c) \/
     exists ct, h !! c = Some ct /\ is_Some (parent ct)) ->
  linked (<[p := t']> h).
Proof.
  intros Hl Hp En Ep Hch.
  assert (forall q tq, h !! q = Some tq ->
            exists tq', <[p := t']> h !! q = Some tq' /\
              network tq' = network tq /\ parent tq' = parent tq) as Hold.
  { intros q tq Hq. destruct (decide (p = q)) as [->|Hne].
    - assert (tq = t) as -> by congruence. exists t'.
      split; [apply list_lookup_insert_eq; by eapply lookup_lt_Some|done].
    - exists tq. by rewrite list_lookup_insert_ne. }
  apply (linked_update h); [done| |].
  - intros q tq Hq. destruct (Hold _ _ Hq) as (tq' & Hq' & E1 & E2).
    exists tq'. rewrite E2. done.
  - intros q tq' b c Hq Hc. destruct (decide (p = q)) as [->|Hne].
    + rewrite list_lookup_insert_eq in Hq by (by eapply lookup_lt_Some).
      injection Hq as <-.
      destruct (Hch _ _ Hc) as [?|(ct & Hct & Hpar)]; [left; by exists t|].
      right. destruct (Hold _ _ Hct) as (ct' & Hct' & _ & E2).
      exists ct'. by rewrite E2.
    + rewrite list_lookup_insert_ne in Hq by done. left. by exists tq'.
Qed.

Lemma linked_attach_leaf h p t n :
  linked h -> h !! p = Some t -> linked (attach_leaf h p t n).
Proof.
  intros Hl Hp. pose proof (lookup_lt_Some _ _ _ Hp) as Hplt.
  apply (linked_update h); [done| |].
  - intros q tq Hq. destruct (decide (q = p)) as [->|Hne].
    + assert (tq = t) as -> by congruence. eexists.
      split; [by apply attach_leaf_lookup_p|done].
    + exists tq. split; [|done]. unfold attach_leaf.
      apply lookup_app_l_Some. by rewrite list_lookup_insert_ne.
  - intros q tq' b c Hq Hc.
    destruct (decide (q = length h)) as [->|Hnew].
    { rewrite attach_leaf_lookup_new in Hq. injection Hq as <-.
      simpl in Hc. by destruct b as [|[|?]]. }
    assert (q < length h)%nat as Hqlt.
    { apply lookup_lt_Some in Hq. unfold attach_leaf in Hq.
      rewrite length_app, length_insert in Hq. simpl in Hq. lia. }
    unfold attach_leaf in Hq. rewrite lookup_app_l in Hq
      by (by rewrite length_insert).
    destruct (decide (q = p)) as [->|Hne].
    + rewrite list_lookup_insert_eq in Hq by done. injection Hq as <-.
      simpl in Hc.
      destruct (lookup_insert_slot _ _ _ _ _ Hc) as [[-> Hv]|Hold].
      * injection Hv as <-. right. exists (leafNode n p).
        split; [apply attach_leaf_lookup_new|done].
      * left. by exists t.
    + rewrite list_lookup_insert_ne in Hq by done. left. by exists tq'.
Qed.

Lemma linked_split_heap h p t c ct n L :
  inv h -> linked h -> h !! p = Some t -> h !! c = Some ct ->
  extends (network ct) (network t) ->
  linked (split_heap h p t c ct n L).
Proof.
  intros Hinv Hl Hp Hc Hext.
  pose proof (lookup_lt_Some _ _ _ Hp) as Hplt.
  pose proof (lookup_lt_Some _ _ _ Hc) as Hclt.
  assert (p <> c) as Hpc.
  { intros ->. assert (t = ct) as -> by congruence. destruct Hext. lia. }
  assert (c <> 0%nat) as Hc0.
  { intros ->. destruct Hl as [_ (t0 & H0 & E0 & _)].
    assert (t0 = ct) as -> by congruence.
    pose proof (inv_node _ Hinv _ _ Hp) as ((? & _) & _).
    destruct Hext as [Hlt _]. rewrite E0 in Hlt. simpl in Hlt. lia. }
  apply (linked_update h); [done| |].
  - intros q tq Hq. destruct (decide (q = p)) as [->|Hqp].
    { assert (tq = t) as -> by congruence. eexists.
      split; [by apply split_heap_lookup_p|done]. }
    destruct (decide (q = c)) as [->|Hqc].
    { assert (tq = ct) as -> by congruence. eexists.
      split; [by apply split_heap_lookup_c|]. split; [done|]. split; [|done].
      intros _. by eexists. }
    exists tq. split; [|done]. unfold split_heap.
    apply lookup_app_l_Some. by rewrite !list_lookup_insert_ne.
  - intros q tq' b c' Hq Hc'.
    destruct (decide (q = length h)) as [->|Hnew].
    { rewrite split_heap_lookup_new in Hq. injection Hq as <-.
      simpl in Hc'.
      apply lookup_two_slots in Hc' as [-> Hv]; [|apply slot_of_lt].
      injection Hv as <-. right. eexists.
      split; [by apply split_heap_lookup_c|]. by eexists. }
    assert (q < length h)%nat as Hqlt.
    { apply lookup_lt_Some in Hq. unfold split_heap in Hq.
      rewrite length_app, !length_insert in Hq. simpl in Hq. lia. }
    destruct (lookup_lt_is_Some_2 h q Hqlt) as [tq Htq].
    destruct (decide (q = p)) as [->|Hqp].
    + assert (tq = t) as -> by congruence.
      rewrite split_heap_lookup_p in Hq by done. injection Hq as <-.
      simpl in Hc'.
      destruct (lookup_insert_slot _ _ _ _ _ Hc') as [[-> Hv]|Hold].
      * injection Hv as <-. right. eexists.
        split; [apply split_heap_lookup_new|]. by eexists.
      * left. by exists t.
    + destruct (split_heap_lookup_old h p t c ct n L q tq Hp Hc Hpc Htq)
        as (tq2 & Hq2 & _ & _ & Hsame).
      assert (tq2 = tq') as -> by congruence.
      left. exists tq. split; [done|]. rewrite <- Hsame by done. done.
Qed.

Lemma insert_linked fuel :
  forall h p t n h' e,
    inv h -> linked h -> wf_network n -> h !! p = Some t ->
    pre (network t) n ->
    insert fuel p n h = (h', Ret e) -> linked h'.
Proof.
  induction fuel as [|fuel IH];
    intros h p t n h' e Hinv Hl Hn Hp Hpre Hrun; [done|].
  pose proof (inv_node _ Hinv _ _ Hp) as (Hwt & Hst & Hlt).
  pose proof (insert_viewP fuel h p t n Hinv Hn Hp Hpre) as V.
  rewrite Hrun in V.
  inversion V as [Heq|Hne H32|hx Hx1 Hx2 Hx3|Hx1 Hx2 Hx3
                 |c ct Hx1 Hx2 Hx3 Hx4 Hx5 Hx6
                 |hx c ct Hx1 Hx2 Hx3 Hx4 Hx5 Hx6
                 |c ct Hx1 Hx2 Hx3 Hx4 Hx5 Hx6 Hx7 Hx8 Hx9]; subst.
  - eapply linked_store_same; [done..|]. intros b c Hc. by left.
  - done.
  - by apply linked_attach_leaf.
  - by eapply (IH h c ct n h' e).
  - pose proof (inv_node _ Hinv _ _ Hx3) as (Hwc & _).
    set (L := 32 - lcbZ n (network ct)) in *.
    assert (0 <= L <= Ones n) as HL' by (destruct Hwt; clearbody L; lia).
    destruct (inv_child _ Hinv _ _ _ _ Hp Hx2) as (ct' & Hct' & Hext & _).
    assert (ct' = ct) as -> by congruence.
    eapply (IH (split_heap h p t c ct n L) (length h) _ n h' e).
    + by apply inv_split_heap.
    + by apply linked_split_heap.
    + done.
    + apply split_heap_lookup_new.
    + right. by apply covers_Masked.
    + done.
Qed.

Lemma remove_linked fuel :
  forall h p t n h' x,
    inv h -> linked h -> h !! p = Some t ->
    remove fuel p n h = (h', Ret x) -> linked h'.
Proof.
  induction fuel as [|fuel IH]; intros h p t n h' x Hinv Hl Hp Hrun; [done|].
  pose proof (remove_viewP fuel h p t n Hinv Hp) as V.
  rewrite Hrun in V.
  inversion V as [Hx1 Hx2 Hx3|Hx1 Hx2 Hx3 Hx4|g gt Hx1 Hx2 Hx3 Hx4 Hx5 Hx6
                 |Hx1 Hx2|c ct Hx1 Hx2 Hx3 Hx4 Hx5|Hx1 Hx2]; subst.
  - eapply linked_store_same; [done..|]. intros b c Hc. by left.
  - eapply linked_store_same; [done..|]. intros b c Hc. simpl in Hc.
    destruct (lookup_insert_slot _ _ _ _ _ Hc) as [[-> Hv]|Hold]; [|by left].
    right. destruct (firstChild_Some _ _ Hv) as (b' & Hb').
    by apply (proj1 Hl _ _ _ _ Hp Hb').
  - done.
  - by eapply IH.
  - done.
Qed.

Lemma reachable_linked h : reachable h -> linked h.
Proof.
  induction 1 as [|h fuel net0 h' e Hr IH Hnet Hrun
                  |h fuel net0 h' r Hr IH Hnet Hrun].
  - split.
    + intros [|p] t b c Ht Hc; [|done]. injection Ht as <-.
      by destruct b as [|[|?]].
    + by exists emptyNode.
  - destruct (reachable_root h Hr) as [Hinv (t & Ht & E & E0)].
    eapply (insert_linked fuel h root t (NewNetwork net0) h' e);
      [done|done|by apply NewNetwork_wf|done| |exact Hrun].
    right. rewrite E. by apply covers_rootNet, NewNetwork_wf.
  - destruct (reachable_root h Hr) as [Hinv (t & Ht & E & E0)].
    by eapply (remove_linked fuel h root t).
Qed.

(** [remove] can only panic in the node it is called on. *)
Lemma remove_panic_at fuel :
  forall h p t n h',
    inv h -> linked h -> h !! p = Some t ->
    remove fuel p n h = (h', Panic) ->
    parent t = None /\ hasEntry t = true /\ network t = n /\
    childrenCount t <= 1.
Proof.
  induction fuel as [|fuel IH]; intros h p t n h' Hinv Hl Hp Hrun; [done|].
  pose proof (remove_viewP fuel h p t n Hinv Hp) as V.
  rewrite Hrun in V.
  inversion V as [Hx1 Hx2 Hx3|Hx1 Hx2 Hx3 Hx4|g gt Hx1 Hx2 Hx3 Hx4 Hx5 Hx6
                 |Hx1 Hx2|c ct Hx1 Hx2 Hx3 Hx4 Hx5|Hx1 Hx2]; subst.
  - done.
  - destruct (IH h c ct n h' Hinv Hl Hx3 Hx5) as (Hpar & _).
    destruct (proj1 Hl _ _ _ _ Hp Hx2) as (ct' & Hct' & [g Hg]).
    congruence.
Qed.

(** A present network that is not the node [remove] starts from is found
    and returned. *)
Lemma remove_present h n p :
  inv h -> linked h -> wf_network n -> present h n p ->
  forall fuel t, h !! p = Some t ->
    (network t = n -> is_Some (parent t)) ->
    33 <= Z.of_nat fuel + Ones (network t) ->
    exists h', remove fuel p n h = (h', Ret (ok (Some n))).
Proof.
  intros Hinv Hl Hn.
  induction 1 as [p t Hp En He|p t c Hp Hext Hslot _ IH];
    intros fuel t' Hp' Hpar Hfuel;
    assert (t' = t) as -> by congruence;
    pose proof (inv_node _ Hinv _ _ Hp) as ((Hlen & _) & _);
    (destruct fuel as [|fuel]; [lia|]);
    pose proof (remove_viewP fuel h p t n Hinv Hp) as V.
  - destruct (Hpar En) as [g Hg].
    inversion V as [Hx1 Hx2 Hx3|Hx1 Hx2 Hx3 Hx4|g' gt Hx1 Hx2 Hx3 Hx4 Hx5 Hx6
                   |Hx1 Hx2|c ct Hx1 Hx2 Hx3 Hx4 Hx5|Hx1 Hx2];
      try (by eexists); try congruence;
      rewrite He, (proj2 (Equal_true _ _) En) in Hx1; done.
  - assert (hasEntry t && Equal (network t) n = false) as Hno.
    { apply andb_false_iff. right. apply not_true_is_false.
      intros E. apply Equal_true in E. destruct Hext as [Hlt _].
      rewrite E in Hlt. lia. }
    destruct (inv_child _ Hinv _ _ _ _ Hp Hslot) as (ct & Hct & [Hlt _] & _).
    destruct (proj1 Hl _ _ _ _ Hp Hslot) as (ct' & Hct' & Hcpar).
    assert (ct' = ct) as -> by congruence.
    destruct (IH fuel ct Hct (fun _ => Hcpar)) as [h' Hrun]; [lia|].
    exists h'.
    inversion V as [Hx1 Hx2 Hx3|Hx1 Hx2 Hx3 Hx4|g' gt Hx1 Hx2 Hx3 Hx4 Hx5 Hx6
                   |Hx1 Hx2|c' ct' Hx1 Hx2 Hx3 Hx4 Hx5|Hx1 Hx2];
      try (rewrite Hx1 in Hno; simpl in Hno;
           rewrite (proj2 (Equal_true _ _) Hx2) in Hno; done).
    + destruct Hext as [? _], Hn as [? _]. lia.
    + rewrite Hslot in Hx2. injection Hx2 as <-.
      rewrite <- Hrun. symmetry. exact Hx5.
    + congruence.
Qed.

(** ** When [insert] fails, and how much it allocates *)


Lemma stable_length h h' : stable h h' -> (length h <= length h')%nat.
Proof.
  intros Hst. destruct (decide (length h <= length h')%nat); [done|].
  destruct (lookup_lt_is_Some_2 h (length h')) as [t Ht]; [lia|].
  destruct (Hst _ _ Ht) as (t' & Ht' & _).
  apply lookup_lt_Some in Ht'. lia.
Qed.

Lemma insert_length fuel :
  forall h p t n h' e,
    inv h -> wf_network n -> h !! p = Some t -> pre (network t) n ->
    insert fuel p n h = (h', Ret e) ->
    (length h <= length h' <= length h + 2)%nat.
Proof.
  induction fuel as [|fuel IH];
    intros h p t n h' e Hinv Hn Hp Hpre Hrun; [done|].
  destruct (insert_spec (S fuel) h p t n h' (Ret e) Hinv Hn Hp Hpre Hrun)
    as (_ & _ & HR).
  destruct (HR e eq_refl) as (_ & Hstab & _).
  split; [by apply stable_length|].
  pose proof (inv_node _ Hinv _ _ Hp) as (Hwt & Hst & Hlt).
  pose proof (insert_viewP fuel h p t n Hinv Hn Hp Hpre) as V.
  rewrite Hrun in V.
  inversion V as [Heq|Hne H32|hx Hx1 Hx2 Hx3|Hx1 Hx2 Hx3
                 |c ct Hx1 Hx2 Hx3 Hx4 Hx5 Hx6
                 |hx c ct Hx1 Hx2 Hx3 Hx4 Hx5 Hx6
                 |c ct Hx1 Hx2 Hx3 Hx4 Hx5 Hx6 Hx7 Hx8 Hx9]; subst.
  - rewrite length_insert. lia.
  - lia.
  - unfold attach_leaf. rewrite length_app, length_insert. simpl. lia.
  - destruct (IH h c ct n h' e Hinv Hn Hx3 Hx5 Hx6). lia.
  - assert (network t <> n) as Hne.
    { intros E. destruct Hx1 as [Hlt' _]. rewrite E in Hlt'. lia. }
    destruct (insert_branch_node fuel h p t n c ct h' (Ret e)
                Hinv Hn Hp Hpre Hne Hx2 Hx3 Hx5) as (_ & _ & _ & _ & Hlen);
      [lia|done|done|done].
Qed.

(** ** [level] *)

Lemma int_wrap_small z : - 2 ^ 63 <= z < 2 ^ 63 -> int_wrap z = z.
Proof. intros Hz. unfold int_wrap. rewrite Z.mod_small; lia. Qed.

Lemma level_spec fuel :
  forall h p t,
    inv h -> h !! p = Some t -> Ones (network t) < Z.of_nat fuel ->
    exists l, level fuel p h = (h, Ret l) /\ 0 <= l <= Ones (network t).
Proof.
  induction fuel as [|fuel IH]; intros h p t Hinv Hp Hfuel.
  { pose proof (inv_node _ Hinv _ _ Hp) as ((? & _) & _). lia. }
  pose proof (inv_node _ Hinv _ _ Hp) as ((Hl & _) & _).
  cbn [level]. step (run_load _ _ _ Hp).
  destruct (parent t) as [g|] eqn:Hg.
  - destruct (inv_parent _ Hinv _ _ _ Hp Hg) as (gt & Hgt & [Hlt _]).
    destruct (IH h g gt Hinv Hgt) as (l & Hrun & Hrange); [lia|].
    step Hrun. exists (int_wrap (l + 1)). split; [done|].
    rewrite int_wrap_small by lia. lia.
  - exists 0. split; [done|lia].
Qed.

(** ** [walkDepth] *)

Lemma walkChildren_run (walk : ptr -> M (list Network)) (h : heap)
    (R : ptr -> list Network -> Prop) cs :
  (forall c, Some c ∈ cs -> exists l, walk c h = (h, Ret l) /\ R c l) ->
  exists lss,
    walkChildren walk cs h = (h, Ret (concat lss)) /\
    Forall2 (fun s l => match s with
                        | None => l = []
                        | Some c => R c l
                        end) cs lss.
Proof.
  induction cs as [|s cs IH]; intros Hall.
  - exists []. split; [done|constructor].
  - destruct IH as (lss & Hrun & HF).
    { intros c Hc. apply Hall. by right. }
    destruct s as [c|]; cbn [walkChildren].
    + destruct (Hall c) as (l & Hl & HR); [left|].
      exists (l :: lss). split; [|by constructor].
      step Hl. step Hrun. done.
    + exists ([] :: lss). split; [done|by constructor].
Qed.

Lemma covers_extends_trans c p m :
  extends c p -> covers c m -> covers p m.
Proof.
  intros [H1 H2] [H3 H4]. split; [lia|].
  eapply agree_trans; [eapply agree_mono; [|exact H4]; lia|done].
Qed.

Lemma walkDepth_spec fuel :
  forall h p t,
    inv h -> h !! p = Some t ->
    33 <= Z.of_nat fuel + Ones (network t) ->
    exists l,
      walkDepth fuel p h = (h, Ret l) /\
      (forall m, m ∈ l <-> live_entry h p m) /\
      Forall (covers (network t)) l /\
      NoDup l.
Proof.
  induction fuel as [|fuel IH]; intros h p t Hinv Hp Hfuel.
  { pose proof (inv_node _ Hinv _ _ Hp) as ((? & _) & _). lia. }
  pose proof (inv_node _ Hinv _ _ Hp) as ((Hl & _) & _ & Hlen).
  cbn [walkDepth]. step (run_load _ _ _ Hp).
  destruct (walkChildren_run (walkDepth fuel) h
              (fun c l => (forall m, m ∈ l <-> live_entry h c m) /\
                          (exists ct, h !! c = Some ct /\
                                      Forall (covers (network ct)) l) /\
                          NoDup l)
              (children t)) as (lss & Hrun & HF).
  { intros c Hc. apply list_elem_of_lookup_1 in Hc as [b Hb].
    destruct (inv_child _ Hinv _ _ _ _ Hp Hb) as (ct & Hct & [Hlt _] & _).
    destruct (IH h c ct Hinv Hct) as (l & Hrun & H1 & H2 & H3); [lia|].
    exists l. split; [done|]. split; [done|]. split; [by exists ct|done]. }
  step Hrun. eexists. split; [reflexivity|].
  destruct (children t) as [|s0 [|s1 [|? ?]]] eqn:Hch; try done.
  apply Forall2_cons_inv_l in HF as (l0 & lss' & H0 & HF & ->).
  apply Forall2_cons_inv_l in HF as (l1 & lss'' & H1 & HF & ->).
  apply Forall2_nil_inv_l in HF as ->. simpl concat. rewrite app_nil_r.
  (* what each slot contributes *)
  assert (forall b s l, [s0; s1] !! b = Some s ->
            match s with None => l = [] | Some c =>
              (forall m, m ∈ l <-> live_entry h c m) /\
              (exists ct, h !! c = Some ct /\ Forall (covers (network ct)) l) /\
              NoDup l end ->
            (forall m, m ∈ l ->
               covers (network t) m /\ Ones (network t) < Ones m /\
               slot_of (Ones (network t)) (Number m) = b /\
               live_entry h p m) /\ NoDup l) as Hslot.
  { intros b s l Hb Hs. destruct s as [c|]; [|subst l; split; [|constructor]].
    2:{ intros m Hm. by apply elem_of_nil in Hm. }
    destruct Hs as (Hlive & (ct & Hct & Hcov) & Hnd). split; [|done].
    intros m Hm. rewrite <- Hch in Hb.
    destruct (inv_child _ Hinv _ _ _ _ Hp Hb) as (ct' & Hct' & Hext & Hsl).
    assert (ct' = ct) as -> by congruence.
    rewrite Forall_forall in Hcov. specialize (Hcov m Hm).
    split; [by eapply covers_extends_trans|].
    destruct Hext as [Hlt Hag], Hcov as [Hle Hagm].
    split; [lia|]. split.
    - rewrite <- Hsl. eapply slot_of_agree; [exact Hagm|done].
    - apply Hlive in Hm as (q & tq & Hd & Hq & En & He).
      exists q, tq. split; [|done]. by eapply descendant_child. }
  destruct (Hslot 0%nat s0 l0 eq_refl H0) as [Hm0 Hnd0].
  destruct (Hslot 1%nat s1 l1 eq_refl H1) as [Hm1 Hnd1].
  assert (NoDup (l0 ++ l1)) as Hnd.
  { apply NoDup_app. split; [done|]. split; [|done].
    intros m Hi0 Hi1. destruct (Hm0 m Hi0) as (_ & _ & E0 & _).
    destruct (Hm1 m Hi1) as (_ & _ & E1 & _). congruence. }
  split; [|split].
  - intros m. split.
    + intros Hm. apply elem_of_app in Hm as [Hm|Hm].
      * destruct (hasEntry t) eqn:He; [|by apply elem_of_nil in Hm].
        apply list_elem_of_singleton in Hm as ->.
        exists p, t. split; [constructor|done].
      * apply elem_of_app in Hm as [Hm|Hm];
          [by destruct (Hm0 m Hm) as (_ & _ & _ & ?)
          |by destruct (Hm1 m Hm) as (_ & _ & _ & ?)].
    + intros (q & tq & Hd & Hq & En & He).
      inversion Hd as [|? t' b c ? Ht' Hb Hd']; subst.
      * assert (tq = t) as -> by congruence. rewrite He.
        apply elem_of_app. left. by apply list_elem_of_singleton.
      * assert (t' = t) as -> by congruence. rewrite Hch in Hb.
        assert (live_entry h c (network tq)) as Hlive by (by exists q, tq).
        apply elem_of_app. right. apply elem_of_app.
        destruct b as [|[|?]]; [| |done]; simpl in Hb;
          injection Hb as ->; [left; by apply H0|right; by apply H1].
  - apply Forall_app. split.
    + destruct (hasEntry t); constructor; [apply covers_refl|constructor].
    + apply Forall_forall. intros m Hm.
      apply elem_of_app in Hm as [Hm|Hm];
        [by destruct (Hm0 m Hm) as (? & _)|by destruct (Hm1 m Hm) as (? & _)].
  - apply NoDup_app. split; [|split; [|done]].
    + destruct (hasEntry t); [apply NoDup_singleton|constructor].
    + intros m Hown Hm.
      destruct (hasEntry t); [|by apply elem_of_nil in Hown].
      apply list_elem_of_singleton in Hown as ->.
      apply elem_of_app in Hm as [Hm|Hm];
        [destruct (Hm0 _ Hm) as (_ & ? & _)|destruct (Hm1 _ Hm) as (_ & ? & _)];
        lia.
Qed.

Lemma containingNetworks_live fuel :
  forall h p t a h' l,
    inv h -> h !! p = Some t ->
    containingNetworks fuel p a h = (h', Ret (ok l)) ->
    Forall (live_entry h p) l.
Proof.
  induction fuel as [|fuel IH]; intros h p t a h' l Hinv Hp Hrun; [done|].
  pose proof (inv_node _ Hinv _ _ Hp) as Hok.
  pose proof Hok as ((Hl & _) & _ & Hlen).
  cbn [containingNetworks] in Hrun. step_in Hrun (run_load _ _ _ Hp).
  destruct (rnet.Contains (network t) a) eqn:Hc; simpl in Hrun.
  2:{ injection Hrun as <- <-. constructor. }
  destruct (Z.eq_dec (Ones (network t)) 32) as [H32|H32].
  { by rewrite targetBitFromIP_full in Hrun. }
  rewrite targetBitFromIP_small in Hrun by (done || lia).
  destruct (lookup_lt_is_Some_2 (children t)
              (slot_of (Ones (network t)) a)) as [slot Hslot].
  { rewrite Hlen. apply slot_of_lt. }
  step_in Hrun (run_index _ _ _ _ _ Hp Hslot).
  assert (Forall (live_entry h p) (if hasEntry t then [network t] else []))
    as Hown.
  { destruct (hasEntry t) eqn:He; constructor; [|constructor].
    exists p, t. split; [constructor|done]. }
  destruct slot as [c|].
  2:{ by injection Hrun as <- <-. }
  destruct (inv_child _ Hinv _ _ _ _ Hp Hslot) as (ct & Hct & _).
  unfold bind in Hrun.
  destruct (containingNetworks fuel c a h) as [h1 [[ranges|e]| |]] eqn:Hrec;
    try done.
  injection Hrun as <- <-.
  apply Forall_app. split; [done|].
  eapply Forall_impl; [by eapply (IH h c ct a h1 ranges)|].
  intros m (q & tq & Hd & Hq). exists q, tq. split; [|done].
  by eapply descendant_child.
Qed.

Lemma present_live h n p : present h n p -> live_entry h p n.
Proof.
  induction 1 as [p t Hp En He|p t c Hp Hext Hslot _ IH].
  - exists p, t. split; [constructor|done].
  - destruct IH as (q & tq & Hd & Hq). exists q, tq. split; [|done].
    by eapply descendant_child.
Qed.

Lemma NewNetwork_root net0 :
  valid_ipnet net0 -> PrefixLen net0 = 0 -> NewNetwork net0 = rootNet.
Proof.
  intros Hv H0. pose proof (NewNetwork_wf net0 Hv) as Hwf.
  apply wf_network_eq; [done| |by simpl|].
  - rewrite rootNet_eq. split; [done|]. split; [done|].
    intros i _. apply Z.bits_0.
  - destruct (covers_rootNet _ Hwf) as [_ Hag].
    simpl Ones. rewrite H0. by rewrite rootNet_eq in Hag.
Qed.

Lemma Ones_NewNetwork net0 : Ones (NewNetwork net0) = PrefixLen net0.
Proof. done. Qed.

(** ** What [insert] does to the set of entries *)

Lemma descendant_trans h p q r :
  descendant h p q -> descendant h q r -> descendant h p r.
Proof.
  induction 1 as [p|p t b c q Hp Hb _ IH]; [done|].
  intros Hqr. eapply descendant_child; [done|done|by apply IH].
Qed.

Lemma descendant_grows h h' p q :
  grows h h' -> descendant h p q -> descendant h' p q.
Proof.
  intros Hg. induction 1 as [p|p t b c q Hp Hb _ IH]; [constructor|].
  destruct (Hg _ _ Hp) as (t' & Hp' & _ & _ & Hch).
  eapply descendant_child; [done|by apply Hch|done].
Qed.

Lemma live_grows h h' p m :
  grows h h' -> live_entry h p m -> live_entry h' p m.
Proof.
  intros Hg (q & t & Hd & Hq & En & He).
  destruct (Hg _ _ Hq) as (t' & Hq' & En' & Hflag & _).
  exists q, t'. split; [by eapply descendant_grows|].
  split; [done|]. split; [congruence|by apply Hflag].
Qed.

Lemma descendant_split_heap h p t c ct n L x r :
  h !! p = Some t -> h !! c = Some ct -> p <> c ->
  length (children t) = 2%nat ->
  children t !! slot_of (Ones (network t)) (Number n) = Some (Some c) ->
  descendant h x r -> descendant (split_heap h p t c ct n L) x r.
Proof.
  intros Hp Hc Hpc Hlen Hslot.
  induction 1 as [x|x tx b y r Hx Hb _ IH]; [constructor|].
  destruct (split_heap_lookup_old h p t c ct n L x tx Hp Hc Hpc Hx)
    as (tx' & Hx' & _ & _ & Hch).
  destruct (decide (x = p)) as [->|Hxp].
  - assert (tx = t) as -> by congruence.
    rewrite split_heap_lookup_p in Hx' by done. injection Hx' as <-.
    destruct (decide (b = slot_of (Ones (network t)) (Number n))) as [->|Hb'].
    + assert (y = c) as -> by congruence.
      eapply descendant_child; [by apply split_heap_lookup_p| |].
      { simpl. apply list_lookup_insert_eq. rewrite Hlen. apply slot_of_lt. }
      eapply descendant_child; [apply split_heap_lookup_new| |done].
      simpl. apply list_lookup_insert_eq. simpl. apply slot_of_lt.
    + eapply descendant_child; [by apply split_heap_lookup_p| |done].
      simpl. by rewrite list_lookup_insert_ne.
  - eapply descendant_child; [done| |done]. by rewrite Hch.
Qed.

Lemma live_split_heap h p t c ct n L x m :
  h !! p = Some t -> h !! c = Some ct -> p <> c ->
  length (children t) = 2%nat ->
  children t !! slot_of (Ones (network t)) (Number n) = Some (Some c) ->
  live_entry h x m -> live_entry (split_heap h p t c ct n L) x m.
Proof.
  intros Hp Hc Hpc Hlen Hslot (q & tq & Hd & Hq & En & He).
  destruct (split_heap_lookup_old h p t c ct n L q tq Hp Hc Hpc Hq)
    as (tq' & Hq' & En' & Ee & _).
  exists q, tq'. split; [by apply descendant_split_heap|].
  split; [done|]. split; congruence.
Qed.

(** [insert] keeps every entry. *)
Lemma insert_live fuel :
  forall h p t n h' e,
    inv h -> wf_network n -> h !! p = Some t -> pre (network t) n ->
    insert fuel p n h = (h', Ret e) ->
    forall q m, live_entry h q m -> live_entry h' q m.
Proof.
  induction fuel as [|fuel IH];
    intros h p t n h' e Hinv Hn Hp Hpre Hrun q m Hf; [done|].
  pose proof (inv_node _ Hinv _ _ Hp) as (Hwt & Hst & Hlt).
  pose proof (insert_viewP fuel h p t n Hinv Hn Hp Hpre) as V.
  rewrite Hrun in V.
  inversion V as [Heq|Hne H32|hx Hx1 Hx2 Hx3|Hx1 Hx2 Hx3
                 |c ct Hx1 Hx2 Hx3 Hx4 Hx5 Hx6
                 |hx c ct Hx1 Hx2 Hx3 Hx4 Hx5 Hx6
                 |c ct Hx1 Hx2 Hx3 Hx4 Hx5 Hx6 Hx7 Hx8 Hx9]; subst.
  - eapply live_grows; [by apply grows_set_entry|done].
  - done.
  - eapply live_grows; [by apply grows_attach_leaf|done].
  - by eapply (IH h c ct n h' e).
  - pose proof (inv_node _ Hinv _ _ Hx3) as (Hwc & _).
    set (L := 32 - lcbZ n (network ct)) in *.
    assert (0 <= L <= Ones n) as HL' by (destruct Hwt; clearbody L; lia).
    assert (p <> c) as Hpc.
    { intros ->. assert (t = ct) as -> by congruence. clearbody L. lia. }
    eapply (IH (split_heap h p t c ct n L) (length h) _ n h' e).
    + by apply inv_split_heap.
    + done.
    + apply split_heap_lookup_new.
    + right. by apply covers_Masked.
    + done.
    + by apply live_split_heap.
Qed.

Lemma descendant_outside h x r :
  h !! x = None -> descendant h x r -> r = x.
Proof. intros Hx. inversion 1; [done|congruence]. Qed.

Lemma descendant_set_entry_back h p t v x r :
  h !! p = Some t ->
  descendant (<[p := with_hasEntry t v]> h) x r -> descendant h x r.
Proof.
  intros Hp. induction 1 as [x|x tx b y r Hx Hb _ IH]; [constructor|].
  destruct (decide (x = p)) as [->|Hxp].
  - rewrite list_lookup_insert_eq in Hx by (by eapply lookup_lt_Some).
    injection Hx as <-. by eapply descendant_child.
  - rewrite list_lookup_insert_ne in Hx by done.
    by eapply descendant_child.
Qed.

Lemma attach_leaf_lookup_old h p t n x tx :
  h !! p = Some t -> (x < length h)%nat ->
  attach_leaf h p t n !! x = Some tx ->
  exists tx0, h !! x = Some tx0 /\ network tx = network tx0 /\
    hasEntry tx = hasEntry tx0 /\
    forall b y, children tx !! b = Some (Some y) ->
      (x = p /\ b = slot_of (Ones (network t)) (Number n) /\ y = length h) \/
      children tx0 !! b = Some (Some y).
Proof.
  intros Hp Hlt Hx. unfold attach_leaf in Hx.
  rewrite lookup_app_l in Hx by (by rewrite length_insert).
  destruct (decide (x = p)) as [->|Hxp].
  - rewrite list_lookup_insert_eq in Hx by done. injection Hx as <-.
    exists t. split; [done|]. split; [done|]. split; [done|].
    intros b y Hb. simpl in Hb.
    destruct (decide (b = slot_of (Ones (network t)) (Number n))) as [->|Hne].
    + left. apply list_lookup_insert_Some in Hb as [(_ & Hy & _)|[? _]];
        [|done]. split; [done|]. split; [done|]. congruence.
    + right. by rewrite list_lookup_insert_ne in Hb.
  - rewrite list_lookup_insert_ne in Hx by done.
    exists tx. split; [done|]. split; [done|]. split; [done|].
    intros b y Hb. by right.
Qed.

Lemma descendant_attach_leaf_back h p t n x r :
  h !! p = Some t ->
  descendant (attach_leaf h p t n) x r ->
  r = length h \/ descendant h x r.
Proof.
  intros Hp. induction 1 as [x|x tx b y r Hx Hb _ IH];
    [right; constructor|].
  destruct IH as [->|IH]; [by left|].
  destruct (decide (x < length h)%nat) as [Hlt|Hge].
  - destruct (attach_leaf_lookup_old h p t n x tx Hp Hlt Hx)
      as (tx0 & Hx0 & _ & _ & Hch).
    destruct (Hch _ _ Hb) as [(-> & -> & ->)|Hb0].
    + left. apply (descendant_outside h); [|done].
      apply lookup_ge_None. lia.
    + right. by eapply descendant_child.
  - assert (x = length h) as ->.
    { apply lookup_lt_Some in Hx. unfold attach_leaf in Hx.
      rewrite length_app, length_insert in Hx. simpl in Hx. lia. }
    rewrite attach_leaf_lookup_new in Hx. injection Hx as <-.
    simpl in Hb. by destruct b as [|[|b]].
Qed.

Lemma split_heap_lookup_back h p t c ct n L x tx :
  h !! p = Some t -> h !! c = Some ct -> p <> c -> (x < length h)%nat ->
  split_heap h p t c ct n L !! x = Some tx ->
  exists tx0, h !! x = Some tx0 /\ network tx = network tx0 /\
    hasEntry tx = hasEntry tx0 /\
    forall b y, children tx !! b = Some (Some y) ->
      (x = p /\ b = slot_of (Ones (network t)) (Number n) /\ y = length h) \/
      children tx0 !! b = Some (Some y).
Proof.
  intros Hp Hc Hpc Hlt Hx.
  destruct (lookup_lt_is_Some_2 h x Hlt) as [tx0 Hx0].
  destruct (split_heap_lookup_old h p t c ct n L x tx0 Hp Hc Hpc Hx0)
    as (tx' & Hx' & En & Ee & Hch).
  assert (tx' = tx) as -> by congruence.
  exists tx0. split; [done|]. split; [done|]. split; [done|].
  intros b y Hb.
  destruct (decide (x = p)) as [->|Hxp]; [|right; by rewrite <- Hch].
  assert (tx0 = t) as -> by congruence.
  rewrite split_heap_lookup_p in Hx by done. injection Hx as <-.
  simpl in Hb.
  destruct (decide (b = slot_of (Ones (network t)) (Number n))) as [->|Hne].
  - left. apply list_lookup_insert_Some in Hb as [(_ & Hy & _)|[? _]];
      [|done]. split; [done|]. split; [done|]. congruence.
  - right. by rewrite list_lookup_insert_ne in Hb.
Qed.

Lemma descendant_split_heap_back h p t c ct n L x r :
  inv h -> h !! p = Some t -> h !! c = Some ct -> p <> c ->
  children t !! slot_of (Ones (network t)) (Number n) = Some (Some c) ->
  descendant (split_heap h p t c ct n L) x r ->
  r = length h \/
  (x = length h /\ descendant h c r) \/
  (x <> length h /\ descendant h x r).
Proof.
  intros Hinv Hp Hc Hpc Hslot. induction 1 as [x|x tx b y r Hx Hb _ IH].
  { destruct (decide (x = length h)); [by left|right; right].
    split; [done|constructor]. }
  destruct IH as [->|IH]; [by left|]. right.
  pose proof (lookup_lt_Some _ _ _ Hc) as Hclt.
  destruct (decide (x < length h)%nat) as [Hlt|Hge].
  - right. split; [lia|].
    destruct (split_heap_lookup_back h p t c ct n L x tx Hp Hc Hpc Hlt Hx)
      as (tx0 & Hx0 & _ & _ & Hch).
    destruct (Hch _ _ Hb) as [(-> & -> & ->)|Hb0].
    + destruct IH as [[_ IH]|[? _]]; [|done].
      eapply descendant_child; [exact Hp|exact Hslot|exact IH].
    + destruct (inv_child _ Hinv _ _ _ _ Hx0 Hb0) as (ty & Hy & _).
      apply lookup_lt_Some in Hy.
      destruct IH as [[-> _]|[_ IH]]; [lia|].
      by eapply descendant_child.
  - left. assert (x = length h) as ->.
    { apply lookup_lt_Some in Hx. unfold split_heap in Hx.
      rewrite length_app, !length_insert in Hx. simpl in Hx. lia. }
    split; [done|].
    rewrite split_heap_lookup_new in Hx. injection Hx as <-.
    simpl in Hb.
    assert (y = c) as ->.
    { apply list_lookup_insert_Some in Hb as [(_ & Hy & _)|[_ Hb]];
        [congruence|]. by destruct b as [|[|b]]. }
    destruct IH as [[-> _]|[_ IH]]; [lia|done].
Qed.

(** [insert] adds no entry but the one it was asked for. *)
Lemma insert_live_back fuel :
  forall h p t n h' e,
    inv h -> wf_network n -> h !! p = Some t -> pre (network t) n ->
    insert fuel p n h = (h', Ret e) ->
    forall q m, (q < length h)%nat ->
      live_entry h' q m -> m = n \/ live_entry h q m.
Proof.
  induction fuel as [|fuel IH];
    intros h p t n h' e Hinv Hn Hp Hpre Hrun q m Hq Hf; [done|].
  pose proof (inv_node _ Hinv _ _ Hp) as (Hwt & Hst & Hlt).
  pose proof (insert_viewP fuel h p t n Hinv Hn Hp Hpre) as V.
  rewrite Hrun in V.
  inversion V as [Heq|Hne H32|hx Hx1 Hx2 Hx3|Hx1 Hx2 Hx3
                 |c ct Hx1 Hx2 Hx3 Hx4 Hx5 Hx6
                 |hx c ct Hx1 Hx2 Hx3 Hx4 Hx5 Hx6
                 |c ct Hx1 Hx2 Hx3 Hx4 Hx5 Hx6 Hx7 Hx8 Hx9]; subst.
  - destruct Hf as (r & tr & Hd & Hr & En & He).
    apply (descendant_set_entry_back h p t true) in Hd; [|done].
    destruct (decide (r = p)) as [->|Hrp].
    + rewrite list_lookup_insert_eq in Hr by (by eapply lookup_lt_Some).
      injection Hr as <-. by left.
    + rewrite list_lookup_insert_ne in Hr by done.
      right. by exists r, tr.
  - by right.
  - destruct Hf as (r & tr & Hd & Hr & En & He).
    destruct (decide (r = length h)) as [->|Hne].
    { rewrite attach_leaf_lookup_new in Hr. injection Hr as <-. by left. }
    apply (descendant_attach_leaf_back h p t n) in Hd as [?|Hd]; [done| |done].
    assert (r < length h)%nat as Hlt'.
    { apply lookup_lt_Some in Hr. unfold attach_leaf in Hr.
      rewrite length_app, length_insert in Hr. simpl in Hr. lia. }
    destruct (attach_leaf_lookup_old h p t n r tr Hp Hlt' Hr)
      as (tr0 & Hr0 & En0 & Ee0 & _).
    right. exists r, tr0. split; [done|]. split; [done|]. split; congruence.
  - by eapply (IH h c ct n h' e).
  - pose proof (inv_node _ Hinv _ _ Hx3) as (Hwc & _).
    set (L := 32 - lcbZ n (network ct)) in *.
    assert (0 <= L <= Ones n) as HL' by (destruct Hwt; clearbody L; lia).
    assert (p <> c) as Hpc.
    { intros ->. assert (t = ct) as -> by congruence. clearbody L. lia. }
    assert (length (split_heap h p t c ct n L) = S (length h)) as Hlen.
    { unfold split_heap. rewrite length_app, !length_insert. simpl. lia. }
    assert (m = n \/ live_entry (split_heap h p t c ct n L) q m) as [->|Hs];
      [|by left|].
    { eapply (IH (split_heap h p t c ct n L) (length h) _ n h' e).
      - by apply inv_split_heap.
      - done.
      - apply split_heap_lookup_new.
      - right. by apply covers_Masked.
      - done.
      - lia.
      - done. }
    destruct Hs as (r & tr & Hd & Hr & En & He).
    apply descendant_split_heap_back in Hd; [|done..].
    destruct (decide (r = length h)) as [->|Hne].
    { rewrite split_heap_lookup_new in Hr. by injection Hr as <-. }
    destruct Hd as [?|[[? _]|[_ Hd]]]; [done|lia|].
    assert (r < length h)%nat as Hlt'.
    { apply lookup_lt_Some in Hr. lia. }
    destruct (split_heap_lookup_back h p t c ct n L r tr Hp Hx3 Hpc Hlt' Hr)
      as (tr0 & Hr0 & En0 & Ee0 & _).
    right. exists r, tr0. split; [done|]. split; [done|]. split; congruence.
Qed.

(** ** The queries and the set of entries *)

Lemma descendant_covers h p r :
  inv h -> descendant h p r ->
  forall t tr, h !! p = Some t -> h !! r = Some tr ->
    covers (network t) (network tr).
Proof.
  intros Hinv. induction 1 as [p|p t0 b c r Hp Hb _ IH]; intros t tr Ht Hr.
  - assert (tr = t) as -> by congruence. apply covers_refl.
  - assert (t0 = t) as -> by congruence.
    destruct (inv_child _ Hinv _ _ _ _ Hp Hb) as (ct & Hc & Hext & _).
    eapply covers_extends_trans; [exact Hext|by apply IH].
Qed.

(** The descent for an address passes through every node whose network
    contains the address. *)
Lemma descendant_slot h p t b c r tr a :
  inv h -> in_range a ->
  h !! p = Some t -> children t !! b = Some (Some c) ->
  descendant h c r -> h !! r = Some tr ->
  rnet.Contains (network tr) a = true ->
  rnet.Contains (network t) a = true /\ Ones (network t) < 32 /\
  children t !! slot_of (Ones (network t)) a = Some (Some c).
Proof.
  intros Hinv Ha Hp Hb Hd Hr Hin.
  destruct (inv_child _ Hinv _ _ _ _ Hp Hb) as (ct & Hc & Hext & Hslot).
  pose proof (inv_node _ Hinv _ _ Hp) as (Hwt & _).
  pose proof (inv_node _ Hinv _ _ Hc) as (Hwc & _).
  pose proof (inv_node _ Hinv _ _ Hr) as (Hwr & _).
  pose proof (descendant_covers h c r Hinv Hd ct tr Hc Hr) as [Hle Hag].
  apply Contains_agree in Hin; [|done..].
  assert (agree (Ones (network ct)) a (Number (network ct))) as Hac.
  { eapply agree_trans; [eapply agree_mono; [|exact Hin]; lia|done]. }
  destruct Hext as [Hlt Hag'].
  split; [|split].
  - apply Contains_agree; [done..|].
    eapply agree_trans; [eapply agree_mono; [|exact Hac]; lia|done].
  - destruct Hwc as [? _]. lia.
  - rewrite (slot_of_agree (Ones (network ct)) (Ones (network t)) a
               (Number (network ct))) by done.
    by rewrite Hslot.
Qed.

Lemma live_found h a p r tr :
  inv h -> in_range a -> descendant h p r ->
  h !! r = Some tr -> hasEntry tr = true ->
  rnet.Contains (network tr) a = true ->
  found h a p.
Proof.
  intros Hinv Ha Hd Hr He Hin.
  induction Hd as [p|p t b c r Hp Hb Hd IH].
  - by eapply found_here.
  - destruct (descendant_slot h p t b c r tr a Hinv Ha Hp Hb Hd Hr Hin)
      as (Hct & _ & Hslot).
    destruct (hasEntry t) eqn:Het.
    + by eapply found_here.
    + eapply found_below; [done..|by apply IH].
Qed.

Lemma found_live h a p :
  found h a p ->
  exists m, live_entry h p m /\ rnet.Contains m a = true.
Proof.
  induction 1 as [p t Hp Hc He|p t c Hp Hc He Hslot _ IH].
  - exists (network t). split; [|done]. exists p, t.
    split; [constructor|done].
  - destruct IH as (m & (q & tq & Hd & Hq) & Hm). exists m. split; [|done].
    exists q, tq. split; [by eapply descendant_child|done].
Qed.

(** [containingNetworks] misses no entry that contains the address. *)
Lemma containingNetworks_complete fuel :
  forall h p t a h' l,
    inv h -> in_range a -> h !! p = Some t ->
    containingNetworks fuel p a h = (h', Ret (ok l)) ->
    forall r tr, descendant h p r -> h !! r = Some tr ->
      hasEntry tr = true -> rnet.Contains (network tr) a = true ->
      network tr ∈ l.
Proof.
  induction fuel as [|fuel IH];
    intros h p t a h' l Hinv Ha Hp Hrun r tr Hd Hr He Hin; [done|].
  pose proof (inv_node _ Hinv _ _ Hp) as Hok.
  pose proof Hok as ((Hl & _) & _ & Hlen).
  cbn [containingNetworks] in Hrun. step_in Hrun (run_load _ _ _ Hp).
  assert (rnet.Contains (network t) a = true) as Hc.
  { inversion Hd as [|? t0 b c ? Hp0 Hb Hd']; subst.
    - congruence.
    - assert (t0 = t) as -> by congruence.
      by destruct (descendant_slot h p t b c r tr a). }
  rewrite Hc in Hrun. simpl in Hrun.
  destruct (Z.eq_dec (Ones (network t)) 32) as [H32|H32].
  { by rewrite targetBitFromIP_full in Hrun. }
  rewrite targetBitFromIP_small in Hrun by (done || lia).
  destruct (lookup_lt_is_Some_2 (children t)
              (slot_of (Ones (network t)) a)) as [slot Hslot].
  { rewrite Hlen. apply slot_of_lt. }
  step_in Hrun (run_index _ _ _ _ _ Hp Hslot).
  inversion Hd as [|? t0 b c ? Hp0 Hb Hd']; subst.
  - assert (tr = t) as -> by congruence. rewrite He in Hrun.
    destruct slot as [c|].
    + unfold bind in Hrun.
      destruct (containingNetworks fuel c a h) as [h1 [[ranges|e]| |]];
        try done.
      injection Hrun as <- <-. simpl. by left.
    + injection Hrun as <- <-. simpl. by left.
  - assert (t0 = t) as -> by congruence.
    destruct (descendant_slot h p t b c r tr a Hinv Ha Hp Hb Hd' Hr Hin)
      as (_ & _ & Hslot').
    assert (slot = Some c) as -> by congruence.
    destruct (inv_child _ Hinv _ _ _ _ Hp Hslot) as (ct & Hct & _).
    unfold bind in Hrun.
    destruct (containingNetworks fuel c a h) as [h1 [[ranges|e]| |]] eqn:Hrec;
      try done.
    injection Hrun as <- <-.
    apply elem_of_app. right.
    by eapply (IH h c ct a h1 ranges).
Qed.

(** ** What [remove] does to the set of entries *)

Lemma descendant_splice_back h p t g gt s x r :
  h !! p = Some t -> h !! g = Some gt ->
  descendant
    (<[g := with_children gt (<[s := firstChild t]> (children gt))]> h) x r ->
  descendant h x r \/ descendant h p r.
Proof.
  intros Hp Hg. induction 1 as [x|x tx b y r Hx Hb _ IHd];
    [left; constructor|].
  destruct IHd as [IHd|IHd]; [|by right].
  destruct (decide (x = g)) as [->|Hxg].
  - rewrite list_lookup_insert_eq in Hx by (by eapply lookup_lt_Some).
    injection Hx as <-. simpl in Hb.
    destruct (decide (b = s)) as [->|Hbs].
    + apply list_lookup_insert_Some in Hb as [(_ & Hy & _)|[? _]]; [|done].
      destruct (firstChild_Some _ _ Hy) as (b' & Hb').
      right. by eapply descendant_child.
    + rewrite list_lookup_insert_ne in Hb by done.
      left. by eapply descendant_child.
  - rewrite list_lookup_insert_ne in Hx by done.
    left. by eapply descendant_child.
Qed.

Lemma remove_live_back fuel :
  forall h p t n h' x q,
    inv h -> h !! p = Some t -> descendant h q p ->
    remove fuel p n h = (h', Ret x) ->
    forall m, live_entry h' q m -> live_entry h q m.
Proof.
  induction fuel as [|fuel IH];
    intros h p t n h' x q Hinv Hp Hqp Hrun m Hm; [done|].
  pose proof (remove_viewP fuel h p t n Hinv Hp) as V.
  rewrite Hrun in V.
  inversion V as [Hx1 Hx2 Hx3|Hx1 Hx2 Hx3 Hx4|g gt Hx1 Hx2 Hx3 Hx4 Hx5 Hx6
                 |Hx1 Hx2|c ct Hx1 Hx2 Hx3 Hx4 Hx5|Hx1 Hx2]; subst.
  - (* the entry flag is cleared *)
    destruct Hm as (r & tr & Hd & Hr & En & He).
    apply (descendant_set_entry_back h p t false) in Hd; [|done].
    destruct (decide (r = p)) as [->|Hrp].
    + rewrite list_lookup_insert_eq in Hr by (by eapply lookup_lt_Some).
      by injection Hr as <-.
    + rewrite list_lookup_insert_ne in Hr by done. by exists r, tr.
  - (* the node is spliced out of the node its parent reference names *)
    destruct Hm as (r & tr & Hd & Hr & En & He).
    assert (descendant h q r) as Hd'.
    { destruct (descendant_splice_back h p t g gt _ q r Hp Hx5 Hd)
        as [?|Hpr]; [done|].
      by eapply descendant_trans. }
    destruct (decide (r = g)) as [->|Hrg].
    + rewrite list_lookup_insert_eq in Hr by (by eapply lookup_lt_Some).
      injection Hr as <-. by exists g, gt.
    + rewrite list_lookup_insert_ne in Hr by done. by exists r, tr.
  - done.
  - eapply (IH h c ct n h' x q); [done|done| |done|done].
    eapply descendant_trans; [done|].
    eapply descendant_child; [done|done|constructor].
  - done.
Qed.

Lemma reachable_allTrie : reachable allTrie.
Proof.
  eapply (reach_Insert _ depth (cidr 0 0 0 0 0) _ None).
  - apply reachable_emptyTrie.
  - apply valid_cidr; lia.
  - by vm_compute.
Qed.

Lemma pre_root t n : network t = rootNet -> wf_network n -> pre (network t) n.
Proof. intros E Hn. right. rewrite E. by apply covers_rootNet. Qed.

(** ** Further properties of the operations *)

(** X1.  The shape of every reachable arena: the root stands for 0.0.0.0/0
    and has no parent; every node stores a masked network whose prefix
    length is its [numBitsSkipped] and has two child slots; and the node in
    an occupied slot has a strictly longer prefix that extends the node's
    own, selects that slot by its bit at the node's target position, and has
    a parent reference. *)
Theorem X1_reachable_structure h :
  reachable h ->
  (exists t0, h !! root = Some t0 /\ network t0 = rootNet /\
              parent t0 = None) /\
  forall p t, h !! p = Some t ->
    wf_network (network t) /\ numBitsSkipped t = Ones (network t) /\
    length (children t) = 2%nat /\
    forall b c, children t !! b = Some (Some c) ->
      exists ct, h !! c = Some ct /\
        extends (network ct) (network t) /\
        slot_of (numBitsSkipped t) (Number (network ct)) = b /\
        is_Some (parent ct).
Proof.
  intros Hr. destruct (reachable_inv h Hr) as [Hinv _].
  destruct (reachable_linked h Hr) as [Hch Hroot].
  split; [done|]. intros p t Hp.
  destruct (inv_node _ Hinv _ _ Hp) as (H1 & H2 & H3).
  split; [done|]. split; [done|]. split; [done|]. intros b c Hc.
  destruct (inv_child _ Hinv _ _ _ _ Hp Hc) as (ct & Hct & Hext & Hs).
  destruct (Hch _ _ _ _ Hp Hc) as (ct' & Hct' & Hpar).
  assert (ct' = ct) as -> by congruence.
  exists ct. rewrite H2. done.
Qed.

Lemma X1_reachable_structure_witness :
  (exists t0, scenarioA !! root = Some t0 /\ network t0 = rootNet /\
              parent t0 = None) /\
  forall p t, scenarioA !! p = Some t ->
    wf_network (network t) /\ numBitsSkipped t = Ones (network t) /\
    length (children t) = 2%nat /\
    forall b c, children t !! b = Some (Some c) ->
      exists ct, scenarioA !! c = Some ct /\
        extends (network ct) (network t) /\
        slot_of (numBitsSkipped t) (Number (network ct)) = b /\
        is_Some (parent ct).
Proof. apply (X1_reachable_structure scenarioA). apply reachable_scenarioA. Defined.



(** X3.  Insert, then look up: after an [Insert] that returned no error,
    [Contains] answers true for every address inside the inserted
    network. *)
Theorem X3_Insert_then_Contains h net0 fuel h' ip a fuel' :
  reachable h -> valid_ipnet net0 ->
  Insert fuel root net0 h = (h', Ret None) ->
  NewNetworkNumber ip = Some a ->
  rnet.Contains (NewNetwork net0) a = true ->
  (depth <= fuel')%nat ->
  Contains fuel' root ip h' = (h', Ret (ok true)).
Proof.
  intros Hr Hnet Hrun Hip Hin Hfuel.
  destruct (reachable_root h Hr) as [Hinv (t & Ht & E & _)].
  pose proof (NewNetwork_wf net0 Hnet) as Hwf.
  pose proof (NewNetworkNumber_range _ _ Hip) as Ha.
  assert (reachable h') as Hr' by (by eapply reach_Insert).
  destruct (reachable_root h' Hr') as [Hinv' (t' & Ht' & E' & E0')].
  pose proof (insert_present fuel h root t _ h' Hinv Hwf Ht
                (pre_root t _ E Hwf) Hrun) as Hpres.
  unfold Contains. rewrite Hip.
  eapply found_contains; [done| |done|unfold depth in Hfuel; lia].
  eapply present_found; [done|exact Hwf|done| |done].
  by apply Contains_agree.
Qed.

Lemma X3_Insert_then_Contains_witness :
  Contains depth root ip_192_168_1_5 scenarioA = (scenarioA, Ret (ok true)).
Proof.
  apply (X3_Insert_then_Contains nestedTrie (cidr 192 168 1 0 24) depth
           scenarioA ip_192_168_1_5 (ip4 192 168 1 5) depth).
  - apply reachable_nestedTrie.
  - apply valid_cidr; lia.
  - vm_compute. reflexivity.
  - vm_compute. reflexivity.
  - vm_compute. reflexivity.
  - lia.
Defined.

(** X4.  [Insert] never hides an address: an address for which [Contains]
    answered true before an [Insert] (whether it succeeded or failed) is
    still answered true afterwards. *)
Theorem X4_Insert_keeps_Contains h net0 fuel h' e ip f1 h1 f2 :
  reachable h -> valid_ipnet net0 ->
  Insert fuel root net0 h = (h', Ret e) ->
  Contains f1 root ip h = (h1, Ret (ok true)) ->
  (depth <= f2)%nat ->
  Contains f2 root ip h' = (h', Ret (ok true)).
Proof.
  intros Hr Hnet Hrun Hbefore Hfuel.
  destruct (reachable_root h Hr) as [Hinv (t & Ht & E & _)].
  pose proof (NewNetwork_wf net0 Hnet) as Hwf.
  assert (reachable h') as Hr' by (by eapply reach_Insert).
  destruct (reachable_root h' Hr') as [Hinv' (t' & Ht' & E' & E0')].
  unfold Contains in *.
  destruct (NewNetworkNumber ip) as [a|] eqn:Hip; [|done].
  pose proof (NewNetworkNumber_range _ _ Hip) as Ha.
  eapply found_contains; [done| |done|unfold depth in Hfuel; lia].
  eapply (insert_found fuel h root t _ h' e a); [done..|by apply pre_root|done|done|].
  by eapply contains_found.
Qed.

Lemma X4_Insert_keeps_Contains_witness :
  Contains depth root ip_192_168_0_1 scenarioA = (scenarioA, Ret (ok true)).
Proof.
  apply (X4_Insert_keeps_Contains nestedTrie (cidr 192 168 1 0 24) depth
           scenarioA None ip_192_168_0_1 depth nestedTrie depth).
  - apply reachable_nestedTrie.
  - apply valid_cidr; lia.
  - vm_compute. reflexivity.
  - vm_compute. reflexivity.
  - lia.
Defined.

(** X5.  What [ContainingNetworks] returns is ordered by strictly
    increasing prefix length, and every network in it contains the queried
    address and is the network of a node with an entry in the trie; the
    arena is left as it was. *)
Theorem X5_ContainingNetworks_sorted h fuel ip h' l :
  reachable h ->
  ContainingNetworks fuel root ip h = (h', Ret (ok l)) ->
  h' = h /\ StronglySorted shorter l /\
  Forall (fun m => live_entry h root m /\
            exists a, NewNetworkNumber ip = Some a /\
                      rnet.Contains m a = true) l.
Proof.
  intros Hr Hrun.
  destruct (reachable_root h Hr) as [Hinv (t & Ht & E & _)].
  unfold ContainingNetworks in Hrun.
  destruct (NewNetworkNumber ip) as [a|] eqn:Hip; [|done].
  destruct (containingNetworks_spec fuel h root t a Hinv Ht) as (Hsame & _).
  rewrite Hrun in Hsame. simpl in Hsame. subst h'.
  destruct (containingNetworks_sorted fuel h root t a h l Hinv Ht Hrun)
    as [Hall Hsorted].
  pose proof (containingNetworks_live fuel h root t a h l Hinv Ht Hrun)
    as Hlive.
  split; [done|]. split; [done|].
  apply Forall_forall. intros m Hm.
  rewrite Forall_forall in Hall, Hlive.
  destruct (Hall m Hm) as (_ & Hc & _).
  split; [by apply Hlive|]. by exists a.
Qed.

Lemma X5_ContainingNetworks_sorted_witness :
  scenarioA = scenarioA /\
  StronglySorted shorter [net 192 168 0 0 24; net 192 168 0 0 25] /\
  Forall (fun m => live_entry scenarioA root m /\
            exists a, NewNetworkNumber ip_192_168_0_1 = Some a /\
                      rnet.Contains m a = true)
         [net 192 168 0 0 24; net 192 168 0 0 25].
Proof.
  apply (X5_ContainingNetworks_sorted scenarioA depth ip_192_168_0_1).
  - apply reachable_scenarioA.
  - vm_compute. reflexivity.
Defined.

(** X6.  [Contains] and [ContainingNetworks] agree, on any arena and from
    any node: whenever [ContainingNetworks] returns a list, [Contains]
    returns without error, and it answers true exactly when that list is not
    empty. *)
Theorem X6_Contains_agrees_with_ContainingNetworks
    (h : list PrefixTrie) fuel p ip h' l :
  ContainingNetworks fuel p ip h = (h', Ret (ok l)) ->
  Contains fuel p ip h =
    (h, Ret (ok (match l with [] => false | _ => true end))).
Proof.
  unfold ContainingNetworks, Contains.
  destruct (NewNetworkNumber ip) as [a|]; [|done].
  apply containingNetworks_contains.
Qed.

Lemma X6_Contains_agrees_with_ContainingNetworks_witness :
  Contains depth root ip_10_0_0_1 scenarioA = (scenarioA, Ret (ok false)).
Proof.
  apply (X6_Contains_agrees_with_ContainingNetworks scenarioA depth root
           ip_10_0_0_1 scenarioA []).
  vm_compute. reflexivity.
Defined.

(** X7.  The two queries only read: on every reachable arena, with any
    recursion budget and for any byte slice, [Contains] and
    [ContainingNetworks] leave the arena as it was and never panic. *)
Theorem X7_queries_read_only h fuel ip :
  reachable h ->
  fst (Contains fuel root ip h) = h /\
  snd (Contains fuel root ip h) <> Panic /\
  fst (ContainingNetworks fuel root ip h) = h /\
  snd (ContainingNetworks fuel root ip h) <> Panic.
Proof.
  intros Hr. destruct (reachable_root h Hr) as [Hinv (t & Ht & _)].
  unfold Contains, ContainingNetworks.
  destruct (NewNetworkNumber ip) as [a|]; [|done].
  destruct (contains_spec fuel h root t a Hinv Ht) as (H1 & H2 & _).
  destruct (containingNetworks_spec fuel h root t a Hinv Ht) as (H3 & H4 & _).
  done.
Qed.

Lemma X7_queries_read_only_witness :
  fst (Contains depth root ip_1_2_3_4 hostTrie) = hostTrie /\
  snd (Contains depth root ip_1_2_3_4 hostTrie) <> Panic /\
  fst (ContainingNetworks depth root ip_1_2_3_4 hostTrie) = hostTrie /\
  snd (ContainingNetworks depth root ip_1_2_3_4 hostTrie) <> Panic.
Proof.
  apply (X7_queries_read_only hostTrie depth ip_1_2_3_4).
  apply reachable_hostTrie.
Defined.

(** X8.  What [Remove] may change: it never allocates; when it reports "not
    found" or an error the arena is exactly as before; and when it returns a
    network, that network is the one it was asked to remove. *)
Theorem X8_Remove_outcome h net0 fuel h' x :
  reachable h -> valid_ipnet net0 ->
  Remove fuel root net0 h = (h', Ret x) ->
  length h' = length h /\
  match x with
  | ok (Some m) => m = NewNetwork net0
  | _ => h' = h
  end.
Proof.
  intros Hr Hnet Hrun.
  destruct (reachable_root h Hr) as [Hinv (t & Ht & _)].
  by eapply (remove_atomic fuel h root t).
Qed.

Lemma X8_Remove_outcome_witness :
  length (fst (Remove depth root (cidr 10 0 0 0 8) scenarioA))
    = length scenarioA /\
  fst (Remove depth root (cidr 10 0 0 0 8) scenarioA) = scenarioA.
Proof.
  apply (X8_Remove_outcome scenarioA (cidr 10 0 0 0 8) depth _ (ok None)).
  - apply reachable_scenarioA.
  - apply valid_cidr; lia.
  - vm_compute. reflexivity.
Defined.

(** X9.  [Remove] panics in exactly one situation: the network is the
    all-addresses network 0.0.0.0/0 and the root has its entry flag set and
    at most one child. *)
Theorem X9_Remove_panics_only_at_root h net0 fuel :
  reachable h -> valid_ipnet net0 -> (1 <= fuel)%nat ->
  snd (Remove fuel root net0 h) = Panic <->
  PrefixLen net0 = 0 /\
  exists t, h !! root = Some t /\ hasEntry t = true /\ childrenCount t <= 1.
Proof.
  intros Hr Hnet Hfuel.
  destruct (reachable_root h Hr) as [Hinv (t & Ht & E & E0)].
  pose proof (reachable_linked h Hr) as Hl.
  split.
  - intros Hpanic.
    destruct (Remove fuel root net0 h) as [h' r] eqn:Hrun.
    simpl in Hpanic. subst r.
    destruct (remove_panic_at fuel h root t _ h' Hinv Hl Ht Hrun)
      as (_ & He & En & Hcnt).
    split; [|by exists t].
    rewrite <- Ones_NewNetwork, <- En. done.
  - intros [H0 (t' & Ht' & He & Hcnt)]. unfold root in *.
    assert (t' = t) as -> by congruence.
    destruct Hl as [_ (t0 & Ht0 & _ & Hpar)].
    assert (t0 = t) as -> by congruence.
    destruct fuel as [|fuel]; [lia|].
    pose proof (remove_viewP fuel h 0%nat t (NewNetwork net0) Hinv Ht) as V.
    pose proof (NewNetwork_root net0 Hnet H0) as En.
    assert (hasEntry t && Equal (network t) (NewNetwork net0) = true) as Hyes.
    { rewrite He. simpl. apply Equal_true. congruence. }
    apply andb_true_iff in Hyes as [_ Heq]. apply Equal_true in Heq.
    unfold Remove.
    assert (hasEntry t && Equal (network t) (NewNetwork net0) <> false)
      as Hno by (rewrite He; simpl; by apply not_false_iff_true, Equal_true).
    destruct (remove (S fuel) 0%nat (NewNetwork net0) h) as [h' r].
    inversion V as [Hx1 Hx2 Hx3|Hx1 Hx2 Hx3 Hx4|g gt Hx1 Hx2 Hx3 Hx4 Hx5 Hx6
                   |Hx1 Hx2|c ct Hx1 Hx2 Hx3 Hx4 Hx5|Hx1 Hx2].
    + lia.
    + done.
    + congruence.
    + done.
    + done.
    + done.
Qed.

Lemma X9_Remove_panics_only_at_root_witness :
  snd (Remove depth root (cidr 0 0 0 0 0) allTrie) = Panic <->
  PrefixLen (cidr 0 0 0 0 0) = 0 /\
  exists t, allTrie !! root = Some t /\ hasEntry t = true /\
            childrenCount t <= 1.
Proof.
  apply (X9_Remove_panics_only_at_root allTrie (cidr 0 0 0 0 0) depth).
  - apply reachable_allTrie.
  - apply valid_cidr; lia.
  - unfold depth. lia.
Defined.

(** X10.  Insert, then remove: after an [Insert] that returned no error of
    a network other than 0.0.0.0/0, [Remove] of that network finds it and
    returns it. *)
Theorem X10_Insert_then_Remove h net0 fuel h' fuel' :
  reachable h -> valid_ipnet net0 -> PrefixLen net0 <> 0 ->
  Insert fuel root net0 h = (h', Ret None) ->
  (depth <= fuel')%nat ->
  exists h'',
    Remove fuel' root net0 h' = (h'', Ret (ok (Some (NewNetwork net0)))).
Proof.
  intros Hr Hnet Hlen Hrun Hfuel.
  destruct (reachable_root h Hr) as [Hinv (t & Ht & E & _)].
  pose proof (NewNetwork_wf net0 Hnet) as Hwf.
  assert (reachable h') as Hr' by (by eapply reach_Insert).
  destruct (reachable_root h' Hr') as [Hinv' (t' & Ht' & E' & E0')].
  pose proof (reachable_linked h' Hr') as Hl'.
  pose proof (insert_present fuel h root t _ h' Hinv Hwf Ht
                (pre_root t _ E Hwf) Hrun) as Hpres.
  eapply (remove_present h' _ root Hinv' Hl' Hwf Hpres fuel' t' Ht').
  - intros En. exfalso. apply Hlen.
    rewrite <- Ones_NewNetwork, <- En, E'. done.
  - unfold depth in Hfuel. lia.
Qed.

Lemma X10_Insert_then_Remove_witness :
  exists h'',
    Remove depth root (cidr 192 168 1 0 24) scenarioA
      = (h'', Ret (ok (Some (NewNetwork (cidr 192 168 1 0 24))))).
Proof.
  apply (X10_Insert_then_Remove nestedTrie (cidr 192 168 1 0 24) depth
           scenarioA depth).
  - apply reachable_nestedTrie.
  - apply valid_cidr; lia.
  - simpl. lia.
  - vm_compute. reflexivity.
  - lia.
Defined.

(** X11.  Path compression bounds the growth: one [Insert] allocates at most
    two nodes (a branch node and a leaf), and never shrinks the arena. *)
Theorem X11_Insert_allocates_at_most_two h net0 fuel h' e :
  reachable h -> valid_ipnet net0 ->
  Insert fuel root net0 h = (h', Ret e) ->
  (length h <= length h' <= length h + 2)%nat.
Proof.
  intros Hr Hnet Hrun.
  destruct (reachable_root h Hr) as [Hinv (t & Ht & E & _)].
  pose proof (NewNetwork_wf net0 Hnet) as Hwf.
  by eapply (insert_length fuel h root t _ h' e Hinv Hwf Ht
               (pre_root t _ E Hwf)).
Qed.

Lemma X11_Insert_allocates_at_most_two_witness :
  (length nestedTrie <= length scenarioA <= length nestedTrie + 2)%nat.
Proof.
  apply (X11_Insert_allocates_at_most_two nestedTrie (cidr 192 168 1 0 24)
           depth scenarioA None).
  - apply reachable_nestedTrie.
  - apply valid_cidr; lia.
  - vm_compute. reflexivity.
Defined.

(** X12.  [level] walks the parent references of any node of a reachable
    arena to their end without panic, leaves the arena as it was and returns
    a number between 0 and the node's [numBitsSkipped] (also when a parent
    reference is stale); the level of the root is 0. *)
Theorem X12_level_bounded h fuel p t :
  reachable h -> h !! p = Some t -> (depth <= fuel)%nat ->
  (exists l, level fuel p h = (h, Ret l) /\ 0 <= l <= numBitsSkipped t) /\
  level fuel root h = (h, Ret 0).
Proof.
  intros Hr Hp Hfuel. unfold depth in Hfuel.
  destruct (reachable_inv h Hr) as [Hinv _].
  destruct (inv_node _ Hinv _ _ Hp) as ((Hl & _) & Hs & _).
  split.
  - rewrite Hs. apply level_spec; [done|done|lia].
  - destruct (reachable_linked h Hr) as [_ (t0 & Ht0 & _ & Hpar)].
    destruct fuel as [|fuel]; [lia|].
    cbn [level]. step (run_load _ _ _ Ht0). by rewrite Hpar.
Qed.

Lemma X12_level_bounded_witness :
  (exists l, level depth 2%nat scenarioA = (scenarioA, Ret l) /\
             0 <= l <= 25) /\
  level depth root scenarioA = (scenarioA, Ret 0).
Proof.
  apply (X12_level_bounded scenarioA depth 2%nat
           (mkPrefixTrie (Some 1%nat) [None; None] 25 1
              (net 192 168 0 0 25) true)).
  - apply reachable_scenarioA.
  - vm_compute. reflexivity.
  - lia.
Defined.

(** X13.  [walkDepth] from the root of a reachable arena delivers, without
    panic and without touching the arena, each network that has an entry in
    a node reachable through child slots, and delivers it once. *)
Theorem X13_walkDepth_lists_entries h fuel :
  reachable h -> (depth <= fuel)%nat ->
  exists l, walkDepth fuel root h = (h, Ret l) /\ NoDup l /\
            forall m, m ∈ l <-> live_entry h root m.
Proof.
  intros Hr Hfuel. unfold depth in Hfuel.
  destruct (reachable_root h Hr) as [Hinv (t & Ht & _ & E0)].
  destruct (walkDepth_spec fuel h root t Hinv Ht) as (l & H1 & H2 & _ & H3);
    [lia|].
  by exists l.
Qed.

Lemma X13_walkDepth_lists_entries_witness :
  exists l, walkDepth depth root scenarioA = (scenarioA, Ret l) /\ NoDup l /\
            forall m, m ∈ l <-> live_entry scenarioA root m.
Proof.
  apply (X13_walkDepth_lists_entries scenarioA depth).
  - apply reachable_scenarioA.
  - lia.
Defined.


(** X14.  Whenever [ContainingNetworks] returns a list, the list holds
    exactly those networks that [walkDepth] delivers and that contain the
    queried address. *)
Theorem X14_ContainingNetworks_exact h f ip a h' l fuel :
  reachable h -> NewNetworkNumber ip = Some a -> (depth <= fuel)%nat ->
  ContainingNetworks f root ip h = (h', Ret (ok l)) ->
  exists w, walkDepth fuel root h = (h, Ret w) /\
    forall m, m ∈ l <-> m ∈ w /\ rnet.Contains m a = true.
Proof.
  intros Hr Hip Hfuel Hrun.
  destruct (reachable_root h Hr) as [Hinv (t & Ht & _ & E0)].
  pose proof (NewNetworkNumber_range _ _ Hip) as Ha.
  destruct (walkDepth_spec fuel h root t Hinv Ht) as (w & Hw & Hmem & _).
  { unfold depth in Hfuel. lia. }
  exists w. split; [done|]. intros m.
  unfold ContainingNetworks in Hrun. rewrite Hip in Hrun.
  split.
  - intros Hm.
    pose proof (containingNetworks_live f h root t a h' l Hinv Ht Hrun) as Hl.
    destruct (containingNetworks_sorted f h root t a h' l Hinv Ht Hrun)
      as [Hall _].
    rewrite Forall_forall in Hl, Hall.
    split; [by apply Hmem, Hl|]. by apply Hall.
  - intros [Hm Hin]. apply Hmem in Hm as (r & tr & Hd & Hq & <- & He).
    by eapply (containingNetworks_complete f h root t a h' l).
Qed.

Lemma X14_ContainingNetworks_exact_witness :
  exists w, walkDepth depth root scenarioA = (scenarioA, Ret w) /\
    forall m, m ∈ [net 192 168 0 0 24; net 192 168 0 0 25] <->
              m ∈ w /\ rnet.Contains m (ip4 192 168 0 1) = true.
Proof.
  apply (X14_ContainingNetworks_exact scenarioA depth ip_192_168_0_1
           (ip4 192 168 0 1) scenarioA).
  - apply reachable_scenarioA.
  - vm_compute. reflexivity.
  - lia.
  - vm_compute. reflexivity.
Defined.

(** X15.  What a successful [Insert] does to the stored set: afterwards
    [walkDepth] delivers the inserted network and the networks it delivered
    before, and nothing else. *)
Theorem X15_Insert_adds_exactly_the_network h net0 fuel h' f1 f2 :
  reachable h -> valid_ipnet net0 ->
  Insert fuel root net0 h = (h', Ret None) ->
  (depth <= f1)%nat -> (depth <= f2)%nat ->
  exists l l',
    walkDepth f1 root h = (h, Ret l) /\
    walkDepth f2 root h' = (h', Ret l') /\
    forall m, m ∈ l' <-> m = NewNetwork net0 \/ m ∈ l.
Proof.
  intros Hr Hnet Hrun Hf1 Hf2. unfold depth in Hf1, Hf2.
  destruct (reachable_root h Hr) as [Hinv (t & Ht & E & E0)].
  pose proof (NewNetwork_wf net0 Hnet) as Hwf.
  assert (reachable h') as Hr' by (by eapply reach_Insert).
  destruct (reachable_root h' Hr') as [Hinv' (t' & Ht' & E' & E0')].
  destruct (walkDepth_spec f1 h root t Hinv Ht) as (l & Hl & Hmem & _);
    [lia|].
  destruct (walkDepth_spec f2 h' root t' Hinv' Ht') as (l' & Hl' & Hmem' & _);
    [lia|].
  exists l, l'. split; [done|]. split; [done|]. intros m.
  rewrite Hmem, Hmem'. split.
  - eapply (insert_live_back fuel h root t _ h' None); try done.
    + by apply pre_root.
    + by eapply lookup_lt_Some.
  - intros [->|Hm].
    + apply present_live.
      eapply (insert_present fuel h root t); try done. by apply pre_root.
    + eapply (insert_live fuel h root t _ h' None); try done.
      by apply pre_root.
Qed.

Lemma X15_Insert_adds_exactly_the_network_witness :
  exists l l',
    walkDepth depth root nestedTrie = (nestedTrie, Ret l) /\
    walkDepth depth root scenarioA = (scenarioA, Ret l') /\
    forall m, m ∈ l' <-> m = NewNetwork (cidr 192 168 1 0 24) \/ m ∈ l.
Proof.
  apply (X15_Insert_adds_exactly_the_network nestedTrie
           (cidr 192 168 1 0 24) depth scenarioA depth depth).
  - apply reachable_nestedTrie.
  - apply valid_cidr; lia.
  - vm_compute. reflexivity.
  - lia.
  - lia.
Defined.

(** X16.  [Contains] answers true exactly for the addresses that lie in one
    of the networks [walkDepth] delivers. *)
Theorem X16_Contains_iff_listed h ip a f1 f2 :
  reachable h -> NewNetworkNumber ip = Some a ->
  (depth <= f1)%nat -> (depth <= f2)%nat ->
  exists l, walkDepth f2 root h = (h, Ret l) /\
    (Contains f1 root ip h = (h, Ret (ok true)) <->
     exists m, m ∈ l /\ rnet.Contains m a = true).
Proof.
  intros Hr Hip Hf1 Hf2. unfold depth in Hf1, Hf2.
  destruct (reachable_root h Hr) as [Hinv (t & Ht & E & E0)].
  pose proof (NewNetworkNumber_range _ _ Hip) as Ha.
  destruct (walkDepth_spec f2 h root t Hinv Ht) as (l & Hl & Hmem & _);
    [lia|].
  exists l. split; [done|]. unfold Contains. rewrite Hip. split.
  - intros Hrun.
    destruct (found_live h a root) as (m & Hm & Hin).
    { by eapply contains_found. }
    exists m. split; [by apply Hmem|done].
  - intros (m & Hm & Hin).
    apply Hmem in Hm as (r & tr & Hd & Hq & <- & He).
    eapply found_contains; [done| |done|lia].
    by eapply live_found.
Qed.

Lemma X16_Contains_iff_listed_witness :
  exists l, walkDepth depth root scenarioA = (scenarioA, Ret l) /\
    (Contains depth root ip_192_168_1_5 scenarioA
       = (scenarioA, Ret (ok true)) <->
     exists m, m ∈ l /\ rnet.Contains m (ip4 192 168 1 5) = true).
Proof.
  apply (X16_Contains_iff_listed scenarioA ip_192_168_1_5 (ip4 192 168 1 5)
           depth depth).
  - apply reachable_scenarioA.
  - vm_compute. reflexivity.
  - lia.
  - lia.
Defined.

(** X17.  [Remove] adds nothing: every network [walkDepth] delivers after a
    [Remove] that returned was delivered before it. *)
Theorem X17_Remove_adds_nothing h net0 fuel h' x f1 f2 :
  reachable h -> valid_ipnet net0 ->
  Remove fuel root net0 h = (h', Ret x) ->
  (depth <= f1)%nat -> (depth <= f2)%nat ->
  exists l l',
    walkDepth f1 root h = (h, Ret l) /\
    walkDepth f2 root h' = (h', Ret l') /\
    forall m, m ∈ l' -> m ∈ l.
Proof.
  intros Hr Hnet Hrun Hf1 Hf2. unfold depth in Hf1, Hf2.
  destruct (reachable_root h Hr) as [Hinv (t & Ht & E & E0)].
  assert (reachable h') as Hr' by (by eapply reach_Remove).
  destruct (reachable_root h' Hr') as [Hinv' (t' & Ht' & E' & E0')].
  destruct (walkDepth_spec f1 h root t Hinv Ht) as (l & Hl & Hmem & _);
    [lia|].
  destruct (walkDepth_spec f2 h' root t' Hinv' Ht') as (l' & Hl' & Hmem' & _);
    [lia|].
  exists l, l'. split; [done|]. split; [done|]. intros m.
  rewrite Hmem, Hmem'.
  eapply (remove_live_back fuel h root t _ h' x root); try done.
  constructor.
Qed.

Lemma X17_Remove_adds_nothing_witness :
  exists l l',
    walkDepth depth root scenarioA = (scenarioA, Ret l) /\
    walkDepth depth root scenarioB = (scenarioB, Ret l') /\
    forall m, m ∈ l' -> m ∈ l.
Proof.
  apply (X17_Remove_adds_nothing scenarioA (cidr 192 168 0 0 25) depth
           scenarioB (ok (Some (NewNetwork (cidr 192 168 0 0 25))))
           depth depth).
  - apply reachable_scenarioA.
  - apply valid_cidr; lia.
  - vm_compute. reflexivity.
  - lia.
  - lia.
Defined.
